(** * Room bounding-box estimation: the partitioning DP, the height
      estimator and the box builder of [project.py]

    The development embeds the functions of [src/project.py] that the
    specification speaks about:

    - [generate_parab], [MSE] and [segment]: the optimal-partition dynamic
      programme, with the two module-level dictionaries that memoise the
      fits and their residuals;
    - [ransac_z_fit]: the consensus search for a height;
    - the corner and vertex construction of [bounding_box_3d];
    - the index shift of [import_csv], [euc_dist], and of
      [bounding_box_3d] the distance signal, the footprint and the two
      height estimates.

    Numbers.  The program computes with IEEE doubles through numpy.  Here
    a finite double is a rational [Q], and an entry of the table [D],
    which also holds [np.inf], is a [cost].  The two numpy computations of
    the fitting code, [np.poly1d(np.polyfit(x, y, 2))] and
    [np.sum((y - parab(x))**2)], are parameters ([polyfit2], [sum_sq]).
    In [Section Partition] the residual is a finite double: the theorems
    there hold for whatever finite values the two computations return.
    [Module Py] is the same code with a residual that may also be [inf]
    or [nan], as it is when a square overflows.  [Module ExactFit] and
    [Module OverflowFit] instantiate the parameters with exact least
    squares, to run the program on concrete signals.  Rounding is not
    modelled.

    Exceptions.  A computation returns [None] where Python raises: at the
    indexing of the tables and of the points array, at the empty draw of
    [np.random.choice], at [np.polyfit] on an empty range or on a slice
    of another length than its range, and at [y - parab(x)] on two
    lengths that do not broadcast.  [segment] meets the last two on a
    signal of fewer than [n] values only, and the theorems on [segment]
    take a signal of length [n].

    Randomness.  [ransac_z_fit] takes the entropy of its draws as a
    function [rng]: iteration [j] samples the row [rng j mod size]. *)

From Stdlib Require Import ZArith QArith Qabs List Sorted Lia Lqa Bool.
From stdpp Require Import base option list gmap.
Import ListNotations.

Local Open Scope nat_scope.

(** * The program

    Costs, arrays, then the functions of [project.py] in the order of
    the source. *)

(** ** Costs: the entries of the table [D] *)

(** A float of [D]: a finite value or [np.inf]. *)
Inductive cost : Type :=
| Fin (q : Q)
| Inf.

(** [a + b] on such floats. *)
Definition cadd (a b : cost) : cost :=
  match a, b with
  | Fin x, Fin y => Fin (x + y)%Q
  | _, _ => Inf
  end.

Definition Qltb (x y : Q) : bool := negb (Qle_bool y x).

(** [a < b] on such floats. *)
Definition cltb (a b : cost) : bool :=
  match a, b with
  | Fin x, Fin y => Qltb x y
  | Fin _, Inf => true
  | Inf, _ => false
  end.

(** The order on costs, as a proposition ([np.inf] is the top). *)
Definition cle (a b : cost) : Prop :=
  match a, b with
  | Fin x, Fin y => (x <= y)%Q
  | _, Inf => True
  | Inf, Fin _ => False
  end.

Definition clt (a b : cost) : Prop :=
  match a, b with
  | Fin x, Fin y => (x < y)%Q
  | Fin _, Inf => True
  | Inf, _ => False
  end.

Definition is_fin (a : cost) : Prop :=
  match a with Fin _ => True | Inf => False end.

(** ** numpy arrays and indexing *)

Abbreviation table A := (list (list A)) (only parsing).

(** [np.full((rows, cols), v)] *)
Definition np_full {A : Type} (rows cols : nat) (v : A) : table A :=
  replicate rows (replicate cols v).

(** An index into an axis of length [len]: a negative index counts from
    the end, anything outside [-len, len) raises [IndexError] ([None]). *)
Definition np_index (len : nat) (i : Z) : option nat :=
  if (0 <=? i)%Z then
    (if (i <? Z.of_nat len)%Z then Some (Z.to_nat i) else None)
  else
    (if (- Z.of_nat len <=? i)%Z then Some (Z.to_nat (Z.of_nat len + i))
     else None).

(** [t[i, j]] read. *)
Definition get2 {A : Type} (t : table A) (i j : Z) : option A :=
  match np_index (length t) i with
  | Some i' =>
      match t !! i' with
      | Some row =>
          match np_index (length row) j with
          | Some j' => row !! j'
          | None => None
          end
      | None => None
      end
  | None => None
  end.

(** [t[i, j] = v] *)
Definition set2 {A : Type} (t : table A) (i j : Z) (v : A) : option (table A) :=
  match np_index (length t) i with
  | Some i' =>
      match t !! i' with
      | Some row =>
          match np_index (length row) j with
          | Some j' => Some (<[i' := <[j' := v]> row]> t)
          | None => None
          end
      | None => None
      end
  | None => None
  end.

(** [np.array(range(start, end))] *)
Definition np_range (start end_ : nat) : list Z :=
  map Z.of_nat (seq start (end_ - start)).

(** [distances[start:end]]: a slice is cut at the end of the list. *)
Definition slice {A : Type} (start end_ : nat) (l : list A) : list A :=
  take (end_ - start) (drop start l).

(** [np.polyfit(x, y, 2)] raises [TypeError] on these lengths of [x] and
    [y]: an empty [x], or an [y] of another length. *)
Definition polyfit_raises (len_x len_y : nat) : bool :=
  (len_x =? 0) || negb (len_x =? len_y).

(** The shapes [(len_y,)] and [(len_x,)] broadcast; [y - parab(x)] raises
    [ValueError] when they do not. *)
Definition broadcasts (len_y len_x : nat) : bool :=
  (len_y =? len_x) || (len_y =? 1) || (len_x =? 1).

(** ** The partitioning code *)

Section Partition.

(** [np.poly1d] objects, and the two numpy computations where they do
    not raise.  The sum of squares is a finite double in this section;
    [Module Py] below lets it be [inf] or [nan]. *)
Variable parab : Type.
Variable polyfit2 : list Z -> list Q -> parab.
Variable sum_sq : list Q -> list Z -> parab -> Q.

(** The two module-level dictionaries [parabola_cache] and [mse_cache]:
    the state every call of the process shares. *)
Record caches : Type := Caches {
  parabola_cache : gmap (nat * nat) parab;
  mse_cache : gmap (nat * nat) Q
}.

Definition no_caches : caches := Caches empty empty.

(** Computations that read and write the caches and may raise. *)
Definition M (A : Type) : Type := caches -> option (A * caches).

Definition ret {A : Type} (a : A) : M A := fun st => Some (a, st).

Definition bind {A B : Type} (m : M A) (f : A -> M B) : M B :=
  fun st =>
    match m st with
    | Some (a, st') => f a st'
    | None => None
    end.

Definition lift {A : Type} (o : option A) : M A :=
  fun st =>
    match o with
    | Some a => Some (a, st)
    | None => None
    end.

(** A [for] loop over [l] that threads a value. *)
Fixpoint foldM {A B : Type} (f : A -> B -> M A) (a : A) (l : list B) : M A :=
  match l with
  | [] => ret a
  | b :: l' => bind (f a b) (fun a' => foldM f a' l')
  end.

Definition generate_parab (start end_ : nat) (distances : list Q) : M parab :=
  fun st =>
    let key := (start, end_) in
    match parabola_cache st !! key with
    | Some p => Some (p, st)
    | None =>
        let x := np_range start end_ in
        let y := slice start end_ distances in
        if polyfit_raises (length x) (length y) then None
        else
          let p := polyfit2 x y in
          Some (p, Caches (<[key := p]> (parabola_cache st)) (mse_cache st))
    end.

Definition MSE (start end_ : nat) (distances : list Q) (p : parab) : M Q :=
  fun st =>
    let key := (start, end_) in
    match mse_cache st !! key with
    | Some v => Some (v, st)
    | None =>
        let x := np_range start end_ in
        let y := slice start end_ distances in
        if broadcasts (length y) (length x) then
          let mse_value := sum_sq y x p in
          Some (mse_value, Caches (parabola_cache st) (<[key := mse_value]> (mse_cache st)))
        else None
    end.

(** The body of [for start in range(end - length + 1)], on the pair
    [(min_dist, min_index)].  The loops only reach it with
    [length <= end] and [start <= end - length], where the subtractions
    of the source are those of [nat]. *)
Definition start_step (length end_ : nat) (distances : list Q) (D : table cost)
    (acc : cost * Z) (start : nat) : M (cost * Z) :=
  if end_ - start <? 3 then ret acc
  else
    bind (generate_parab start end_ distances) (fun p =>
    bind (MSE start end_ distances p) (fun mse =>
    bind (lift (get2 D (Z.of_nat start) (Z.of_nat length - 1))) (fun d =>
      if cltb (cadd d (Fin mse)) (fst acc)
      then ret (cadd d (Fin mse), Z.of_nat start)
      else ret acc))).

(** The body of [for end in range(length, n + 1)], on the pair [(D, P)]. *)
Definition end_step (length : nat) (distances : list Q)
    (DP : table cost * table Z) (end_ : nat) : M (table cost * table Z) :=
  bind (foldM (start_step length end_ distances (fst DP)) (Inf, (-1)%Z)
              (seq 0 (end_ - length + 1))) (fun best =>
  bind (lift (set2 (fst DP) (Z.of_nat end_) (Z.of_nat length) (fst best))) (fun D' =>
  bind (lift (set2 (snd DP) (Z.of_nat end_) (Z.of_nat length) (snd best))) (fun P' =>
    ret (D', P')))).

(** The body of [for length in range(1, k + 1)]. *)
Definition length_step (n : nat) (distances : list Q)
    (DP : table cost * table Z) (length : nat) : M (table cost * table Z) :=
  foldM (end_step length distances) DP (seq length (n + 1 - length)).

(** Lines 163-191 of [segment]: the tables [D] and [P]. *)
Definition segment_tables (n k : nat) (distances : list Q) : M (table cost * table Z) :=
  let D := np_full (n + 1) (k + 1) Inf in
  let P := np_full (n + 1) (k + 1) (-1)%Z in
  bind (lift (set2 D 0 0 (Fin 0))) (fun D0 =>
    foldM (length_step n distances) (D0, P) (seq 1 k)).

(** The body of [for i in range(k, 0, -1)], on [(path, current)]. *)
Definition walk_step (P : table Z) (acc : list Z * Z) (i : nat) : option (list Z * Z) :=
  match get2 P (snd acc) (Z.of_nat i) with
  | Some c => Some (fst acc ++ [(snd acc - 1)%Z], c)
  | None => None
  end.

Fixpoint walk (P : table Z) (acc : list Z * Z) (l : list nat) : option (list Z * Z) :=
  match l with
  | [] => Some acc
  | i :: l' =>
      match walk_step P acc i with
      | Some acc' => walk P acc' l'
      | None => None
      end
  end.

(** Lines 193-200 of [segment]: the reconstruction. *)
Definition reconstruct (n k : nat) (P : table Z) : option (list Z) :=
  match get2 P (Z.of_nat n) (Z.of_nat k) with
  | Some current =>
      match walk P ([], current) (rev (seq 1 k)) with
      | Some (path, _) => Some (rev path)
      | None => None
      end
  | None => None
  end.

Definition segment (n k : nat) (distances : list Q) : M (list Z) :=
  bind (segment_tables n k distances) (fun DP => lift (reconstruct n k (snd DP))).

(** What [MSE(start, end, distances, generate_parab(start, end, distances))]
    returns when the dictionaries are [st] and neither call raises: a
    memoised value where there is one, whatever signal it came from. *)
Definition residual (st : caches) (distances : list Q) (start end_ : nat) : Q :=
  match mse_cache st !! (start, end_) with
  | Some v => v
  | None =>
      sum_sq (slice start end_ distances) (np_range start end_)
        (match parabola_cache st !! (start, end_) with
         | Some p => p
         | None => polyfit2 (np_range start end_) (slice start end_ distances)
         end)
  end.

(** The dictionaries [st] give the segment costs [r] on [distances]. *)
Definition agrees (distances : list Q) (r : nat -> nat -> Q) (st : caches) : Prop :=
  forall s e, residual st distances s e = r s e.

End Partition.

(** ** The partitioning code with residuals that need not be finite

    [Section Partition] above takes the sum of squares of a fit as a
    finite double.  [Module Py] is the same code, line by line, where
    [np.sum((y - parab(x))**2)] is a float that may be [inf] or [nan],
    e.g. when a square overflows.  Such a value is [Inf] here: added to
    an entry of [D] it gives [inf] or [nan], and the test
    [D[start, length - 1] + mse < min_dist] is then [False], which is
    what [cadd] and [cltb] compute.  A sum of two finite values is taken
    exactly, as everywhere in this development. *)

Module Py.

Section Partition.

Variable parab : Type.
Variable polyfit2 : list Z -> list Q -> parab.
Variable sum_sq : list Q -> list Z -> parab -> cost.

Record caches : Type := Caches {
  parabola_cache : gmap (nat * nat) parab;
  mse_cache : gmap (nat * nat) cost
}.

Definition no_caches : caches := Caches empty empty.

Definition M (A : Type) : Type := caches -> option (A * caches).

Definition ret {A : Type} (a : A) : M A := fun st => Some (a, st).

Definition bind {A B : Type} (m : M A) (f : A -> M B) : M B :=
  fun st =>
    match m st with
    | Some (a, st') => f a st'
    | None => None
    end.

Definition lift {A : Type} (o : option A) : M A :=
  fun st =>
    match o with
    | Some a => Some (a, st)
    | None => None
    end.

Fixpoint foldM {A B : Type} (f : A -> B -> M A) (a : A) (l : list B) : M A :=
  match l with
  | [] => ret a
  | b :: l' => bind (f a b) (fun a' => foldM f a' l')
  end.

Definition generate_parab (start end_ : nat) (distances : list Q) : M parab :=
  fun st =>
    let key := (start, end_) in
    match parabola_cache st !! key with
    | Some p => Some (p, st)
    | None =>
        let x := np_range start end_ in
        let y := slice start end_ distances in
        if polyfit_raises (length x) (length y) then None
        else
          let p := polyfit2 x y in
          Some (p, Caches (<[key := p]> (parabola_cache st)) (mse_cache st))
    end.

Definition MSE (start end_ : nat) (distances : list Q) (p : parab) : M cost :=
  fun st =>
    let key := (start, end_) in
    match mse_cache st !! key with
    | Some v => Some (v, st)
    | None =>
        let x := np_range start end_ in
        let y := slice start end_ distances in
        if broadcasts (length y) (length x) then
          let mse_value := sum_sq y x p in
          Some (mse_value, Caches (parabola_cache st) (<[key := mse_value]> (mse_cache st)))
        else None
    end.

Definition start_step (length end_ : nat) (distances : list Q) (D : table cost)
    (acc : cost * Z) (start : nat) : M (cost * Z) :=
  if end_ - start <? 3 then ret acc
  else
    bind (generate_parab start end_ distances) (fun p =>
    bind (MSE start end_ distances p) (fun mse =>
    bind (lift (get2 D (Z.of_nat start) (Z.of_nat length - 1))) (fun d =>
      if cltb (cadd d mse) (fst acc)
      then ret (cadd d mse, Z.of_nat start)
      else ret acc))).

Definition end_step (length : nat) (distances : list Q)
    (DP : table cost * table Z) (end_ : nat) : M (table cost * table Z) :=
  bind (foldM (start_step length end_ distances (fst DP)) (Inf, (-1)%Z)
              (seq 0 (end_ - length + 1))) (fun best =>
  bind (lift (set2 (fst DP) (Z.of_nat end_) (Z.of_nat length) (fst best))) (fun D' =>
  bind (lift (set2 (snd DP) (Z.of_nat end_) (Z.of_nat length) (snd best))) (fun P' =>
    ret (D', P')))).

Definition length_step (n : nat) (distances : list Q)
    (DP : table cost * table Z) (length : nat) : M (table cost * table Z) :=
  foldM (end_step length distances) DP (seq length (n + 1 - length)).

Definition segment_tables (n k : nat) (distances : list Q) : M (table cost * table Z) :=
  let D := np_full (n + 1) (k + 1) Inf in
  let P := np_full (n + 1) (k + 1) (-1)%Z in
  bind (lift (set2 D 0 0 (Fin 0))) (fun D0 =>
    foldM (length_step n distances) (D0, P) (seq 1 k)).

(** The reconstruction is [reconstruct] above: it reads [P] only. *)
Definition segment (n k : nat) (distances : list Q) : M (list Z) :=
  bind (segment_tables n k distances) (fun DP => lift (reconstruct n k (snd DP))).

(** What [MSE(start, end, distances, generate_parab(start, end, distances))]
    returns when the dictionaries are [st] and neither call raises. *)
Definition residual (st : caches) (distances : list Q) (start end_ : nat) : cost :=
  match mse_cache st !! (start, end_) with
  | Some v => v
  | None =>
      sum_sq (slice start end_ distances) (np_range start end_)
        (match parabola_cache st !! (start, end_) with
         | Some p => p
         | None => polyfit2 (np_range start end_) (slice start end_ distances)
         end)
  end.

Definition agrees (distances : list Q) (r : nat -> nat -> cost) (st : caches) : Prop :=
  forall s e, residual st distances s e = r s e.

End Partition.

End Py.
(** ** The height estimator *)

(** A row of the [points] array: [(x, y, z)]. *)
Definition point : Type := (Q * Q * Q)%type.

Definition px (p : point) : Q := fst (fst p).
Definition py (p : point) : Q := snd (fst p).
Definition pz (p : point) : Q := snd p.

(** [np.random.choice(size, 1, replace=False)] as a function of the
    entropy [u] it consumes: an index below [size], and [ValueError]
    ([None]) when the population is empty. *)
Definition choice (size u : nat) : option nat :=
  if size =? 0 then None else Some (u mod size).

(** [np.sum(np.abs(points[:, 2] - sample_z) < threshold)] *)
Definition count_inliers (points : list point) (sample_z threshold : Q) : nat :=
  length (List.filter (fun p => Qltb (Qabs (pz p - sample_z)) threshold) points).

(** One iteration of the loop, on [(best_z, best_inliers)]; [None] for
    [best_z] is Python's [None]. *)
Definition ransac_step (points : list point) (threshold : Q)
    (best : option Q * nat) (u : nat) : option (option Q * nat) :=
  match choice (length points) u with
  | Some i =>
      match points !! i with
      | Some sample =>
          let sample_z := pz sample in
          let inliers := count_inliers points sample_z threshold in
          if snd best <? inliers then Some (Some sample_z, inliers)
          else Some best
      | None => None
      end
  | None => None
  end.

Fixpoint ransac_loop (points : list point) (threshold : Q)
    (best : option Q * nat) (draws : list nat) : option (option Q * nat) :=
  match draws with
  | [] => Some best
  | u :: draws' =>
      match ransac_step points threshold best u with
      | Some best' => ransac_loop points threshold best' draws'
      | None => None
      end
  end.

(** [ransac_z_fit(points, iterations, threshold)]; [rng i] is the entropy
    of the draw of iteration [i]. *)
Definition ransac_z_fit (rng : nat -> nat) (points : list point)
    (iterations : nat) (threshold : Q) : option (option Q * nat) :=
  ransac_loop points threshold (None, 0) (map rng (seq 0 iterations)).

(** ** The box builder: lines 279-292 and 326-337 of [bounding_box_3d] *)

(** [points[path]]: one row per entry of [path]. *)
Fixpoint take_rows (points : list point) (path : list Z) : option (list point) :=
  match path with
  | [] => Some []
  | i :: path' =>
      match np_index (length points) i with
      | Some j =>
          match points !! j, take_rows points path' with
          | Some p, Some rows => Some (p :: rows)
          | _, _ => None
          end
      | None => None
      end
  end.

(** [rows[np.argsort(rows[:, c])]]: the rows in ascending order of the
    coordinate [key]. *)
Fixpoint insert_by (key : point -> Q) (p : point) (l : list point) : list point :=
  match l with
  | [] => [p]
  | q :: l' => if Qle_bool (key p) (key q) then p :: q :: l' else q :: insert_by key p l'
  end.

Definition sort_by (key : point -> Q) (l : list point) : list point :=
  fold_right (insert_by key) [] l.

Definition avg (x y : Q) : Q := ((x + y) / 2)%Q.

(** The list [rectangle]: lower left, lower right, upper right, upper left. *)
Definition rectangle (path_points : list point) : option (list (Q * Q)) :=
  let path_x := sort_by px path_points in
  let path_y := sort_by py path_points in
  match path_x !! 0, path_x !! 1, path_x !! 2, path_x !! 3,
        path_y !! 0, path_y !! 1, path_y !! 2, path_y !! 3 with
  | Some x0, Some x1, Some x2, Some x3, Some y0, Some y1, Some y2, Some y3 =>
      let lower_left := (avg (px x0) (px x1), avg (py y0) (py y1)) in
      let lower_right := (avg (px x2) (px x3), avg (py y0) (py y1)) in
      let upper_right := (avg (px x2) (px x3), avg (py y2) (py y3)) in
      let upper_left := (avg (px x0) (px x1), avg (py y2) (py y3)) in
      Some [lower_left; lower_right; upper_right; upper_left]
  | _, _, _, _, _, _, _, _ => None
  end.

(** The list [rectangle_3d] built from the path and the two heights;
    [H] is the type of [floor_z] and [ceiling_z]. *)
Definition rectangle_3d {H : Type} (points : list point) (path : list Z)
    (floor_z ceiling_z : H) : option (list (Q * Q * H)) :=
  match take_rows points path with
  | Some path_points =>
      match rectangle path_points with
      | Some [lower_left; lower_right; upper_right; upper_left] =>
          Some [ (fst lower_left, snd lower_left, floor_z);
                 (fst lower_right, snd lower_right, floor_z);
                 (fst upper_right, snd upper_right, floor_z);
                 (fst upper_left, snd upper_left, floor_z);
                 (fst lower_left, snd lower_left, ceiling_z);
                 (fst lower_right, snd lower_right, ceiling_z);
                 (fst upper_right, snd upper_right, ceiling_z);
                 (fst upper_left, snd upper_left, ceiling_z) ]
      | _ => None
      end
  | None => None
  end.

(** ** Exact least squares: a concrete instance of the numerics *)

Module ExactFit.

(** The coefficients [(a, b, c)] of [a*x^2 + b*x + c]. *)
Definition parab : Type := (Q * Q * Q)%type.

Definition qsum (l : list Q) : Q := fold_right Qplus 0%Q l.

Definition det3 (a b c d e f g h i : Q) : Q :=
  (a * (e * i - f * h) - b * (d * i - f * g) + c * (d * h - e * g))%Q.

(** The least-squares parabola through the points [(x_i, y_i)]: the
    solution of the normal equations, by Cramer's rule.  This is the
    value of [np.polyfit(x, y, 2)] in exact arithmetic for three or more
    distinct abscissae with as many ordinates, which is all that
    [segment] asks for. *)
Definition polyfit2 (x : list Z) (y : list Q) : parab :=
  let xs := map inject_Z x in
  let xy := combine xs y in
  let s0 := qsum (map (fun _ => 1%Q) xs) in
  let s1 := qsum xs in
  let s2 := qsum (map (fun u => u * u)%Q xs) in
  let s3 := qsum (map (fun u => u * u * u)%Q xs) in
  let s4 := qsum (map (fun u => u * u * u * u)%Q xs) in
  let t0 := qsum (map (fun p => snd p) xy) in
  let t1 := qsum (map (fun p => fst p * snd p)%Q xy) in
  let t2 := qsum (map (fun p => fst p * fst p * snd p)%Q xy) in
  let d := det3 s4 s3 s2 s3 s2 s1 s2 s1 s0 in
  (Qred (det3 t2 s3 s2 t1 s2 s1 t0 s1 s0 / d),
   Qred (det3 s4 t2 s2 s3 t1 s1 s2 t0 s0 / d),
   Qred (det3 s4 s3 t2 s3 s2 t1 s2 s1 t0 / d)).

(** [parab(x)] *)
Definition poly_eval (p : parab) (u : Q) : Q :=
  let '(a, b, c) := p in (a * u * u + b * u + c)%Q.

(** [np.sum((y - parab(x))**2)] *)
Definition sum_sq (y : list Q) (x : list Z) (p : parab) : Q :=
  Qred (qsum (map (fun yx => (fst yx - poly_eval p (inject_Z (snd yx))) *
                             (fst yx - poly_eval p (inject_Z (snd yx))))%Q
                  (combine y x))).

Definition segment := segment parab polyfit2 sum_sq.
Definition segment_tables := segment_tables parab polyfit2 sum_sq.
Definition residual := residual parab polyfit2 sum_sq.

(** The dictionaries when the module has just been loaded. *)
Definition start_caches : caches parab := no_caches parab.

(** Two calls in one process: the second runs on the dictionaries that
    the first has left.  The result is the pair of returned paths. *)
Definition two_calls (n1 k1 : nat) (d1 : list Q) (n2 k2 : nat) (d2 : list Q)
    : option (list Z * list Z) :=
  match segment n1 k1 d1 start_caches with
  | Some (path1, st1) =>
      match segment n2 k2 d2 st1 with
      | Some (path2, _) => Some (path1, path2)
      | None => None
      end
  | None => None
  end.

(** One call in a fresh process. *)
Definition one_call (n k : nat) (d : list Q) : option (list Z) :=
  match segment n k d start_caches with
  | Some (path, _) => Some path
  | None => None
  end.

End ExactFit.

(** ** Exact least squares with the overflow of doubles *)

Module OverflowFit.

Definition parab : Type := ExactFit.parab.

Definition polyfit2 : list Z -> list Q -> parab := ExactFit.polyfit2.

(** The largest finite double, [(2 - 2^-52) * 2^1023]. *)
Definition double_max : Q := inject_Z (2 ^ 1024 - 2 ^ 971).

(** [np.sum((y - parab(x))**2)]: the exact sum where a double can hold
    it, [inf] where it is beyond the largest double. *)
Definition sum_sq (y : list Q) (x : list Z) (p : parab) : cost :=
  let v := ExactFit.sum_sq y x p in
  if Qle_bool v double_max then Fin v else Inf.

Definition segment := Py.segment parab polyfit2 sum_sq.
Definition segment_tables := Py.segment_tables parab polyfit2 sum_sq.
Definition residual := Py.residual parab polyfit2 sum_sq.

Definition start_caches : Py.caches parab := Py.no_caches parab.

(** One call in a fresh process. *)
Definition one_call (n k : nat) (d : list Q) : option (list Z) :=
  match segment n k d start_caches with
  | Some (path, _) => Some path
  | None => None
  end.

End OverflowFit.
(** ** The rest of the source

    The functions and the parts of functions that the sections above
    leave out, as far as they compute on arrays: the index shift at the
    end of [import_csv] (the reading of the file and the sort by
    [math.atan2] angles before it are not modelled), [euc_dist], and of
    [bounding_box_3d] the distance signal, the call of [segment] with the
    corners (lines 270-292) and the two height estimates (lines
    322-323).  The plotting is left out. *)

(** [np.sum] and [np.mean] of a vector; the mean of no value is [nan]
    in numpy and [0 / 0 = 0] here, where nothing depends on it. *)
Definition Qsum (l : list Q) : Q := fold_right Qplus 0%Q l.

Definition mean (l : list Q) : Q := (Qsum l / inject_Z (Z.of_nat (length l)))%Q.

(** [np.argmin(v)]: the index of the first minimum; [ValueError]
    ([None]) on an empty vector. *)
Fixpoint argmin_from (best_i : nat) (best : Q) (i : nat) (v : list Q) : nat :=
  match v with
  | [] => best_i
  | x :: v' =>
      if Qltb x best then argmin_from i x (S i) v'
      else argmin_from best_i best (S i) v'
  end.

Definition argmin (v : list Q) : option nat :=
  match v with
  | [] => None
  | x :: v' => Some (argmin_from 0 x 1 v')
  end.

(** Lines 49-63 of [import_csv], on the array sorted by angle:
    [mean_x], [start_index], [shifted_indices] and [points[shifted_indices]]. *)
Definition shifted_indices (size start_index : nat) : list Z :=
  map (fun i => ((Z.of_nat i + Z.of_nat start_index - 1) mod Z.of_nat size)%Z) (seq 0 size).

Definition shift_points (points : list point) : option (list point) :=
  let mean_x := mean (map px points) in
  match argmin (map (fun p => Qabs (px p - mean_x)) points) with
  | Some start_index => take_rows points (shifted_indices (length points) start_index)
  | None => None
  end.

(** [euc_dist(a, b)] on two pairs [(x, y)] of floats, as
    [bounding_box_3d] calls it.  The squares and their sum are exact
    here; a double rounds them, and gives [0.0] or [inf] where a square
    underflows or overflows. *)
Definition euc_dist (a b : Q * Q) : Q :=
  ((fst a - fst b) ^ 2 + (snd a - snd b) ^ 2)%Q.

(** [points[:, :2].mean(axis=0)] and the list [distances] of
    [bounding_box_3d]. *)
Definition c_mean (points : list point) : Q * Q :=
  (mean (map px points), mean (map py points)).

Definition distances_of (points : list point) : list Q :=
  map (fun p => euc_dist (px p, py p) (c_mean points)) points.

(** [np.median(points[:, 2])]: the middle height, or the mean of the two
    middle heights; [nan] ([None]) for no point. *)
Definition median_z (points : list point) : option Q :=
  let sorted := sort_by pz points in
  let size := length points in
  if size =? 0 then None
  else if Nat.even size then
    match sorted !! (size / 2 - 1), sorted !! (size / 2) with
    | Some a, Some b => Some (avg (pz a) (pz b))
    | _, _ => None
    end
  else
    match sorted !! (size / 2) with
    | Some a => Some (pz a)
    | None => None
    end.

(** [points[points[:, 2] < m]] and [points[points[:, 2] > m]]; a
    comparison with [nan] is false. *)
Definition points_below (m : option Q) (points : list point) : list point :=
  List.filter (fun p => match m with Some v => Qltb (pz p) v | None => false end) points.

Definition points_above (m : option Q) (points : list point) : list point :=
  List.filter (fun p => match m with Some v => Qltb v (pz p) | None => false end) points.

(** Lines 322-323 of [bounding_box_3d]: [(floor_z, ceiling_z)], with the
    default [iterations = 100] and [threshold = 0.5] of [ransac_z_fit];
    each call has its own draws. *)
Definition estimate_heights (rng_floor rng_ceiling : nat -> nat) (points : list point)
    : option (option Q * option Q) :=
  match ransac_z_fit rng_floor (points_below (median_z points) points) 100 (1 # 2) with
  | Some (floor_z, _) =>
      match ransac_z_fit rng_ceiling (points_above (median_z points) points) 100 (1 # 2) with
      | Some (ceiling_z, _) => Some (floor_z, ceiling_z)
      | None => None
      end
  | None => None
  end.

Section Footprint.

Variable parab : Type.
Variable polyfit2 : list Z -> list Q -> parab.
Variable sum_sq : list Q -> list Z -> parab -> Q.

(** Lines 270-292 of [bounding_box_3d]: the list [rectangle] computed
    from the points, with [k = 4]. *)
Definition footprint (points : list point) : M parab (list (Q * Q)) :=
  let n := length points in
  let k := 4 in
  let distances := distances_of points in
  bind parab (segment parab polyfit2 sum_sq n k distances) (fun path =>
    lift parab (match take_rows points path with
                | Some path_points => rectangle path_points
                | None => None
                end)).

End Footprint.

(** * What the code computes

    The definitions of this part are not code of the program: they state
    what its loops compute, for the theorems of the last part. *)

(** ** Tables as functions *)

(** The table [t] has [rows] rows of [cols] entries and holds [f i j] at
    [(i, j)]. *)
Definition tab_is {A : Type} (rows cols : nat) (t : table A) (f : nat -> nat -> A) : Prop :=
  length t = rows /\
  forall i, i < rows ->
    exists row, t !! i = Some row /\ length row = cols /\
      forall j, j < cols -> row !! j = Some (f i j).

(** The contents [f] after the assignment [t[i, j] = v]. *)
Definition upd {A : Type} (f : nat -> nat -> A) (i j : nat) (v : A) : nat -> nat -> A :=
  fun i' j' => if (i' =? i) && (j' =? j) then v else f i' j'.

(** The entries that the reconstruction loop appends, as a function of
    the contents [f] of [P] (a table of [n + 1] rows): it starts at
    [current] and reads [P[current, i]] for each [i] of [layers]. *)
Definition row_of (n : nat) (current : Z) : nat :=
  match np_index (n + 1) current with
  | Some i => i
  | None => 0
  end.

Fixpoint walk_fun (f : nat -> nat -> Z) (n : nat) (current : Z) (layers : list nat) : list Z :=
  match layers with
  | [] => []
  | i :: layers' => (current - 1)%Z :: walk_fun f n (f (row_of n current) i) layers'
  end.

Definition path_fun (f : nat -> nat -> Z) (n k : nat) : list Z :=
  rev (walk_fun f n (f n k) (rev (seq 1 k))).

(** ** The recurrence that the loops of [segment] compute

    [dp r length end_] is the pair [(D[end][length], P[end][length])] when
    the cost of the segment [start, end) is [r start end]: the loops of
    [segment] with the tables and the memo dictionaries taken away.
    [segment_tables_run] below proves that the code computes it. *)

Section Recurrence.

Variable r : nat -> nat -> Q.

(** One candidate [start] for the segment ending at [end_]. *)
Definition cand_step (prev : nat -> cost) (end_ : nat)
    (acc : cost * Z) (start : nat) : cost * Z :=
  if end_ - start <? 3 then acc
  else if cltb (cadd (prev start) (Fin (r start end_))) (fst acc)
       then (cadd (prev start) (Fin (r start end_)), Z.of_nat start)
       else acc.

Definition scan (prev : nat -> cost) (end_ : nat) (starts : list nat) : cost * Z :=
  fold_left (cand_step prev end_) starts (Inf, (-1)%Z).

Fixpoint dp (len end_ : nat) : cost * Z :=
  match len with
  | 0 => (if end_ =? 0 then Fin 0 else Inf, (-1)%Z)
  | S len' =>
      if end_ <? S len' then (Inf, (-1)%Z)
      else scan (fun s => fst (dp len' s)) end_ (seq 0 (end_ - S len' + 1))
  end.

Definition dpD (len end_ : nat) : cost := fst (dp len end_).
Definition dpP (len end_ : nat) : Z := snd (dp len end_).

(** The entries already assigned when the loops reach layer [l] and
    end [e]: the layers below [l], and the ends below [e] of layer [l]. *)
Definition filled (l e l' e' : nat) : bool :=
  (l' <? l) || ((l' =? l) && (e' <? e)).

(** The contents of [(D, P)] at that moment, indexed as the tables are:
    [progress l e end_ len]. *)
Definition progress (l e : nat) : nat -> nat -> cost * Z :=
  fun e' l' =>
    if filled l e l' e' then dp l' e'
    else (if (e' =? 0) && (l' =? 0) then Fin 0 else Inf, (-1)%Z).

(** The cost of ending a segment at [end_] that starts at [start],
    after [prev start]. *)
Definition cand (prev : nat -> cost) (end_ start : nat) : cost :=
  cadd (prev start) (Fin (r start end_)).

(** [acc] is what a scan of the starts [0 .. m-1] must leave in
    [(min_dist, min_index)]: a lower bound of every candidate with at
    least three points, and either nothing was found, or [min_index] is
    the first start to reach the minimum. *)
Definition best_of (prev : nat -> cost) (end_ m : nat) (acc : cost * Z) : Prop :=
  (forall s, s < m -> 3 <= end_ - s -> cle (fst acc) (cand prev end_ s)) /\
  (acc = (Inf, (-1)%Z) \/
   exists s, s < m /\ 3 <= end_ - s /\
     acc = (cand prev end_ s, Z.of_nat s) /\ is_fin (cand prev end_ s) /\
     forall s', s' < s -> 3 <= end_ - s' -> clt (cand prev end_ s) (cand prev end_ s')).

Definition tables_at (n k l e : nat) (D : table cost) (P : table Z) : Prop :=
  tab_is (n + 1) (k + 1) D (fun e' l' => fst (progress l e e' l')) /\
  tab_is (n + 1) (k + 1) P (fun e' l' => snd (progress l e e' l')).

End Recurrence.

(** ** The recurrence of [Py.segment]

    The recurrence of the loops again, over segment costs [r] that may
    be [Inf]: such a candidate never replaces [min_dist]. *)

Module PyRec.

Section Recurrence.

Variable r : nat -> nat -> cost.

Definition cand_step (prev : nat -> cost) (end_ : nat)
    (acc : cost * Z) (start : nat) : cost * Z :=
  if end_ - start <? 3 then acc
  else if cltb (cadd (prev start) (r start end_)) (fst acc)
       then (cadd (prev start) (r start end_), Z.of_nat start)
       else acc.

Definition scan (prev : nat -> cost) (end_ : nat) (starts : list nat) : cost * Z :=
  fold_left (cand_step prev end_) starts (Inf, (-1)%Z).

Fixpoint dp (len end_ : nat) : cost * Z :=
  match len with
  | 0 => (if end_ =? 0 then Fin 0 else Inf, (-1)%Z)
  | S len' =>
      if end_ <? S len' then (Inf, (-1)%Z)
      else scan (fun s => fst (dp len' s)) end_ (seq 0 (end_ - S len' + 1))
  end.

Definition dpD (len end_ : nat) : cost := fst (dp len end_).
Definition dpP (len end_ : nat) : Z := snd (dp len end_).

Definition progress (l e : nat) : nat -> nat -> cost * Z :=
  fun e' l' =>
    if filled l e l' e' then dp l' e'
    else (if (e' =? 0) && (l' =? 0) then Fin 0 else Inf, (-1)%Z).

Definition tables_at (n k l e : nat) (D : table cost) (P : table Z) : Prop :=
  tab_is (n + 1) (k + 1) D (fun e' l' => fst (progress l e e' l')) /\
  tab_is (n + 1) (k + 1) P (fun e' l' => snd (progress l e e' l')).

End Recurrence.

End PyRec.

(** ** The two embeddings of [segment]

    The dictionaries of [Section Partition] as dictionaries of
    [Module Py], and a result of the former as a result of the latter. *)

Definition lift_caches {parab : Type} (st : caches parab) : Py.caches parab :=
  Py.Caches parab (parabola_cache parab st) (Fin <$> mse_cache parab st).

Definition lift_run {parab A : Type} (o : option (A * caches parab))
    : option (A * Py.caches parab) :=
  match o with
  | Some (a, st) => Some (a, lift_caches st)
  | None => None
  end.

(** ** The iterations of the height estimator *)

(** The point that iteration [j] draws, its height and its inlier count. *)
Definition drawn (rng : nat -> nat) (points : list point) (j : nat) : option point :=
  match choice (length points) (rng j) with
  | Some i => points !! i
  | None => None
  end.

Definition sample_z_at (rng : nat -> nat) (points : list point) (j : nat) : Q :=
  match drawn rng points j with
  | Some sample => pz sample
  | None => 0%Q
  end.

Definition inliers_at (rng : nat -> nat) (points : list point) (threshold : Q) (j : nat) : nat :=
  count_inliers points (sample_z_at rng points j) threshold.

(** [best] is what [m] iterations must leave in [(best_z, best_inliers)]:
    the largest count so far, with the height of the first iteration that
    reached it; or nothing, when no iteration counted an inlier. *)
Definition first_best (rng : nat -> nat) (points : list point) (threshold : Q)
    (m : nat) (best : option Q * nat) : Prop :=
  (forall j, j < m -> inliers_at rng points threshold j <= snd best) /\
  (best = (None, 0) \/
   exists j, j < m /\
     best = (Some (sample_z_at rng points j), inliers_at rng points threshold j) /\
     0 < inliers_at rng points threshold j /\
     forall j', j' < j -> inliers_at rng points threshold j' < inliers_at rng points threshold j).

(** ** Sorted rows *)

(** The order of the rows after such a sort. *)
Definition key_le (key : point -> Q) (p q : point) : Prop := (key p <= key q)%Q.

(** ** The keys that a call adds to the dictionaries *)

(** A range of at least three points within [[0, n]]. *)
Definition range_key (n : nat) (key : nat * nat) : Prop :=
  fst key + 3 <= snd key /\ snd key <= n.

Section Growth.

Variable parab : Type.

(** From [st] to [st']: no entry is removed or overwritten, and every
    new key is a [range_key n]. *)
Definition caches_grow (n : nat) (st st' : caches parab) : Prop :=
  (forall key p, parabola_cache parab st !! key = Some p ->
                 parabola_cache parab st' !! key = Some p) /\
  (forall key v, mse_cache parab st !! key = Some v ->
                 mse_cache parab st' !! key = Some v) /\
  (forall key, is_Some (parabola_cache parab st' !! key) ->
               is_Some (parabola_cache parab st !! key) \/ range_key n key) /\
  (forall key, is_Some (mse_cache parab st' !! key) ->
               is_Some (mse_cache parab st !! key) \/ range_key n key).

(** Both dictionaries have an entry under [key]. *)
Definition cached (key : nat * nat) (st : caches parab) : Prop :=
  is_Some (parabola_cache parab st !! key) /\ is_Some (mse_cache parab st !! key).

(** Every range that [segment(n, _, distances)] may fit lies within the
    signal, or has its parabola and its residual in the dictionaries:
    no fit of the call raises. *)
Definition fits_ready (n : nat) (distances : list Q) (st : caches parab) : Prop :=
  forall s e, s + 3 <= e -> e <= n -> e <= length distances \/ cached (s, e) st.

End Growth.

(** ** The partitions that the loops of [segment] compare *)

(** The least number of points that the loops can cut into [l]
    segments: [0, 3, 6, 9, 13, 18, ...]. *)
Fixpoint min_points (l : nat) : nat :=
  match l with
  | 0 => 0
  | S l' => min_points l' + Nat.max 3 (S l')
  end.

(** A partition of [[0, e)] is the list of the ends of its segments, the
    last segment first: [[e; ...; e1]] stands for
    [[0, e1), ..., [.., e)].  The start of the first segment of
    [cuts] is [0], the start of a later one is the end before it. *)
Definition last_end (cuts : list nat) : nat := hd 0 cuts.

(** The [i]-th segment has at least [max(3, i)] points. *)
Fixpoint admitted (cuts : list nat) : Prop :=
  match cuts with
  | [] => True
  | e :: rest => last_end rest + Nat.max 3 (length cuts) <= e /\ admitted rest
  end.

(** The sum of the costs of the segments, added from the first segment
    on as the recurrence adds them. *)
Fixpoint cuts_cost (r : nat -> nat -> Q) (cuts : list nat) : Q :=
  match cuts with
  | [] => 0%Q
  | e :: rest => (cuts_cost r rest + r (last_end rest) e)%Q
  end.

(** * Properties *)

(** ** Costs *)

Lemma Qltb_lt (x y : Q) : Qltb x y = true <-> (x < y)%Q.
Proof.
  unfold Qltb. rewrite negb_true_iff. split.
  - intros Hb. apply Qnot_le_lt. intros Hle.
    apply Qle_bool_iff in Hle. congruence.
  - intros Hlt. destruct (Qle_bool y x) eqn:Hb; [|reflexivity].
    apply Qle_bool_iff in Hb. exfalso. exact (Qlt_not_le _ _ Hlt Hb).
Qed.

Lemma cltb_clt (a b : cost) : cltb a b = true <-> clt a b.
Proof.
  destruct a as [x|], b as [y|]; simpl; try apply Qltb_lt; intuition congruence.
Qed.

Lemma cltb_false_cle (a b : cost) : cltb a b = false <-> cle b a.
Proof.
  destruct a as [x|], b as [y|]; simpl; try (intuition congruence).
  unfold Qltb. rewrite negb_false_iff. apply Qle_bool_iff.
Qed.

Lemma cle_refl (a : cost) : cle a a.
Proof. destruct a; simpl; [apply Qle_refl | exact I]. Qed.

Lemma cle_trans (a b c : cost) : cle a b -> cle b c -> cle a c.
Proof.
  destruct a, b, c; simpl; try tauto. apply Qle_trans.
Qed.

Lemma clt_cle (a b : cost) : clt a b -> cle a b.
Proof. destruct a, b; simpl; try tauto. apply Qlt_le_weak. Qed.

Lemma clt_cle_trans (a b c : cost) : clt a b -> cle b c -> clt a c.
Proof.
  destruct a, b, c; simpl; try tauto. apply Qlt_le_trans.
Qed.

Lemma cadd_fin_inv (a : cost) (q : Q) : is_fin (cadd a (Fin q)) -> is_fin a.
Proof. destruct a; simpl; tauto. Qed.

(** ** Tables *)

Lemma np_index_nat (len i : nat) : i < len -> np_index len (Z.of_nat i) = Some i.
Proof.
  intros Hi. unfold np_index.
  destruct (Z.leb_spec 0 (Z.of_nat i)); [|lia].
  destruct (Z.ltb_spec (Z.of_nat i) (Z.of_nat len)); [|lia].
  now rewrite Nat2Z.id.
Qed.

Lemma tab_is_full {A : Type} (rows cols : nat) (v : A) :
  tab_is rows cols (np_full rows cols v) (fun _ _ => v).
Proof.
  unfold tab_is, np_full. split; [apply length_replicate|].
  intros i Hi. exists (replicate cols v). split; [|split].
  - now apply lookup_replicate_2.
  - apply length_replicate.
  - intros j Hj. now apply lookup_replicate_2.
Qed.

Lemma tab_is_ext {A : Type} (rows cols : nat) (t : table A) (f g : nat -> nat -> A) :
  tab_is rows cols t f ->
  (forall i j, i < rows -> j < cols -> f i j = g i j) ->
  tab_is rows cols t g.
Proof.
  intros [Hlen Hrows] Hfg. split; [exact Hlen|].
  intros i Hi. destruct (Hrows i Hi) as (row & Hrow & Hl & Hcells).
  exists row. repeat split; auto.
  intros j Hj. rewrite (Hcells j Hj). f_equal. now apply Hfg.
Qed.

Lemma tab_is_get {A : Type} (rows cols : nat) (t : table A) f (i j : nat) :
  tab_is rows cols t f -> i < rows -> j < cols ->
  get2 t (Z.of_nat i) (Z.of_nat j) = Some (f i j).
Proof.
  intros [Hlen Hrows] Hi Hj. destruct (Hrows i Hi) as (row & Hrow & Hl & Hcells).
  unfold get2. rewrite Hlen, (np_index_nat rows i Hi), Hrow, Hl.
  rewrite (np_index_nat cols j Hj). now apply Hcells.
Qed.

Lemma tab_is_set {A : Type} (rows cols : nat) (t : table A) f (i j : nat) (v : A) :
  tab_is rows cols t f -> i < rows -> j < cols ->
  exists t', set2 t (Z.of_nat i) (Z.of_nat j) v = Some t' /\
             tab_is rows cols t' (upd f i j v).
Proof.
  intros [Hlen Hrows] Hi Hj. destruct (Hrows i Hi) as (row & Hrow & Hl & Hcells).
  unfold set2. rewrite Hlen, (np_index_nat rows i Hi), Hrow, Hl.
  rewrite (np_index_nat cols j Hj). eexists. split; [reflexivity|].
  split; [now rewrite length_insert|].
  intros i' Hi'. unfold upd.
  destruct (Nat.eqb_spec i' i) as [->|Hne].
  - exists (<[j := v]> row). split; [|split].
    + apply list_lookup_insert_eq. lia.
    + now rewrite length_insert.
    + intros j' Hj'. simpl. destruct (Nat.eqb_spec j' j) as [->|Hnej].
      * apply list_lookup_insert_eq. lia.
      * rewrite list_lookup_insert_ne by congruence. now apply Hcells.
  - destruct (Hrows i' Hi') as (row' & Hrow' & Hl' & Hcells').
    exists row'. split; [|split; [exact Hl'|]].
    + rewrite list_lookup_insert_ne by congruence. exact Hrow'.
    + intros j' Hj'. simpl. now apply Hcells'.
Qed.

Lemma tab_is_get_z {A : Type} (rows cols : nat) (t : table A) f (i : Z) (i' j : nat) :
  tab_is rows cols t f -> np_index rows i = Some i' -> i' < rows -> j < cols ->
  get2 t i (Z.of_nat j) = Some (f i' j).
Proof.
  intros [Hlen Hrows] Hidx Hi Hj. destruct (Hrows i' Hi) as (row & Hrow & Hl & Hcells).
  unfold get2. rewrite Hlen, Hidx, Hrow, Hl.
  rewrite (np_index_nat cols j Hj). now apply Hcells.
Qed.

Lemma np_index_in_range (n : nat) (c : Z) :
  (-1 <= c <= Z.of_nat n)%Z ->
  exists i, np_index (n + 1) c = Some i /\ i <= n.
Proof.
  intros Hc. unfold np_index.
  destruct (Z.leb_spec 0 c).
  - destruct (Z.ltb_spec c (Z.of_nat (n + 1))); [|lia].
    exists (Z.to_nat c). split; [reflexivity|lia].
  - destruct (Z.leb_spec (- Z.of_nat (n + 1)) c); [|lia].
    eexists. split; [reflexivity|lia].
Qed.

(** ** The reconstruction loop *)

Lemma walk_run (n k : nat) (P : table Z) (f : nat -> nat -> Z) :
  tab_is (n + 1) (k + 1) P f ->
  (forall e l, e <= n -> l <= k -> (-1 <= f e l <= Z.of_nat n)%Z) ->
  forall layers : list nat, (forall i, In i layers -> i <= k) ->
  forall (path : list Z) (current : Z), (-1 <= current <= Z.of_nat n)%Z ->
  exists c, walk P (path, current) layers = Some (path ++ walk_fun f n current layers, c).
Proof.
  intros HP Hrange. induction layers as [|i layers IH]; intros Hk path current Hc.
  - exists current. simpl. now rewrite app_nil_r.
  - destruct (np_index_in_range n current Hc) as (row & Hrow & Hle).
    assert (Hi : i <= k) by (apply Hk; now left).
    assert (Hget : get2 P current (Z.of_nat i) = Some (f row i))
      by (apply (tab_is_get_z (n + 1) (k + 1)); auto; lia).
    destruct (IH (fun j Hj => Hk j (or_intror Hj)) (path ++ [(current - 1)%Z]) (f row i))
      as (c & Hwalk); [now apply Hrange|].
    exists c. simpl. unfold walk_step. simpl. rewrite Hget, Hwalk.
    unfold row_of. rewrite Hrow. now rewrite <- app_assoc.
Qed.

Lemma reconstruct_run (n k : nat) (P : table Z) (f : nat -> nat -> Z) :
  tab_is (n + 1) (k + 1) P f ->
  (forall e l, e <= n -> l <= k -> (-1 <= f e l <= Z.of_nat n)%Z) ->
  reconstruct n k P = Some (path_fun f n k).
Proof.
  intros HP Hrange. unfold reconstruct, path_fun.
  rewrite (tab_is_get _ _ _ _ n k HP) by lia.
  destruct (walk_run n k P f HP Hrange (rev (seq 1 k))) with (path := @nil Z) (current := f n k)
    as (c & Hwalk).
  - intros i Hi. apply in_rev, in_seq in Hi. lia.
  - apply Hrange; lia.
  - now rewrite Hwalk.
Qed.

Lemma walk_fun_length f n current layers :
  length (walk_fun f n current layers) = length layers.
Proof.
  revert current. induction layers as [|i layers IH]; intros current; simpl; auto.
Qed.

Lemma path_fun_length f n k : length (path_fun f n k) = k.
Proof.
  unfold path_fun. now rewrite length_rev, walk_fun_length, length_rev, length_seq.
Qed.

(** The last entry of the path is the first one appended: [P[n, k] - 1]. *)
Lemma path_fun_last f n k : 1 <= k -> last (path_fun f n k) = Some (f n k - 1)%Z.
Proof.
  intros Hk. unfold path_fun.
  replace k with (S (k - 1)) at 2 by lia. rewrite seq_S, rev_app_distr. simpl.
  now rewrite last_snoc.
Qed.

Lemma row_of_le (n : nat) (c : Z) : row_of n c <= n.
Proof.
  unfold row_of, np_index.
  destruct (Z.leb_spec 0 c).
  - destruct (Z.ltb_spec c (Z.of_nat (n + 1))); lia.
  - destruct (Z.leb_spec (- Z.of_nat (n + 1)) c); lia.
Qed.

Lemma walk_fun_Forall (Q : Z -> Prop) f n layers :
  (forall e l, e <= n -> Q (f e l - 1)%Z) ->
  forall current, Q (current - 1)%Z -> Forall Q (walk_fun f n current layers).
Proof.
  intros Hf. induction layers as [|i layers IH]; intros current Hc; simpl.
  - constructor.
  - constructor; [exact Hc|]. apply IH. apply Hf. apply row_of_le.
Qed.

Lemma path_fun_Forall (Q : Z -> Prop) f n k :
  (forall e l, e <= n -> Q (f e l - 1)%Z) -> Forall Q (path_fun f n k).
Proof.
  intros Hf. unfold path_fun. apply Forall_rev.
  apply walk_fun_Forall; [exact Hf|]. now apply Hf.
Qed.

(** ** The recurrence *)

Section RecurrenceFacts.

Variable r : nat -> nat -> Q.

Lemma clt_fin (a b : cost) : clt a b -> is_fin a.
Proof. destruct a, b; simpl; tauto. Qed.

Lemma scan_best_of (prev : nat -> cost) (e m : nat) :
  best_of r prev e m (scan r prev e (seq 0 m)).
Proof.
  unfold scan. induction m as [|m IH].
  - split; [intros s Hs; lia | now left].
  - rewrite seq_S, fold_left_app. simpl.
    set (acc := fold_left (cand_step r prev e) (seq 0 m) (Inf, (-1)%Z)) in *.
    destruct IH as [Hlow Hbest]. unfold cand_step.
    destruct (Nat.ltb_spec (e - m) 3) as [Hshort|Hlong].
    + split.
      * intros s Hs Hs3. apply Hlow; lia.
      * destruct Hbest as [Hnone|(s & Hs & Hs3 & Hacc & Hfin & Hfirst)]; [now left|].
        right. exists s. repeat split; auto; lia.
    + fold (cand r prev e m).
      destruct (cltb (cand r prev e m) (fst acc)) eqn:Hcmp.
      * apply cltb_clt in Hcmp. split.
        -- intros s Hs Hs3. simpl.
           destruct (Nat.eq_dec s m) as [->|Hne]; [apply cle_refl|].
           apply clt_cle. eapply clt_cle_trans; [exact Hcmp|]. apply Hlow; [lia|exact Hs3].
        -- right. exists m. repeat split; auto.
           ++ eapply clt_fin. exact Hcmp.
           ++ intros s' Hs' Hs3. eapply clt_cle_trans; [exact Hcmp|]. now apply Hlow.
      * apply cltb_false_cle in Hcmp. split.
        -- intros s Hs Hs3.
           destruct (Nat.eq_dec s m) as [->|Hne]; [exact Hcmp|]. apply Hlow; [lia|exact Hs3].
        -- destruct Hbest as [Hnone|(s & Hs & Hs3 & Hacc & Hfin & Hfirst)]; [now left|].
           right. exists s. repeat split; auto; lia.
Qed.

(** The recurrence of the code: layer [l >= 1], end [e >= l]; the
    starts scanned are [0 .. e - l]. *)
Lemma dp_best_of (l e : nat) :
  1 <= l -> l <= e ->
  best_of r (dpD r (l - 1)) e (e - l + 1) (dp r l e).
Proof.
  intros Hl Hle. destruct l as [|l]; [lia|]. simpl dp.
  destruct (Nat.ltb_spec e (S l)); [lia|].
  replace (S l - 1) with l by lia.
  apply (scan_best_of (dpD r l)).
Qed.

Lemma dp_unwritten (l e : nat) : e < l -> dp r l e = (Inf, (-1)%Z).
Proof.
  intros Hlt. destruct l as [|l]; [lia|]. simpl.
  destruct (Nat.ltb_spec e (S l)); [reflexivity|lia].
Qed.

(** Fewer than [3 * l] points cannot be cut into [l] segments. *)
Lemma dp_infeasible (l : nat) : forall e, e < 3 * l -> dp r l e = (Inf, (-1)%Z).
Proof.
  induction l as [|l IH]; intros e He; [lia|].
  destruct (Nat.lt_ge_cases e (S l)) as [Hlt|Hge]; [now apply dp_unwritten|].
  destruct (dp_best_of (S l) e) as [_ [Hnone|(s & Hs & Hs3 & Hacc & Hfin & _)]];
    [lia|lia|exact Hnone|].
  exfalso. unfold cand in Hfin. apply cadd_fin_inv in Hfin.
  replace (S l - 1) with l in Hfin by lia.
  unfold dpD in Hfin. rewrite IH in Hfin by lia. exact Hfin.
Qed.

(** An entry of [P] is [-1] or a start that leaves three points. *)
Lemma dpP_range (l e : nat) :
  dpP r l e = (-1)%Z \/ (0 <= dpP r l e <= Z.of_nat e - 3)%Z.
Proof.
  unfold dpP. destruct l as [|l]; [now left|].
  destruct (Nat.lt_ge_cases e (S l)) as [Hlt|Hge].
  - rewrite dp_unwritten by exact Hlt. now left.
  - destruct (dp_best_of (S l) e) as [_ [Hnone|(s & Hs & Hs3 & Hacc & _)]];
      [lia|lia|rewrite Hnone; now left|].
    right. rewrite Hacc. simpl. lia.
Qed.

End RecurrenceFacts.

(** The recurrence depends on the costs only. *)
Lemma dp_ext (r1 r2 : nat -> nat -> Q) :
  (forall s e, r1 s e = r2 s e) -> forall l e, dp r1 l e = dp r2 l e.
Proof.
  intros Hr. induction l as [|l IH]; intros e; simpl; [reflexivity|].
  destruct (e <? S l); [reflexivity|]. unfold scan.
  generalize (Inf, (-1)%Z). generalize (seq 0 (e - S l + 1)).
  induction l0 as [|s starts IHs]; intros acc; simpl; [reflexivity|].
  rewrite IHs. f_equal. unfold cand_step. now rewrite IH, Hr.
Qed.

Lemma walk_fun_ext (f g : nat -> nat -> Z) (n : nat) (layers : list nat) :
  (forall e l, f e l = g e l) ->
  forall current, walk_fun f n current layers = walk_fun g n current layers.
Proof.
  intros Hfg. induction layers as [|i layers IH]; intros current; simpl; [reflexivity|].
  now rewrite Hfg, IH.
Qed.

Lemma path_fun_ext (f g : nat -> nat -> Z) (n k : nat) :
  (forall e l, f e l = g e l) -> path_fun f n k = path_fun g n k.
Proof.
  intros Hfg. unfold path_fun. now rewrite Hfg, (walk_fun_ext f g).
Qed.

(** ** The slices that the fits read *)

Lemma np_range_length (s e : nat) : length (np_range s e) = e - s.
Proof. unfold np_range. now rewrite length_map, length_seq. Qed.

Lemma slice_length {A : Type} (s e : nat) (l : list A) :
  e <= length l -> length (slice s e l) = e - s.
Proof. intros He. unfold slice. rewrite length_take, length_drop. lia. Qed.

(** On a range within the signal that is not empty, [np.polyfit] and the
    subtraction [y - parab(x)] do not raise. *)
Lemma polyfit_in_signal (d : list Q) (s e : nat) :
  s < e -> e <= length d ->
  polyfit_raises (length (np_range s e)) (length (slice s e d)) = false.
Proof.
  intros Hse He. rewrite np_range_length, slice_length by exact He.
  unfold polyfit_raises. rewrite Nat.eqb_refl.
  destruct (Nat.eqb_spec (e - s) 0); [lia|reflexivity].
Qed.

Lemma broadcasts_in_signal (d : list Q) (s e : nat) :
  e <= length d ->
  broadcasts (length (slice s e d)) (length (np_range s e)) = true.
Proof.
  intros He. rewrite np_range_length, slice_length by exact He.
  unfold broadcasts. now rewrite Nat.eqb_refl.
Qed.

(** ** The code of [segment] computes the recurrence *)

Section PartitionFacts.

Variable parab : Type.
Variable polyfit2 : list Z -> list Q -> parab.
Variable sum_sq : list Q -> list Z -> parab -> Q.

Local Abbreviation caches := (caches parab).
Local Abbreviation residual := (residual parab polyfit2 sum_sq).
Local Abbreviation generate_parab := (generate_parab parab polyfit2).
Local Abbreviation MSE := (MSE parab sum_sq).
Local Abbreviation start_step := (start_step parab polyfit2 sum_sq).
Local Abbreviation end_step := (end_step parab polyfit2 sum_sq).
Local Abbreviation length_step := (length_step parab polyfit2 sum_sq).
Local Abbreviation segment_tables := (segment_tables parab polyfit2 sum_sq).
Local Abbreviation segment := (segment parab polyfit2 sum_sq).
Local Abbreviation cached := (cached parab).
Local Abbreviation fits_ready := (fits_ready parab).

Lemma fits_in_signal (n : nat) (d : list Q) (st : caches) :
  n <= length d -> fits_ready n d st.
Proof. intros Hn s e _ He. left. lia. Qed.

Lemma fits_whole_signal (n : nat) (d : list Q) (st : caches) :
  length d = n -> fits_ready n d st.
Proof. intros Hn. apply fits_in_signal. lia. Qed.

Lemma fits_when_cached (n : nat) (d : list Q) (st : caches) :
  (forall s e, s + 3 <= e -> e <= n -> cached (s, e) st) -> fits_ready n d st.
Proof. intros Hall s e Hs He. right. now apply Hall. Qed.

Lemma fits_ready_mono (n : nat) (d : list Q) (st st' : caches) :
  (forall key, cached key st -> cached key st') ->
  fits_ready n d st -> fits_ready n d st'.
Proof.
  intros Hmono Hst s e Hs He. destruct (Hst s e Hs He) as [Hin|Hc]; [now left|].
  right. now apply Hmono.
Qed.

(** On a range that is not empty and lies within the signal, or that
    both dictionaries hold, a fit followed by its residual does not
    raise: it returns [residual], leaves [residual] as it was for every
    key, and removes no entry. *)
Lemma residual_run (st : caches) (d : list Q) (s e : nat) :
  s < e -> e <= length d \/ cached (s, e) st ->
  exists p st1 st2,
    generate_parab s e d st = Some (p, st1) /\
    MSE s e d p st1 = Some (residual st d s e, st2) /\
    (forall s' e', residual st2 d s' e' = residual st d s' e') /\
    (forall key, cached key st -> cached key st2).
Proof.
  intros Hse Hok.
  assert (Hmiss : parabola_cache parab st !! (s, e) = None \/
                  mse_cache parab st !! (s, e) = None ->
                  polyfit_raises (length (np_range s e)) (length (slice s e d)) = false /\
                  broadcasts (length (slice s e d)) (length (np_range s e)) = true).
  { intros Hnone.
    assert (He : e <= length d).
    { destruct Hok as [He|[[p Hp] [v Hv]]]; [exact He|].
      destruct Hnone; congruence. }
    split; [now apply polyfit_in_signal|now apply broadcasts_in_signal]. }
  unfold generate_parab, MSE, residual, cached.
  destruct (parabola_cache parab st !! (s, e)) as [p|] eqn:Hp;
    destruct (mse_cache parab st !! (s, e)) as [v|] eqn:Hv; simpl.
  - exists p, st, st. rewrite Hv. auto.
  - destruct Hmiss as [_ Hsub]; [now right|]. rewrite Hsub.
    eexists p, st, _. rewrite Hv. split; [reflexivity|]. split; [reflexivity|]. split.
    + intros s' e'. simpl.
      destruct (decide ((s, e) = (s', e'))) as [Heq|Hne].
      * inversion Heq; subst. rewrite lookup_insert_eq, Hv, Hp. reflexivity.
      * rewrite lookup_insert_ne by exact Hne. reflexivity.
    + intros key [Hkp Hkv]. simpl. split; [exact Hkp|].
      apply lookup_insert_is_Some'. now right.
  - destruct Hmiss as [Hfit _]; [now left|]. rewrite Hfit.
    eexists _, _, _. split; [reflexivity|]. simpl. rewrite Hv.
    split; [reflexivity|]. split.
    + intros s' e'. simpl.
      destruct (decide ((s, e) = (s', e'))) as [Heq|Hne].
      * inversion Heq; subst. now rewrite Hv.
      * rewrite lookup_insert_ne by exact Hne. reflexivity.
    + intros key [Hkp Hkv]. simpl. split; [|exact Hkv].
      apply lookup_insert_is_Some'. now right.
  - destruct Hmiss as [Hfit Hsub]; [now left|]. rewrite Hfit, Hsub.
    eexists _, _, _. split; [reflexivity|]. simpl. rewrite Hv.
    split; [reflexivity|]. split.
    + intros s' e'. simpl.
      destruct (decide ((s, e) = (s', e'))) as [Heq|Hne].
      * inversion Heq; subst. rewrite lookup_insert_eq, Hv, Hp. reflexivity.
      * rewrite !lookup_insert_ne by exact Hne. reflexivity.
    + intros key [Hkp Hkv]. simpl.
      split; apply lookup_insert_is_Some'; now right.
Qed.

Section Run.

Variable d : list Q.
Variable r : nat -> nat -> Q.

Local Abbreviation agrees := (agrees parab polyfit2 sum_sq d r).

(** What the loops of a call with [n] keep true of the dictionaries. *)
Local Abbreviation inv n st := (agrees st /\ fits_ready n d st).

Lemma start_step_run (n l e : nat) (D : table cost) (prev : nat -> cost)
    (acc : cost * Z) (s : nat) (st : caches) :
  e <= n ->
  get2 D (Z.of_nat s) (Z.of_nat l - 1) = Some (prev s) ->
  inv n st ->
  exists st', start_step l e d D acc s st = Some (cand_step r prev e acc s, st') /\
              inv n st'.
Proof.
  intros He Hget [Hst Hfits]. unfold start_step, cand_step.
  destruct (Nat.ltb_spec (e - s) 3) as [Hshort|Hlong];
    [exists st; split; [reflexivity|split; [exact Hst|exact Hfits]]|].
  destruct (residual_run st d s e) as (p & st1 & st2 & Hgp & Hmse & Hres & Hkeep);
    [lia|apply Hfits; lia|].
  unfold bind. rewrite Hgp, Hmse. unfold lift. rewrite Hget.
  rewrite (Hst s e).
  exists st2. split; [|split].
  - destruct (cltb _ _); reflexivity.
  - intros s' e'. rewrite Hres. apply Hst.
  - exact (fits_ready_mono n d st st2 Hkeep Hfits).
Qed.

Lemma start_loop_run (n l e : nat) (D : table cost) (prev : nat -> cost)
    (starts : list nat) :
  e <= n ->
  (forall s, In s starts -> get2 D (Z.of_nat s) (Z.of_nat l - 1) = Some (prev s)) ->
  forall (acc : cost * Z) (st : caches),
  inv n st ->
  exists st', foldM parab (start_step l e d D) acc starts st
                = Some (fold_left (cand_step r prev e) starts acc, st') /\
              inv n st'.
Proof.
  intros He. induction starts as [|s starts IH]; intros Hget acc st Hst.
  - exists st. split; [reflexivity|exact Hst].
  - destruct (start_step_run n l e D prev acc s st) as (st1 & Hrun & Hst1);
      [exact He | apply Hget; now left | exact Hst |].
    destruct (IH (fun s' Hs' => Hget s' (or_intror Hs')) (cand_step r prev e acc s) st1 Hst1)
      as (st2 & Hrun2 & Hst2).
    exists st2. split; [|exact Hst2].
    simpl. unfold bind at 1. rewrite Hrun. exact Hrun2.
Qed.

Local Abbreviation tables_at := (tables_at r).

Ltac cases :=
  repeat match goal with
  | |- context [?a <? ?b] => destruct (Nat.ltb_spec a b)
  | |- context [?a =? ?b] => destruct (Nat.eqb_spec a b)
  end; simpl; try reflexivity; try lia.

Lemma dp_step (l e : nat) :
  1 <= l -> l <= e ->
  dp r l e = scan r (fun s => fst (dp r (l - 1) s)) e (seq 0 (e - l + 1)).
Proof.
  intros Hl Hle. destruct l as [|l]; [lia|]. simpl.
  destruct (Nat.ltb_spec e (S l)); [lia|].
  now rewrite Nat.sub_0_r.
Qed.

Lemma progress_next (n k l e e' l' : nat) :
  upd (progress r l e) e l (dp r l e) e' l' = progress r l (e + 1) e' l'.
Proof.
  unfold upd, progress, filled.
  destruct (Nat.eqb_spec e' e) as [->|Hne]; simpl.
  - destruct (Nat.eqb_spec l' l) as [->|Hnl]; simpl.
    + cases.
    + cases.
  - cases.
Qed.

(** The tables have [n + 1] rows; the fits are ready up to the end [b]. *)
Lemma end_step_run (n k b l e : nat) (D : table cost) (P : table Z) (st : caches) :
  1 <= l -> l <= k -> l <= e -> e <= n -> e <= b ->
  tables_at n k l e D P -> inv b st ->
  exists D' P' st',
    end_step l d (D, P) e st = Some ((D', P'), st') /\
    tables_at n k l (e + 1) D' P' /\ inv b st'.
Proof.
  intros Hl Hlk Hle Hen Heb [HD HP] Hst.
  destruct (start_loop_run b l e D (fun s => fst (dp r (l - 1) s)) (seq 0 (e - l + 1)))
    with (acc := (Inf, (-1)%Z)) (st := st) as (st1 & Hloop & Hst1).
  - exact Heb.
  - intros s Hs. apply in_seq in Hs.
    replace (Z.of_nat l - 1)%Z with (Z.of_nat (l - 1)) by lia.
    rewrite (tab_is_get _ _ _ _ s (l - 1) HD) by lia.
    unfold progress, filled.
    destruct (Nat.ltb_spec (l - 1) l); [reflexivity|lia].
  - exact Hst.
  - fold (scan r (fun s => fst (dp r (l - 1) s)) e (seq 0 (e - l + 1))) in Hloop.
    rewrite <- dp_step in Hloop by lia.
    destruct (tab_is_set _ _ _ _ e l (fst (dp r l e)) HD) as (D' & HsetD & HD'); [lia|lia|].
    destruct (tab_is_set _ _ _ _ e l (snd (dp r l e)) HP) as (P' & HsetP & HP'); [lia|lia|].
    exists D', P', st1. split; [|split; [split|exact Hst1]].
    + unfold end_step, bind. simpl fst. simpl snd. rewrite Hloop.
      unfold lift. rewrite HsetD, HsetP. reflexivity.
    + eapply tab_is_ext; [exact HD'|]. intros i j _ _.
      rewrite <- (progress_next n k). unfold upd. now destruct (_ && _).
    + eapply tab_is_ext; [exact HP'|]. intros i j _ _.
      rewrite <- (progress_next n k). unfold upd. now destruct (_ && _).
Qed.

Lemma end_loop_run (n k b l : nat) :
  1 <= l -> l <= k ->
  forall (m e : nat) (D : table cost) (P : table Z) (st : caches),
  l <= e -> e + m <= n + 1 -> e + m <= b + 1 ->
  tables_at n k l e D P -> inv b st ->
  exists D' P' st',
    foldM parab (end_step l d) (D, P) (seq e m) st = Some ((D', P'), st') /\
    tables_at n k l (e + m) D' P' /\ inv b st'.
Proof.
  intros Hl Hlk. induction m as [|m IH]; intros e D P st Hle Hem Hemb Hinv Hst.
  - exists D, P, st. rewrite Nat.add_0_r. auto.
  - destruct (end_step_run n k b l e D P st) as (D1 & P1 & st1 & Hrun & Hinv1 & Hst1);
      try assumption; try lia.
    destruct (IH (S e) D1 P1 st1) as (D2 & P2 & st2 & Hrun2 & Hinv2 & Hst2);
      try assumption; try lia.
    { now replace (S e) with (e + 1) by lia. }
    exists D2, P2, st2. split; [|split; [|exact Hst2]].
    + simpl. unfold bind at 1. rewrite Hrun. exact Hrun2.
    + now replace (e + S m) with (S e + m) by lia.
Qed.

Lemma progress_layer (n l e e' l' : nat) :
  n + 1 <= e -> e' <= n ->
  progress r l e e' l' = progress r (l + 1) (l + 1) e' l'.
Proof.
  intros He He'. unfold progress, filled.
  destruct (Nat.lt_total l' l) as [Hlt|[->|Hgt]].
  - cases.
  - cases.
  - destruct (Nat.eq_dec l' (l + 1)) as [->|Hne].
    + destruct (Nat.ltb_spec e' (l + 1)).
      * rewrite dp_unwritten by lia. cases.
      * cases.
    + cases.
Qed.

Lemma length_step_run (n k l : nat) (D : table cost) (P : table Z) (st : caches) :
  1 <= l -> l <= k ->
  tables_at n k l l D P -> inv n st ->
  exists D' P' st',
    length_step n d (D, P) l st = Some ((D', P'), st') /\
    tables_at n k (l + 1) (l + 1) D' P' /\ inv n st'.
Proof.
  intros Hl Hlk Hinv Hst.
  destruct (Nat.le_gt_cases l (n + 1)) as [Hin|Hout].
  - destruct (end_loop_run n k n l Hl Hlk (n + 1 - l) l D P st)
      as (D' & P' & st' & Hrun & [HD HP] & Hst'); try assumption; try lia.
    exists D', P', st'. split; [exact Hrun|]. split; [|exact Hst'].
    split; (eapply tab_is_ext; [eassumption|]); intros i j Hi Hj; simpl;
      now rewrite (progress_layer n l) by lia.
  - exists D, P, st. split; [|split; [|exact Hst]].
    + unfold length_step. replace (n + 1 - l) with 0 by lia. reflexivity.
    + destruct Hinv as [HD HP].
      split; (eapply tab_is_ext; [eassumption|]); intros i j Hi Hj; simpl;
        now rewrite (progress_layer n l) by lia.
Qed.

Lemma length_loop_run (n k : nat) :
  forall (m l : nat) (D : table cost) (P : table Z) (st : caches),
  1 <= l -> l + m <= k + 1 ->
  tables_at n k l l D P -> inv n st ->
  exists D' P' st',
    foldM parab (length_step n d) (D, P) (seq l m) st = Some ((D', P'), st') /\
    tables_at n k (l + m) (l + m) D' P' /\ inv n st'.
Proof.
  induction m as [|m IH]; intros l D P st Hl Hlm Hinv Hst.
  - exists D, P, st. rewrite Nat.add_0_r. auto.
  - destruct (length_step_run n k l D P st) as (D1 & P1 & st1 & Hrun & Hinv1 & Hst1);
      try assumption; try lia.
    destruct (IH (l + 1) D1 P1 st1) as (D2 & P2 & st2 & Hrun2 & Hinv2 & Hst2);
      try assumption; try lia.
    exists D2, P2, st2. split; [|split; [|exact Hst2]].
    + simpl. unfold bind at 1. rewrite Hrun.
      now replace (S l) with (l + 1) by lia.
    + now replace (l + S m) with (l + 1 + m) by lia.
Qed.

(** The tables when the loops start. *)
Lemma initial_tables (n k : nat) :
  exists D0,
    set2 (np_full (n + 1) (k + 1) Inf) 0 0 (Fin 0) = Some D0 /\
    tables_at n k 1 1 D0 (np_full (n + 1) (k + 1) (-1)%Z).
Proof.
  destruct (tab_is_set (n + 1) (k + 1) _ _ 0 0 (Fin 0) (tab_is_full (n + 1) (k + 1) Inf))
    as (D0 & Hset & HD0); [lia|lia|].
  exists D0. split; [exact Hset|]. split.
  - eapply tab_is_ext; [exact HD0|]. intros i j Hi Hj.
    unfold upd, progress, filled.
    destruct j as [|[|j]]; destruct i as [|i]; reflexivity.
  - eapply tab_is_ext; [apply tab_is_full|]. intros i j Hi Hj.
    unfold progress, filled.
    destruct j as [|[|j]]; destruct i as [|i]; reflexivity.
Qed.

End Run.

(** When every range is within the signal or in the dictionaries, the
    loops of [segment] do not raise, and fill [D] and [P] with the
    recurrence [dp] over the costs [residual st d] that the dictionaries
    give on entry. *)
Lemma segment_tables_run (n k : nat) (d : list Q) (st : caches) :
  fits_ready n d st ->
  exists D P st',
    segment_tables n k d st = Some ((D, P), st') /\
    tab_is (n + 1) (k + 1) D (fun e l => dpD (residual st d) l e) /\
    tab_is (n + 1) (k + 1) P (fun e l => dpP (residual st d) l e) /\
    agrees parab polyfit2 sum_sq d (residual st d) st'.
Proof.
  intros Hfits. set (r := residual st d).
  destruct (initial_tables r n k) as (D0 & Hset & Hinit).
  destruct (length_loop_run d r n k k 1 D0 (np_full (n + 1) (k + 1) (-1)%Z) st)
    as (D & P & st' & Hrun & [HD HP] & [Hst' _]); try lia.
  - exact Hinit.
  - split; [intros s e; reflexivity|exact Hfits].
  - exists D, P, st'. split; [|split; [|split; [|exact Hst']]].
    + unfold segment_tables, bind, lift.
      change (Z.of_nat 0) with 0%Z in Hset. rewrite Hset. exact Hrun.
    + eapply tab_is_ext; [exact HD|]. intros i j Hi Hj. unfold progress, filled, dpD.
      destruct (Nat.ltb_spec j (1 + k)); [reflexivity|lia].
    + eapply tab_is_ext; [exact HP|]. intros i j Hi Hj. unfold progress, filled, dpP.
      destruct (Nat.ltb_spec j (1 + k)); [reflexivity|lia].
Qed.

Lemma dpP_in_table (r : nat -> nat -> Q) (n e l : nat) :
  e <= n -> (-1 <= dpP r l e <= Z.of_nat n)%Z.
Proof. intros He. destruct (dpP_range r l e); lia. Qed.

(** Such a call of [segment] does not raise: it fills the tables with
    the recurrence and returns the [k] entries of the walk. *)
Lemma segment_run (n k : nat) (d : list Q) (st : caches) :
  fits_ready n d st ->
  exists D P st',
    segment_tables n k d st = Some ((D, P), st') /\
    segment n k d st = Some (path_fun (fun e l => dpP (residual st d) l e) n k, st') /\
    tab_is (n + 1) (k + 1) D (fun e l => dpD (residual st d) l e) /\
    tab_is (n + 1) (k + 1) P (fun e l => dpP (residual st d) l e) /\
    agrees parab polyfit2 sum_sq d (residual st d) st'.
Proof.
  intros Hfits.
  destruct (segment_tables_run n k d st Hfits) as (D & P & st' & Hrun & HD & HP & Hst').
  exists D, P, st'. split; [exact Hrun|]. split; [|split; [exact HD|split; [exact HP|exact Hst']]].
  unfold segment, bind. rewrite Hrun. simpl. unfold lift.
  rewrite (reconstruct_run n k P _ HP); [reflexivity|].
  intros e l He _. now apply dpP_in_table.
Qed.

(** The recurrence, read off the tables that the code returns: for a
    layer [l] in [1..k] and an end [e] in [l..n], [(D[e][l], P[e][l])]
    is the first minimum of [D[s][l-1] + residual(s, e)] over the starts
    [s <= e - l] that leave at least three points. *)
Lemma segment_tables_recurrence (n k : nat) (d : list Q) (st : caches) (l e : nat) :
  length d = n -> 1 <= l -> l <= k -> l <= e -> e <= n ->
  exists D P st' c i (prev : nat -> cost),
    segment_tables n k d st = Some ((D, P), st') /\
    get2 D (Z.of_nat e) (Z.of_nat l) = Some c /\
    get2 P (Z.of_nat e) (Z.of_nat l) = Some i /\
    (forall s, s <= e - l -> get2 D (Z.of_nat s) (Z.of_nat l - 1) = Some (prev s)) /\
    best_of (residual st d) prev e (e - l + 1) (c, i).
Proof.
  intros Hlen Hl Hlk Hle Hen.
  destruct (segment_run n k d st (fits_whole_signal n d st Hlen))
    as (D & P & st' & Hrun & _ & HD & HP & _).
  exists D, P, st', (dpD (residual st d) l e), (dpP (residual st d) l e),
    (dpD (residual st d) (l - 1)).
  split; [exact Hrun|]. split; [|split; [|split]].
  - apply (tab_is_get _ _ _ _ e l HD); lia.
  - apply (tab_is_get _ _ _ _ e l HP); lia.
  - intros s Hs. replace (Z.of_nat l - 1)%Z with (Z.of_nat (l - 1)) by lia.
    apply (tab_is_get _ _ _ _ s (l - 1) HD); lia.
  - pose proof (dp_best_of (residual st d) l e Hl Hle) as Hbest.
    now rewrite (surjective_pairing (dp (residual st d) l e)) in Hbest.
Qed.

(** C2 (amended). [segment] has no failure path: for every [n], [k] and
    signal of length [n] it returns a list of [k] entries.  Whenever
    [n < 3k], [D[n][k]] is still [+inf] and [P[n][k]] is still [-1]
    after the loops, and the call returns all the same: the last entry
    of the returned list is then [-2]. *)
Theorem segment_never_fails (n k : nat) (d : list Q) (st : caches) :
  length d = n ->
  exists D P path st',
    segment_tables n k d st = Some ((D, P), st') /\
    segment n k d st = Some (path, st') /\
    length path = k /\
    (n < 3 * k ->
       get2 D (Z.of_nat n) (Z.of_nat k) = Some Inf /\
       get2 P (Z.of_nat n) (Z.of_nat k) = Some (-1)%Z /\
       last path = Some (-2)%Z).
Proof.
  intros Hlen.
  destruct (segment_run n k d st (fits_whole_signal n d st Hlen)) as (D & P & st' & Hrun & Hseg & HD & HP & _).
  eexists D, P, _, st'. split; [exact Hrun|]. split; [exact Hseg|].
  split; [apply path_fun_length|].
  intros Hlt.
  rewrite (tab_is_get _ _ _ _ n k HD), (tab_is_get _ _ _ _ n k HP) by lia.
  rewrite path_fun_last by lia.
  unfold dpD, dpP. rewrite dp_infeasible by exact Hlt. auto.
Qed.

(** C3 (amended). For every call [segment(n, k, signal)] the returned
    path has exactly [k] entries (one per layer), each of them a value
    read from [P] and decremented by one, hence [-2] or in
    [[-1, n - 4]]; the list is reversed at the end, so that its last
    entry is the first one appended, [P[n][k] - 1]. *)
Theorem segment_path_shape (n k : nat) (d : list Q) (st : caches) :
  length d = n ->
  exists D P path st',
    segment_tables n k d st = Some ((D, P), st') /\
    segment n k d st = Some (path, st') /\
    length path = k /\
    Forall (fun x => x = (-2)%Z \/ (-1 <= x <= Z.of_nat n - 4)%Z) path /\
    (1 <= k ->
       exists c, get2 P (Z.of_nat n) (Z.of_nat k) = Some c /\
                 last path = Some (c - 1)%Z).
Proof.
  intros Hlen.
  destruct (segment_run n k d st (fits_whole_signal n d st Hlen)) as (D & P & st' & Hrun & Hseg & HD & HP & _).
  eexists D, P, _, st'. split; [exact Hrun|]. split; [exact Hseg|].
  split; [apply path_fun_length|]. split.
  - apply path_fun_Forall. intros e l He.
    destruct (dpP_range (residual st d) l e); lia.
  - intros Hk. eexists. split; [apply (tab_is_get _ _ _ _ n k HP); lia|].
    rewrite path_fun_last by exact Hk. reflexivity.
Qed.

(** C4 (the code at the failing input). On every signal of [6] points
    and [k = 2], [D[6][2]] is finite and [P[6][2] = 3], the partition
    into two segments of three points; but the walk reads [P[3][2]]
    (layer 2 again, which is [-1]) where the predecessor is [P[3][1] = 0],
    and [segment] returns [[-2; 2]] and not [[-1; 2]]. *)
Theorem segment_six_points_two_segments (d : list Q) (st : caches) :
  length d = 6 ->
  exists D P v st',
    segment_tables 6 2 d st = Some ((D, P), st') /\
    get2 D 6 2 = Some (Fin v) /\
    get2 P 6 2 = Some 3%Z /\ get2 P 3 1 = Some 0%Z /\ get2 P 3 2 = Some (-1)%Z /\
    segment 6 2 d st = Some ([(-2)%Z; 2%Z], st').
Proof.
  intros Hlen.
  destruct (segment_run 6 2 d st (fits_whole_signal 6 d st Hlen)) as (D & P & st' & Hrun & Hseg & HD & HP & _).
  eexists D, P, _, st'. split; [exact Hrun|].
  split; [|split; [|split; [|split]]].
  - exact (tab_is_get _ _ _ _ 6 2 HD ltac:(lia) ltac:(lia)).
  - exact (tab_is_get _ _ _ _ 6 2 HP ltac:(lia) ltac:(lia)).
  - exact (tab_is_get _ _ _ _ 3 1 HP ltac:(lia) ltac:(lia)).
  - exact (tab_is_get _ _ _ _ 3 2 HP ltac:(lia) ltac:(lia)).
  - exact Hseg.
Qed.

(** C1 (the code at the failing input). On every signal of [12] points
    and [k = 4], the start [9] leaves three points before the end [12]
    of layer [4] ([9 < 12], [12 - 9 >= 3]) and
    [D[9][3] + residual(9, 12)] is finite, but the loop
    [for start in range(end - length + 1)] stops at [start = 8] and
    leaves [D[12][4] = +inf] and [P[12][4] = -1]. *)
Theorem segment_misses_start_nine (d : list Q) (st : caches) :
  length d = 12 ->
  exists D P c st',
    segment_tables 12 4 d st = Some ((D, P), st') /\
    get2 D 9 3 = Some c /\
    clt (cadd c (Fin (residual st d 9 12))) Inf /\
    get2 D 12 4 = Some Inf /\
    get2 P 12 4 = Some (-1)%Z.
Proof.
  intros Hlen.
  destruct (segment_run 12 4 d st (fits_whole_signal 12 d st Hlen)) as (D & P & st' & Hrun & Hseg & HD & HP & _).
  eexists D, P, _, st'. split; [exact Hrun|].
  split; [|split; [|split]].
  - exact (tab_is_get _ _ _ _ 9 3 HD ltac:(lia) ltac:(lia)).
  - exact I.
  - exact (tab_is_get _ _ _ _ 12 4 HD ltac:(lia) ltac:(lia)).
  - exact (tab_is_get _ _ _ _ 12 4 HP ltac:(lia) ltac:(lia)).
Qed.

Lemma cadd_mono (a b : cost) (q : Q) : cle a b -> cle (cadd a (Fin q)) (cadd b (Fin q)).
Proof. destruct a, b; simpl; try tauto. intros H. lra. Qed.

(** The path is a function of the costs that the dictionaries give on
    entry: two states of the dictionaries that give the same costs on
    [d] give the same path. *)
Lemma segment_path_agrees (n k : nat) (d : list Q) (st1 st2 : caches) :
  length d = n ->
  (forall s e, residual st1 d s e = residual st2 d s e) ->
  exists path st1' st2',
    segment n k d st1 = Some (path, st1') /\
    segment n k d st2 = Some (path, st2').
Proof.
  intros Hlen Hsame.
  destruct (segment_run n k d st1 (fits_whole_signal n d st1 Hlen))
    as (_ & _ & st1' & _ & Hseg1 & _).
  destruct (segment_run n k d st2 (fits_whole_signal n d st2 Hlen))
    as (_ & _ & st2' & _ & Hseg2 & _).
  eexists _, st1', st2'. split; [exact Hseg1|].
  rewrite Hseg2. do 2 f_equal. apply path_fun_ext.
  intros e l. unfold dpP. f_equal. apply dp_ext. intros s e'. symmetry. apply Hsame.
Qed.

(** A call leaves in the dictionaries the costs that it used: the same
    call again, with no call on another signal in between, returns the
    same path, whatever the dictionaries held before. *)
Lemma segment_repeatable (n k : nat) (d : list Q) (st : caches) :
  length d = n ->
  exists path st1 st2,
    segment n k d st = Some (path, st1) /\
    segment n k d st1 = Some (path, st2).
Proof.
  intros Hlen.
  destruct (segment_run n k d st (fits_whole_signal n d st Hlen))
    as (_ & _ & st1 & _ & Hseg & _ & _ & Hst1).
  destruct (segment_path_agrees n k d st st1 Hlen) as (path & st1' & st2 & Hfirst & Hsecond).
  - intros s e. symmetry. apply Hst1.
  - rewrite Hseg in Hfirst. injection Hfirst as <- <-.
    eexists _, st1, st2. split; [exact Hseg|exact Hsecond].
Qed.

End PartitionFacts.

(** ** The code on concrete signals, with exact least squares *)

(** C2 (counterexample). Two points cannot be cut into one segment of
    three points ([2 < 3 * 1]), and the call does not fail: it returns
    the list [[-2]]. *)
Lemma infeasible_call_returns_a_path :
  ExactFit.one_call 2 1 [0; 1]%Q = Some [(-2)%Z] /\
  ~ (ExactFit.one_call 2 1 [0; 1]%Q = None <-> 2 < 3 * 1).
Proof.
  split; [vm_compute; reflexivity|].
  intros [_ Hfail]. specialize (Hfail ltac:(lia)).
  vm_compute in Hfail. discriminate.
Qed.

(** C3 (counterexample). The feasible call on the three points
    [0, 1, 4] with [k = 1] returns [[-1]]: one entry and not [k - 1 = 0],
    and the entry is not an index of the signal. *)
Lemma one_segment_path_has_one_entry :
  exists path,
    ExactFit.one_call 3 1 [0; 1; 4]%Q = Some path /\
    length path <> 1 - 1 /\
    Exists (fun x => ~ (0 <= x < 3)%Z) path.
Proof.
  exists [(-1)%Z]. split; [vm_compute; reflexivity|].
  split; [discriminate|]. constructor. lia.
Qed.

(** The exact fit recovers a parabola, with residual [0]. *)
Example exact_fit_of_a_parabola :
  ExactFit.polyfit2 [0; 1; 2; 3]%Z [0; 1; 4; 9]%Q = (1, 0, 0)%Q /\
  ExactFit.sum_sq [0; 1; 4; 9]%Q [0; 1; 2; 3]%Z (1, 0, 0)%Q = 0%Q.
Proof. split; vm_compute; reflexivity. Qed.

(** The residuals of the ranges [(0,3)], [(3,7)], [(0,4)], [(4,7)] on
    the signals [A = 0, 0, 0, 0, 1, 0, 0] and [B = 0, 0, 1, 0, 0, 0, 0]. *)
Example residuals_of_the_two_signals :
  map (fun se => ExactFit.residual ExactFit.start_caches [0; 0; 0; 0; 1; 0; 0]%Q
                   (fst se) (snd se)) [(0, 3); (3, 7); (0, 4); (4, 7)]
    = [0; 9 # 20; 0; 0]%Q /\
  map (fun se => ExactFit.residual ExactFit.start_caches [0; 0; 1; 0; 0; 0; 0]%Q
                   (fst se) (snd se)) [(0, 3); (3, 7); (0, 4); (4, 7)]
    = [0; 0; 9 # 20; 0]%Q.
Proof. split; vm_compute; reflexivity. Qed.

(** C5 (the code at the failing input). The signal
    [B = 0, 0, 1, 0, 0, 0, 0] with [k = 2]: in a fresh process [segment]
    returns [[-2; 2]]; after a call on [A = 0, 0, 0, 0, 1, 0, 0] in the
    same process, the same call on [B] finds the residuals of [A] in the
    dictionaries under the keys [(0, 3)], [(3, 7)], [(0, 4)], [(4, 7)]
    and returns [[-2; 3]]. *)
Theorem segment_depends_on_earlier_calls :
  ExactFit.one_call 7 2 [0; 0; 1; 0; 0; 0; 0]%Q = Some [(-2)%Z; 2%Z] /\
  ExactFit.two_calls 7 2 [0; 0; 0; 0; 1; 0; 0]%Q 7 2 [0; 0; 1; 0; 0; 0; 0]%Q
    = Some ([(-2)%Z; 3%Z], [(-2)%Z; 3%Z]).
Proof. split; vm_compute; reflexivity. Qed.

(** C6 (the code at the failing input). The thirteen points
    [0, 0, 0, 0, 0, 0, 0, 0, 0, 0, 1, 0, 1] can be cut into four
    segments that parabolas fit exactly, [[0, 4)], [[4, 7)], [[7, 10)],
    [[10, 13)], as they can be cut into three.  The loop
    [for start in range(end - length + 1)] of layer [4] stops at
    [start = 9], before the start [10] of that partition, and the code
    fills [D[13][3] = 0] and [D[13][4] = 4/5] with [P[13][4] = 9]:
    here [D[n][k+1] <= D[n][k]] fails for [k = 3], where both entries
    are finite. *)
Theorem four_segments_cost_more_than_three :
  let signal := [0; 0; 0; 0; 0; 0; 0; 0; 0; 0; 1; 0; 1]%Q in
  map (fun se => ExactFit.residual ExactFit.start_caches signal (fst se) (snd se))
      [(0, 4); (4, 7); (7, 10); (10, 13)] = [0; 0; 0; 0]%Q /\
  exists D P st,
    ExactFit.segment_tables 13 (3 + 1) signal ExactFit.start_caches = Some ((D, P), st) /\
    get2 D 13 3 = Some (Fin 0) /\
    get2 D 13 (3 + 1) = Some (Fin (4 # 5)) /\
    get2 P 13 (3 + 1) = Some 9%Z /\
    ~ cle (Fin (4 # 5)) (Fin 0).
Proof.
  intros signal. split; [vm_compute; reflexivity|].
  eexists _, _, _. split; [vm_compute; reflexivity|].
  split; [reflexivity|]. split; [reflexivity|]. split; [reflexivity|].
  simpl. intros H. apply Qle_bool_iff in H. vm_compute in H. discriminate.
Qed.

(** The twelve points of C1 again: three segments fit with total
    residual [167/35], four are not found although [12 = 3 * 4]. *)
Example twelve_points_three_and_four_segments :
  exists D P st,
    ExactFit.segment_tables 12 4 [0; 1; 0; 2; 0; 3; 0; 4; 0; 5; 0; 6]%Q ExactFit.start_caches
      = Some ((D, P), st) /\
    get2 D 12 3 = Some (Fin (167 # 35)) /\
    get2 D 12 4 = Some Inf.
Proof.
  eexists _, _, _. split; [vm_compute; reflexivity|]. split; reflexivity.
Qed.

(** ** The theorems at concrete inputs *)

Lemma segment_never_fails_witness :
  length [0; 1]%Q = 2 /\
  exists D P path st',
    ExactFit.segment_tables 2 1 [0; 1]%Q ExactFit.start_caches = Some ((D, P), st') /\
    ExactFit.segment 2 1 [0; 1]%Q ExactFit.start_caches = Some (path, st') /\
    length path = 1 /\
    2 < 3 * 1 /\
    get2 D 2 1 = Some Inf /\ get2 P 2 1 = Some (-1)%Z /\ last path = Some (-2)%Z.
Proof.
  split; [reflexivity|].
  destruct (segment_never_fails ExactFit.parab ExactFit.polyfit2 ExactFit.sum_sq
              2 1 [0; 1]%Q ExactFit.start_caches eq_refl)
    as (D & P & path & st' & Hrun & Hseg & Hlen & Hinf).
  exists D, P, path, st'. split; [exact Hrun|]. split; [exact Hseg|].
  split; [exact Hlen|]. split; [lia|]. apply Hinf. lia.
Defined.

Lemma segment_path_shape_witness :
  length [0; 1; 4]%Q = 3 /\
  exists D P path st',
    ExactFit.segment_tables 3 1 [0; 1; 4]%Q ExactFit.start_caches = Some ((D, P), st') /\
    ExactFit.segment 3 1 [0; 1; 4]%Q ExactFit.start_caches = Some (path, st') /\
    length path = 1 /\
    Forall (fun x => x = (-2)%Z \/ (-1 <= x <= 3 - 4)%Z) path /\
    1 <= 1 /\
    exists c, get2 P 3 1 = Some c /\ last path = Some (c - 1)%Z.
Proof.
  split; [reflexivity|].
  destruct (segment_path_shape ExactFit.parab ExactFit.polyfit2 ExactFit.sum_sq
              3 1 [0; 1; 4]%Q ExactFit.start_caches eq_refl)
    as (D & P & path & st' & Hrun & Hseg & Hlen & Hall & Hlast).
  exists D, P, path, st'. split; [exact Hrun|]. split; [exact Hseg|].
  split; [exact Hlen|]. split; [exact Hall|]. split; [lia|]. apply Hlast. lia.
Defined.

Lemma segment_six_points_two_segments_witness :
  length [0; 1; 0; 2; 0; 3]%Q = 6 /\
  exists D P v st',
    ExactFit.segment_tables 6 2 [0; 1; 0; 2; 0; 3]%Q ExactFit.start_caches = Some ((D, P), st') /\
    get2 D 6 2 = Some (Fin v) /\
    get2 P 6 2 = Some 3%Z /\ get2 P 3 1 = Some 0%Z /\ get2 P 3 2 = Some (-1)%Z /\
    ExactFit.segment 6 2 [0; 1; 0; 2; 0; 3]%Q ExactFit.start_caches = Some ([(-2)%Z; 2%Z], st').
Proof.
  split; [reflexivity|].
  apply (segment_six_points_two_segments ExactFit.parab ExactFit.polyfit2 ExactFit.sum_sq
           [0; 1; 0; 2; 0; 3]%Q ExactFit.start_caches). reflexivity.
Defined.

Lemma segment_misses_start_nine_witness :
  length [0; 1; 0; 2; 0; 3; 0; 4; 0; 5; 0; 6]%Q = 12 /\
  exists D P c st',
    ExactFit.segment_tables 12 4 [0; 1; 0; 2; 0; 3; 0; 4; 0; 5; 0; 6]%Q ExactFit.start_caches
      = Some ((D, P), st') /\
    get2 D 9 3 = Some c /\
    clt (cadd c (Fin (ExactFit.residual ExactFit.start_caches
                        [0; 1; 0; 2; 0; 3; 0; 4; 0; 5; 0; 6]%Q 9 12))) Inf /\
    get2 D 12 4 = Some Inf /\
    get2 P 12 4 = Some (-1)%Z.
Proof.
  split; [reflexivity|].
  apply (segment_misses_start_nine ExactFit.parab ExactFit.polyfit2 ExactFit.sum_sq
           [0; 1; 0; 2; 0; 3; 0; 4; 0; 5; 0; 6]%Q ExactFit.start_caches). reflexivity.
Defined.

(** ** The height estimator *)

Section Ransac.

Variable rng : nat -> nat.
Variable points : list point.
Variable threshold : Q.

Lemma ransac_loop_app (best : option Q * nat) (l1 l2 : list nat) :
  ransac_loop points threshold best (l1 ++ l2) =
  match ransac_loop points threshold best l1 with
  | Some best' => ransac_loop points threshold best' l2
  | None => None
  end.
Proof.
  revert best. induction l1 as [|u l1 IH]; intros best; simpl; [reflexivity|].
  destruct (ransac_step points threshold best u); [apply IH|reflexivity].
Qed.

Hypothesis points_nonempty : points <> [].

Lemma drawn_some (j : nat) : exists sample, drawn rng points j = Some sample /\ In sample points.
Proof.
  unfold drawn, choice.
  destruct (Nat.eqb_spec (length points) 0) as [Hz|Hnz].
  - destruct points; [congruence|discriminate].
  - pose proof (Nat.mod_upper_bound (rng j) (length points) Hnz) as Hlt.
    destruct (lookup_lt_is_Some_2 points _ Hlt) as [sample Hsample].
    exists sample. split; [exact Hsample|].
    apply list_elem_of_In. eapply list_elem_of_lookup_2. exact Hsample.
Qed.

Lemma ransac_step_run (best : option Q * nat) (j : nat) :
  ransac_step points threshold best (rng j) =
  Some (if snd best <? inliers_at rng points threshold j
        then (Some (sample_z_at rng points j), inliers_at rng points threshold j)
        else best).
Proof.
  unfold ransac_step, inliers_at, sample_z_at.
  destruct (drawn_some j) as (sample & Hdrawn & _).
  unfold drawn in *. destruct (choice (length points) (rng j)) as [i|]; [|discriminate].
  rewrite Hdrawn. now destruct (_ <? _).
Qed.

(** The loop never raises on a non-empty array, and keeps the first
    iteration among those with the largest count. *)
Lemma ransac_loop_first_best (m : nat) :
  exists best,
    ransac_loop points threshold (None, 0) (map rng (seq 0 m)) = Some best /\
    first_best rng points threshold m best.
Proof.
  induction m as [|m (best & Hrun & Hlow & Hbest)].
  - exists (None, 0). split; [reflexivity|]. split; [intros j Hj; lia|now left].
  - rewrite seq_S, map_app, ransac_loop_app, Hrun. simpl.
    rewrite ransac_step_run. eexists. split; [reflexivity|].
    destruct (Nat.ltb_spec (snd best) (inliers_at rng points threshold m)) as [Hbetter|Hnot].
    + split.
      * intros j Hj. simpl. destruct (Nat.eq_dec j m) as [->|Hne]; [lia|].
        specialize (Hlow j ltac:(lia)). lia.
      * right. exists m. repeat split; auto; try lia.
        intros j' Hj'. specialize (Hlow j' Hj'). lia.
    + split.
      * intros j Hj. destruct (Nat.eq_dec j m) as [->|Hne]; [lia|]. apply Hlow. lia.
      * destruct Hbest as [Hnone|(j & Hj & Hb & Hpos & Hfirst)]; [now left|].
        right. exists j. repeat split; auto; lia.
Qed.

Hypothesis threshold_pos : (0 < threshold)%Q.

(** The sampled point is an inlier of its own height. *)
Lemma inliers_at_pos (j : nat) : 1 <= inliers_at rng points threshold j.
Proof.
  unfold inliers_at, sample_z_at, count_inliers.
  destruct (drawn_some j) as (sample & -> & Hin).
  assert (Hkeep : In sample (List.filter
            (fun p => Qltb (Qabs (pz p - pz sample)) threshold) points)).
  { apply filter_In. split; [exact Hin|]. apply Qltb_lt.
    assert (Hz : (pz sample - pz sample == 0)%Q) by ring.
    rewrite Hz. exact threshold_pos. }
  destruct (List.filter _ points); [destruct Hkeep|simpl; lia].
Qed.

End Ransac.

Lemma ransac_z_fit_run (rng : nat -> nat) (points : list point)
    (iterations : nat) (threshold : Q) :
  points <> [] -> 1 <= iterations -> (0 < threshold)%Q ->
  exists j, j < iterations /\
    ransac_z_fit rng points iterations threshold
      = Some (Some (sample_z_at rng points j), inliers_at rng points threshold j) /\
    (forall j', j' < iterations ->
       inliers_at rng points threshold j' <= inliers_at rng points threshold j) /\
    (forall j', j' < j ->
       inliers_at rng points threshold j' < inliers_at rng points threshold j).
Proof.
  intros Hne Hit Hthr.
  destruct (ransac_loop_first_best rng points threshold Hne iterations)
    as (best & Hrun & Hlow & [Hnone|(j & Hj & Hb & _ & Hfirst)]).
  - exfalso. specialize (Hlow 0 ltac:(lia)). rewrite Hnone in Hlow. simpl in Hlow.
    pose proof (inliers_at_pos rng points threshold Hne Hthr 0). lia.
  - exists j. split; [exact Hj|]. unfold ransac_z_fit. rewrite Hrun, Hb.
    split; [reflexivity|]. split; [|exact Hfirst].
    intros j' Hj'. specialize (Hlow j' Hj'). now rewrite Hb in Hlow.
Qed.

(** C7. In every iteration a point is counted as an inlier exactly when
    the absolute difference between its z and the sampled z is strictly
    below [threshold]; and [ransac_z_fit] returns the sampled z and the
    count of the first iteration that reaches the largest count of all
    iterations: every iteration counts at most as many, and every earlier
    one strictly fewer, so a later equal count has not replaced it. *)
Theorem ransac_keeps_first_maximum (rng : nat -> nat) (points : list point)
    (iterations : nat) (threshold : Q) :
  points <> [] -> 1 <= iterations -> (0 < threshold)%Q ->
  (forall j, inliers_at rng points threshold j =
     length (List.filter
       (fun p => if Qlt_le_dec (Qabs (pz p - sample_z_at rng points j)) threshold
                 then true else false) points)) /\
  exists j, j < iterations /\
    ransac_z_fit rng points iterations threshold
      = Some (Some (sample_z_at rng points j), inliers_at rng points threshold j) /\
    (forall j', j' < iterations ->
       inliers_at rng points threshold j' <= inliers_at rng points threshold j) /\
    (forall j', j' < j ->
       inliers_at rng points threshold j' < inliers_at rng points threshold j).
Proof.
  intros Hne Hit Hthr. split; [|now apply ransac_z_fit_run].
  intros j. unfold inliers_at, count_inliers. f_equal.
  apply List.filter_ext. intros p.
  destruct (Qlt_le_dec (Qabs (pz p - sample_z_at rng points j)) threshold) as [Hlt|Hge].
  - now apply Qltb_lt.
  - destruct (Qltb _ _) eqn:Hb; [|reflexivity].
    apply Qltb_lt in Hb. exfalso. exact (Qlt_not_le _ _ Hb Hge).
Qed.

(** C8. On a non-empty array, with [iterations >= 1] and
    [threshold > 0], [ransac_z_fit] returns the z of a point that some
    iteration sampled, never [None], with an inlier count of at least 1. *)
Theorem ransac_returns_a_sampled_z (rng : nat -> nat) (points : list point)
    (iterations : nat) (threshold : Q) :
  points <> [] -> 1 <= iterations -> (0 < threshold)%Q ->
  exists j sample count,
    j < iterations /\
    drawn rng points j = Some sample /\ In sample points /\
    ransac_z_fit rng points iterations threshold = Some (Some (pz sample), count) /\
    1 <= count.
Proof.
  intros Hne Hit Hthr.
  destruct (ransac_z_fit_run rng points iterations threshold Hne Hit Hthr)
    as (j & Hj & Hrun & _).
  destruct (drawn_some rng points Hne j) as (sample & Hdrawn & Hin).
  exists j, sample, (inliers_at rng points threshold j).
  split; [exact Hj|]. split; [exact Hdrawn|]. split; [exact Hin|].
  split; [|now apply inliers_at_pos].
  rewrite Hrun. unfold sample_z_at. now rewrite Hdrawn.
Qed.

(** ** The box builder *)

Section Sorting.

Variable key : point -> Q.

Local Abbreviation key_le := (key_le key).

Lemma insert_by_In (p q : point) (l : list point) :
  In q (insert_by key p l) -> q = p \/ In q l.
Proof.
  induction l as [|a l IH]; simpl.
  - intros [<-|[]]. now left.
  - destruct (Qle_bool (key p) (key a)).
    + intros [<-|Hin]; [now left|now right].
    + intros [<-|Hin]; [right; now left|].
      destruct (IH Hin) as [->|Hl]; [now left|right; now right].
Qed.

Lemma insert_by_sorted (p : point) (l : list point) :
  StronglySorted key_le l -> StronglySorted key_le (insert_by key p l).
Proof.
  induction 1 as [|a l Hsorted IH Hall]; simpl.
  - repeat constructor.
  - destruct (Qle_bool (key p) (key a)) eqn:Hcmp.
    + apply Qle_bool_iff in Hcmp.
      constructor; [now constructor|].
      constructor; [exact Hcmp|].
      eapply List.Forall_impl; [|exact Hall].
      intros q Hq. unfold key_le in *. eapply Qle_trans; eassumption.
    + assert (Hap : key_le a p).
      { unfold key_le. apply Qlt_le_weak, Qnot_le_lt. intros Hle.
        apply Qle_bool_iff in Hle. congruence. }
      constructor; [exact IH|].
      apply List.Forall_forall. intros q Hq.
      destruct (insert_by_In p q l Hq) as [->|Hin]; [exact Hap|].
      rewrite List.Forall_forall in Hall. now apply Hall.
Qed.

Lemma sort_by_sorted (l : list point) : StronglySorted key_le (sort_by key l).
Proof.
  induction l as [|p l IH]; simpl; [constructor|now apply insert_by_sorted].
Qed.

Lemma insert_by_length (p : point) (l : list point) :
  length (insert_by key p l) = S (length l).
Proof.
  induction l as [|a l IH]; simpl; [reflexivity|].
  destruct (Qle_bool (key p) (key a)); simpl; [reflexivity|now rewrite IH].
Qed.

Lemma sort_by_length (l : list point) : length (sort_by key l) = length l.
Proof.
  induction l as [|p l IH]; simpl; [reflexivity|].
  now rewrite insert_by_length, IH.
Qed.

(** Four rows, sorted: the four rows in ascending order of [key]. *)
Lemma sort_by_four (l : list point) :
  length l = 4 ->
  exists s0 s1 s2 s3,
    sort_by key l = [s0; s1; s2; s3] /\
    (key s0 <= key s1)%Q /\ (key s1 <= key s2)%Q /\ (key s2 <= key s3)%Q.
Proof.
  intros Hlen. pose proof (sort_by_sorted l) as Hsorted.
  pose proof (sort_by_length l) as Hl. rewrite Hlen in Hl.
  destruct (sort_by key l) as [|s0 [|s1 [|s2 [|s3 [|s4 rest]]]]]; try discriminate.
  exists s0, s1, s2, s3. split; [reflexivity|].
  inversion Hsorted as [|? ? H1 F1]; subst.
  inversion H1 as [|? ? H2 F2]; subst.
  inversion H2 as [|? ? H3 F3]; subst.
  inversion F1; subst. inversion F2; subst. inversion F3; subst.
  unfold key_le in *. auto.
Qed.

End Sorting.

Lemma take_rows_run (points : list point) (path : list Z) :
  Forall (fun i => (- Z.of_nat (length points) <= i < Z.of_nat (length points))%Z) path ->
  exists rows, take_rows points path = Some rows /\ length rows = length path.
Proof.
  induction 1 as [|i path Hi Hall (rows & Hrows & Hlen)]; simpl.
  - exists []. auto.
  - assert (Hidx : exists j, np_index (length points) i = Some j /\ j < length points).
    { unfold np_index. destruct (Z.leb_spec 0 i).
      - destruct (Z.ltb_spec i (Z.of_nat (length points))); [|lia].
        eexists. split; [reflexivity|lia].
      - destruct (Z.leb_spec (- Z.of_nat (length points)) i); [|lia].
        eexists. split; [reflexivity|lia]. }
    destruct Hidx as (j & -> & Hj).
    destruct (lookup_lt_is_Some_2 points j Hj) as [p ->].
    rewrite Hrows. exists (p :: rows). simpl. auto.
Qed.

Lemma avg_le (a b c d : Q) : (a <= b)%Q -> (b <= c)%Q -> (c <= d)%Q -> (avg a b <= avg c d)%Q.
Proof.
  intros Hab Hbc Hcd. unfold avg.
  apply Qmult_le_compat_r; [lra|]. apply Qinv_le_0_compat. lra.
Qed.

(** C9. For every point set, every path of four valid indices and every
    pair of heights, the box has exactly eight vertices: the corners
    lower left, lower right, upper right, upper left (left [<=] right,
    lower [<=] upper) at [floor_z], then the same four corners in the same
    order at [ceiling_z]; vertex [i] and vertex [i + 4] have the same x
    and y. *)
Theorem bounding_box_vertices {H : Type} (points : list point) (path : list Z)
    (floor_z ceiling_z : H) :
  length path = 4 ->
  Forall (fun i => (- Z.of_nat (length points) <= i < Z.of_nat (length points))%Z) path ->
  exists left right lower upper,
    rectangle_3d points path floor_z ceiling_z =
      Some [ (left, lower, floor_z); (right, lower, floor_z);
             (right, upper, floor_z); (left, upper, floor_z);
             (left, lower, ceiling_z); (right, lower, ceiling_z);
             (right, upper, ceiling_z); (left, upper, ceiling_z) ] /\
    (left <= right)%Q /\ (lower <= upper)%Q.
Proof.
  intros Hlen Hvalid.
  destruct (take_rows_run points path Hvalid) as (rows & Hrows & Hrl).
  rewrite Hlen in Hrl.
  destruct (sort_by_four px rows Hrl) as (x0 & x1 & x2 & x3 & Hx & Hx01 & Hx12 & Hx23).
  destruct (sort_by_four py rows Hrl) as (y0 & y1 & y2 & y3 & Hy & Hy01 & Hy12 & Hy23).
  exists (avg (px x0) (px x1)), (avg (px x2) (px x3)),
         (avg (py y0) (py y1)), (avg (py y2) (py y3)).
  split; [|split; now apply avg_le].
  unfold rectangle_3d, rectangle. rewrite Hrows, Hx, Hy. reflexivity.
Qed.

(** ** The estimator and the builder at concrete inputs *)

Lemma ransac_keeps_first_maximum_witness :
  let points : list point := [(0, 0, 1); (0, 0, 5); (0, 0, 1); (0, 0, 5)]%Q in
  let rng : nat -> nat := fun j => j in
  points <> [] /\ 1 <= 4 /\ (0 < 1 # 2)%Q /\
  (forall j, inliers_at rng points (1 # 2) j =
     length (List.filter
       (fun p => if Qlt_le_dec (Qabs (pz p - sample_z_at rng points j)) (1 # 2)
                 then true else false) points)) /\
  exists j, j < 4 /\
    ransac_z_fit rng points 4 (1 # 2)
      = Some (Some (sample_z_at rng points j), inliers_at rng points (1 # 2) j) /\
    (forall j', j' < 4 ->
       inliers_at rng points (1 # 2) j' <= inliers_at rng points (1 # 2) j) /\
    (forall j', j' < j ->
       inliers_at rng points (1 # 2) j' < inliers_at rng points (1 # 2) j).
Proof.
  intros points rng.
  assert (Hne : points <> []) by discriminate.
  assert (Hthr : (0 < 1 # 2)%Q) by reflexivity.
  split; [exact Hne|]. split; [lia|]. split; [exact Hthr|].
  apply (ransac_keeps_first_maximum rng points 4 (1 # 2) Hne); [lia|exact Hthr].
Defined.

Lemma ransac_returns_a_sampled_z_witness :
  let points : list point := [(0, 0, 1); (0, 0, 5); (0, 0, 1); (0, 0, 5)]%Q in
  let rng : nat -> nat := fun j => j in
  points <> [] /\ 1 <= 4 /\ (0 < 1 # 2)%Q /\
  exists j sample count,
    j < 4 /\
    drawn rng points j = Some sample /\ In sample points /\
    ransac_z_fit rng points 4 (1 # 2) = Some (Some (pz sample), count) /\
    1 <= count.
Proof.
  intros points rng.
  assert (Hne : points <> []) by discriminate.
  assert (Hthr : (0 < 1 # 2)%Q) by reflexivity.
  split; [exact Hne|]. split; [lia|]. split; [exact Hthr|].
  apply (ransac_returns_a_sampled_z rng points 4 (1 # 2) Hne); [lia|exact Hthr].
Defined.

Lemma bounding_box_vertices_witness :
  let points : list point :=
    [(0, 0, 1); (4, 1, 2); (5, 6, 1); (1, 5, 3); (2, 2, 2)]%Q in
  let path : list Z := [(-1)%Z; 1%Z; 2%Z; 3%Z] in
  length path = 4 /\
  Forall (fun i => (- Z.of_nat (length points) <= i < Z.of_nat (length points))%Z) path /\
  exists left right lower upper,
    rectangle_3d points path 1%Q 3%Q =
      Some [ (left, lower, 1%Q); (right, lower, 1%Q);
             (right, upper, 1%Q); (left, upper, 1%Q);
             (left, lower, 3%Q); (right, lower, 3%Q);
             (right, upper, 3%Q); (left, upper, 3%Q) ] /\
    (left <= right)%Q /\ (lower <= upper)%Q.
Proof.
  intros points path.
  assert (Hvalid : Forall (fun i => (- Z.of_nat (length points) <= i
                                     < Z.of_nat (length points))%Z) path).
  { repeat constructor; simpl; lia. }
  split; [reflexivity|]. split; [exact Hvalid|].
  apply (bounding_box_vertices points path 1%Q 3%Q); [reflexivity|exact Hvalid].
Defined.


(** * More of the code *)

(** ** The recurrence reads the costs of ranges only *)

Lemma fold_left_ext_in {A B : Type} (f g : A -> B -> A) (l : list B) :
  (forall a b, In b l -> f a b = g a b) ->
  forall a, fold_left f l a = fold_left g l a.
Proof.
  induction l as [|b l IH]; intros Hfg a; simpl; [reflexivity|].
  rewrite Hfg by (now left). apply IH. intros a' b' Hb'. apply Hfg. now right.
Qed.

Lemma dp_ext_on (n : nat) (r1 r2 : nat -> nat -> Q) :
  (forall s e, s + 3 <= e -> e <= n -> r1 s e = r2 s e) ->
  forall l e, e <= n -> dp r1 l e = dp r2 l e.
Proof.
  intros Hr. induction l as [|l IH]; intros e He; simpl; [reflexivity|].
  destruct (e <? S l); [reflexivity|]. unfold scan.
  apply fold_left_ext_in. intros acc s Hs. apply in_seq in Hs.
  unfold cand_step. destruct (Nat.ltb_spec (e - s) 3); [reflexivity|].
  rewrite IH by lia. rewrite Hr by lia. reflexivity.
Qed.

Lemma walk_fun_ext_on (f g : nat -> nat -> Z) (n : nat) (layers : list nat) :
  (forall e l, e <= n -> f e l = g e l) ->
  forall current, walk_fun f n current layers = walk_fun g n current layers.
Proof.
  intros Hfg. induction layers as [|i layers IH]; intros current; simpl; [reflexivity|].
  rewrite Hfg by apply row_of_le. now rewrite IH.
Qed.

Lemma path_fun_ext_on (f g : nat -> nat -> Z) (n k : nat) :
  (forall e l, e <= n -> f e l = g e l) -> path_fun f n k = path_fun g n k.
Proof.
  intros Hfg. unfold path_fun. rewrite Hfg by lia. now rewrite (walk_fun_ext_on f g).
Qed.

(** ** What the tables hold *)

Section Optimum.

Variable r : nat -> nat -> Q.

(** [D[e][l]] is a lower bound of the cost of every admitted partition
    of [[0, e)] into [l] segments. *)
Lemma dp_lower_bound (cuts : list nat) :
  admitted cuts -> cle (dpD r (length cuts) (last_end cuts)) (Fin (cuts_cost r cuts)).
Proof.
  induction cuts as [|e rest IH]; intros Hadm.
  - unfold dpD. simpl. apply Qle_refl.
  - destruct Hadm as [Hlen Hrest]. specialize (IH Hrest).
    change (last_end (e :: rest)) with e. simpl length in *.
    destruct (dp_best_of r (S (length rest)) e) as [Hlow _]; [lia|lia|].
    specialize (Hlow (last_end rest) ltac:(lia) ltac:(lia)).
    replace (S (length rest) - 1) with (length rest) in Hlow by lia.
    eapply cle_trans; [exact Hlow|]. unfold cand.
    apply (cadd_mono _ _ (r (last_end rest) e)) in IH. exact IH.
Qed.

(** A finite [D[e][l]] is the cost of an admitted partition, whose last
    segment starts at [P[e][l]]. *)
Lemma dp_attained (l : nat) :
  forall e, is_fin (dpD r l e) ->
  exists cuts, length cuts = l /\ last_end cuts = e /\ admitted cuts /\
               dpD r l e = Fin (cuts_cost r cuts) /\
               (1 <= l -> dpP r l e = Z.of_nat (last_end (tl cuts))).
Proof.
  induction l as [|l IH]; intros e Hfin.
  - exists []. unfold dpD in *. simpl in *. destruct e; [|destruct Hfin].
    repeat split; auto. lia.
  - destruct (Nat.lt_ge_cases e (S l)) as [Hlt|Hge].
    { unfold dpD in Hfin. rewrite dp_unwritten in Hfin by exact Hlt. destruct Hfin. }
    destruct (dp_best_of r (S l) e) as [_ [Hnone|(s & Hs & Hs3 & Hacc & Hcand & _)]];
      [lia|exact Hge| |].
    { unfold dpD in Hfin. rewrite Hnone in Hfin. destruct Hfin. }
    replace (S l - 1) with l in * by lia.
    unfold cand in Hcand, Hacc. pose proof (cadd_fin_inv _ _ Hcand) as Hprev.
    destruct (IH s Hprev) as (rest & Hlen & Hlast & Hadm & Hcost & _).
    exists (e :: rest). split; [simpl; congruence|]. split; [reflexivity|].
    split; [|split].
    + simpl. rewrite Hlen, Hlast. split; [lia|exact Hadm].
    + unfold dpD at 1. rewrite Hacc. simpl. rewrite Hcost, Hlast. reflexivity.
    + intros _. unfold dpP. rewrite Hacc. simpl. now rewrite Hlast.
Qed.

End Optimum.

Section TableFacts.

Variable parab : Type.
Variable polyfit2 : list Z -> list Q -> parab.
Variable sum_sq : list Q -> list Z -> parab -> Q.

Local Abbreviation caches := (caches parab).
Local Abbreviation residual := (residual parab polyfit2 sum_sq).
Local Abbreviation segment_tables := (segment_tables parab polyfit2 sum_sq).
Local Abbreviation segment := (segment parab polyfit2 sum_sq).
Local Abbreviation footprint := (footprint parab polyfit2 sum_sq).

(** X7. [D[e][l]] is the least total cost over the partitions of
    [[0, e)] into [l] segments that the loops admit, those whose [i]-th
    segment has at least [max(3, i)] points: it is below the cost of
    each of them, and when it is finite it is the cost of one of them,
    whose last segment starts at [P[e][l]]. *)
Theorem segment_table_is_optimum (n k : nat) (d : list Q) (st : caches) (l e : nat) :
  length d = n -> l <= k -> e <= n ->
  exists D P st' c i,
    segment_tables n k d st = Some ((D, P), st') /\
    get2 D (Z.of_nat e) (Z.of_nat l) = Some c /\
    get2 P (Z.of_nat e) (Z.of_nat l) = Some i /\
    (forall cuts, length cuts = l -> last_end cuts = e -> admitted cuts ->
       cle c (Fin (cuts_cost (residual st d) cuts))) /\
    (is_fin c ->
       exists cuts, length cuts = l /\ last_end cuts = e /\ admitted cuts /\
                    c = Fin (cuts_cost (residual st d) cuts) /\
                    (1 <= l -> i = Z.of_nat (last_end (tl cuts)))).
Proof.
  intros Hlen Hlk He.
  destruct (segment_run parab polyfit2 sum_sq n k d st (fits_whole_signal parab n d st Hlen))
    as (D & P & st' & Hrun & _ & HD & HP & _).
  exists D, P, st', (dpD (residual st d) l e), (dpP (residual st d) l e).
  split; [exact Hrun|].
  split; [apply (tab_is_get _ _ _ _ e l HD); lia|].
  split; [apply (tab_is_get _ _ _ _ e l HP); lia|].
  split.
  - intros cuts <- <- Hadm. now apply dp_lower_bound.
  - apply dp_attained.
Qed.

Lemma take_rows_invalid (points : list point) (path : list Z) (i : Z) :
  In i path -> np_index (length points) i = None -> take_rows points path = None.
Proof.
  intros Hin Hidx. induction path as [|j path IH]; [destruct Hin|].
  simpl. destruct Hin as [->|Hin].
  - now rewrite Hidx.
  - rewrite (IH Hin). destruct (np_index (length points) j); [|reflexivity].
    now destruct (points !! n).
Qed.

(** X9. From two points on, the part of [bounding_box_3d] that computes
    the footprint never raises, whatever the dictionaries hold: the four
    entries of the path are valid indices of the array (negative ones
    count from the end), and the list [rectangle] is lower left, lower
    right, upper right, upper left with left [<=] right and lower [<=]
    upper. *)
Theorem footprint_from_two_points (points : list point) (st : caches) :
  2 <= length points ->
  exists left right lower upper st',
    footprint points st =
      Some ([(left, lower); (right, lower); (right, upper); (left, upper)], st') /\
    (left <= right)%Q /\ (lower <= upper)%Q.
Proof.
  intros Hn. set (n := length points) in *.
  assert (Hsignal : length (distances_of points) = n) by apply length_map.
  destruct (segment_run parab polyfit2 sum_sq n 4 (distances_of points) st
              (fits_whole_signal parab n (distances_of points) st Hsignal))
    as (_ & _ & st' & _ & Hseg & _).
  set (path := path_fun _ n 4) in Hseg.
  assert (Hvalid : Forall (fun i => (- Z.of_nat (length points) <= i
                                     < Z.of_nat (length points))%Z) path).
  { apply path_fun_Forall. intros e l He. fold n.
    destruct (dpP_range (residual st (distances_of points)) l e); lia. }
  destruct (take_rows_run points path Hvalid) as (rows & Hrows & Hlen).
  unfold path in Hlen. rewrite path_fun_length in Hlen.
  destruct (sort_by_four px rows Hlen) as (x0 & x1 & x2 & x3 & Hx & Hx01 & Hx12 & Hx23).
  destruct (sort_by_four py rows Hlen) as (y0 & y1 & y2 & y3 & Hy & Hy01 & Hy12 & Hy23).
  exists (avg (px x0) (px x1)), (avg (px x2) (px x3)),
         (avg (py y0) (py y1)), (avg (py y2) (py y3)), st'.
  split; [|split; now apply avg_le].
  unfold footprint, bind. fold n. rewrite Hseg. unfold lift.
  rewrite Hrows. unfold rectangle. rewrite Hx, Hy. reflexivity.
Qed.

(** X10. On fewer than two points the same part raises: no partition
    into four segments exists, the path ends with [-2], and
    [points[path]] is out of bounds. *)
Theorem footprint_raises_below_two_points (points : list point) (st : caches) :
  length points <= 1 -> footprint points st = None.
Proof.
  intros Hn. set (n := length points) in *.
  assert (Hsignal : length (distances_of points) = n) by apply length_map.
  destruct (segment_run parab polyfit2 sum_sq n 4 (distances_of points) st
              (fits_whole_signal parab n (distances_of points) st Hsignal))
    as (_ & _ & st' & _ & Hseg & _).
  set (path := path_fun _ n 4) in Hseg.
  assert (Hlast : last path = Some (-2)%Z).
  { unfold path. rewrite path_fun_last by lia.
    unfold dpP. rewrite dp_infeasible by lia. reflexivity. }
  apply last_Some in Hlast. destruct Hlast as (front & Hpath).
  unfold footprint, bind. fold n. rewrite Hseg. unfold lift.
  rewrite (take_rows_invalid points path (-2)%Z); [reflexivity| |].
  - rewrite Hpath. apply in_or_app. right. now left.
  - fold n. unfold np_index. simpl.
    destruct (Z.leb_spec (- Z.of_nat n) (-2)); [lia|reflexivity].
Qed.

End TableFacts.

(** ** The two dictionaries *)

Section CacheFacts.

Variable parab : Type.
Variable polyfit2 : list Z -> list Q -> parab.
Variable sum_sq : list Q -> list Z -> parab -> Q.

Local Abbreviation caches := (caches parab).
Local Abbreviation residual := (residual parab polyfit2 sum_sq).
Local Abbreviation generate_parab := (generate_parab parab polyfit2).
Local Abbreviation MSE := (MSE parab sum_sq).
Local Abbreviation start_step := (start_step parab polyfit2 sum_sq).
Local Abbreviation end_step := (end_step parab polyfit2 sum_sq).
Local Abbreviation length_step := (length_step parab polyfit2 sum_sq).
Local Abbreviation segment_tables := (segment_tables parab polyfit2 sum_sq).
Local Abbreviation segment := (segment parab polyfit2 sum_sq).
Local Abbreviation caches_grow := (caches_grow parab).
Local Abbreviation cached := (cached parab).

Lemma caches_grow_refl (n : nat) (st : caches) : caches_grow n st st.
Proof. unfold caches_grow. auto 10. Qed.

Lemma caches_grow_trans (n : nat) (st1 st2 st3 : caches) :
  caches_grow n st1 st2 -> caches_grow n st2 st3 -> caches_grow n st1 st3.
Proof.
  intros (Hp1 & Hv1 & Hkp1 & Hkv1) (Hp2 & Hv2 & Hkp2 & Hkv2).
  split; [|split; [|split]].
  - auto.
  - auto.
  - intros key Hkey. destruct (Hkp2 key Hkey) as [Hold|Hnew]; auto.
  - intros key Hkey. destruct (Hkv2 key Hkey) as [Hold|Hnew]; auto.
Qed.

Lemma generate_parab_grow (n : nat) (st st' : caches) (d : list Q) (s e : nat) (p : parab) :
  s + 3 <= e -> e <= n ->
  generate_parab s e d st = Some (p, st') ->
  caches_grow n st st' /\ is_Some (parabola_cache parab st' !! (s, e)).
Proof.
  intros Hs He. unfold generate_parab.
  destruct (parabola_cache parab st !! (s, e)) as [q|] eqn:Hq;
    [|destruct (polyfit_raises _ _); [discriminate|]]; intros [= <- <-].
  - split; [apply caches_grow_refl|]. rewrite Hq. eauto.
  - split; [|simpl; rewrite lookup_insert_eq; eauto].
    split; [|split; [|split]]; simpl; auto.
    + intros key q Hkey. rewrite lookup_insert_ne; [exact Hkey|congruence].
    + intros key Hkey. destruct (decide ((s, e) = key)) as [<-|Hne].
      * right. split; simpl; lia.
      * left. now rewrite lookup_insert_ne in Hkey.
Qed.

Lemma MSE_grow (n : nat) (st st' : caches) (d : list Q) (s e : nat) (p : parab) (v : Q) :
  s + 3 <= e -> e <= n ->
  MSE s e d p st = Some (v, st') ->
  caches_grow n st st' /\ is_Some (mse_cache parab st' !! (s, e)).
Proof.
  intros Hs He. unfold MSE.
  destruct (mse_cache parab st !! (s, e)) as [w|] eqn:Hw;
    [|destruct (broadcasts _ _); [|discriminate]]; intros [= <- <-].
  - split; [apply caches_grow_refl|]. rewrite Hw. eauto.
  - split; [|simpl; rewrite lookup_insert_eq; eauto].
    split; [|split; [|split]]; simpl; auto.
    + intros key q Hkey. rewrite lookup_insert_ne; [exact Hkey|congruence].
    + intros key Hkey. destruct (decide ((s, e) = key)) as [<-|Hne].
      * right. split; simpl; lia.
      * left. now rewrite lookup_insert_ne in Hkey.
Qed.

Lemma cached_grow (n : nat) (key : nat * nat) (st st' : caches) :
  caches_grow n st st' -> cached key st -> cached key st'.
Proof.
  intros (Hp & Hv & _) [[p Hkp] [v Hkv]]. split; eauto.
Qed.

(** A loop whose steps let the dictionaries grow lets them grow. *)
Lemma foldM_grow {A B : Type} (n : nat) (f : A -> B -> M parab A) (l : list B) :
  (forall a b st a' st', In b l -> f a b st = Some (a', st') -> caches_grow n st st') ->
  forall a st a' st', foldM parab f a l st = Some (a', st') -> caches_grow n st st'.
Proof.
  induction l as [|b l IH]; intros Hstep a st a' st'; simpl.
  - intros [= <- <-]. apply caches_grow_refl.
  - unfold bind at 1. destruct (f a b st) as [[a1 st1]|] eqn:Hf; [|discriminate].
    intros Hrest. eapply caches_grow_trans.
    + eapply Hstep; [now left|exact Hf].
    + eapply IH; [|exact Hrest]. intros. eapply Hstep; [right; eassumption|eassumption].
Qed.

(** What each step has established still holds after the loop. *)
Lemma foldM_cached {A B : Type} (n : nat) (f : A -> B -> M parab A) (l : list B)
    (keys : B -> nat * nat -> Prop) :
  (forall a b st a' st', In b l -> f a b st = Some (a', st') ->
     caches_grow n st st' /\ forall key, keys b key -> cached key st') ->
  forall a st a' st', foldM parab f a l st = Some (a', st') ->
  forall b key, In b l -> keys b key -> cached key st'.
Proof.
  induction l as [|b l IH]; intros Hstep a st a' st'; simpl.
  - intros _ b key [].
  - unfold bind at 1. destruct (f a b st) as [[a1 st1]|] eqn:Hf; [|discriminate].
    intros Hrest b' key [<-|Hin] Hkey.
    + apply (cached_grow n key st1).
      * eapply (foldM_grow n f l); [|exact Hrest].
        intros. eapply Hstep; [right; eassumption|eassumption].
      * eapply Hstep; [now left|exact Hf|exact Hkey].
    + eapply IH; [|exact Hrest|exact Hin|exact Hkey].
      intros. eapply Hstep; [right; eassumption|eassumption].
Qed.

Lemma start_step_grow (n l e : nat) (d : list Q) (D : table cost)
    (acc acc' : cost * Z) (s : nat) (st st' : caches) :
  e <= n ->
  start_step l e d D acc s st = Some (acc', st') ->
  caches_grow n st st' /\ (3 <= e - s -> cached (s, e) st').
Proof.
  intros He. unfold start_step.
  destruct (Nat.ltb_spec (e - s) 3) as [Hshort|Hlong].
  - intros [= <- <-]. split; [apply caches_grow_refl|intros; exfalso; lia].
  - unfold bind.
    destruct (generate_parab s e d st) as [[p st1]|] eqn:Hgp; [|discriminate].
    destruct (MSE s e d p st1) as [[v st2]|] eqn:Hmse; [|discriminate].
    assert (Hse : s + 3 <= e) by lia.
    destruct (generate_parab_grow n _ _ _ _ _ _ Hse He Hgp) as [Hg1 Hk1].
    destruct (MSE_grow n _ _ _ _ _ _ _ Hse He Hmse) as [Hg2 Hk2].
    unfold lift. destruct (get2 D _ _); [|discriminate].
    assert (Hst : st' = st2 -> caches_grow n st st' /\ (3 <= e - s -> cached (s, e) st')).
    { intros ->. split; [eapply caches_grow_trans; eassumption|].
      intros _. split; [|exact Hk2].
      destruct Hk1 as [q Hq]. destruct Hg2 as (Hp & _). eauto. }
    destruct (cltb _ _); intros [= _ <-]; now apply Hst.
Qed.

Lemma end_step_grow (n l e : nat) (d : list Q) (DP DP' : table cost * table Z)
    (st st' : caches) :
  e <= n ->
  end_step l d DP e st = Some (DP', st') ->
  caches_grow n st st' /\
  forall s, s <= e - l -> 3 <= e - s -> cached (s, e) st'.
Proof.
  intros He. unfold end_step, bind.
  destruct (foldM parab _ _ _ st) as [[best st1]|] eqn:Hloop; [|discriminate].
  unfold lift. destruct (set2 (fst DP) _ _ _); [|discriminate].
  destruct (set2 (snd DP) _ _ _); [|discriminate].
  intros [= _ <-]. split.
  - eapply foldM_grow; [|exact Hloop].
    intros a b st0 a' st0' _ Hstep. now apply (start_step_grow n) in Hstep.
  - intros s Hs Hs3.
    eapply (foldM_cached n _ _ (fun s key => 3 <= e - s /\ key = (s, e)))
      with (b := s); [|exact Hloop| |split; [exact Hs3|reflexivity]].
    + intros a b st0 a' st0' _ Hstep. apply (start_step_grow n) in Hstep; [|exact He].
      destruct Hstep as [Hg Hk]. split; [exact Hg|].
      intros key [Hb3 ->]. now apply Hk.
    + apply in_seq. lia.
Qed.

Lemma length_step_grow (n l : nat) (d : list Q) (DP DP' : table cost * table Z)
    (st st' : caches) :
  length_step n d DP l st = Some (DP', st') ->
  caches_grow n st st' /\
  forall s e, l <= e -> e <= n -> s <= e - l -> 3 <= e - s -> cached (s, e) st'.
Proof.
  unfold length_step. intros Hloop. split.
  - eapply foldM_grow; [|exact Hloop].
    intros a e st0 a' st0' He Hstep. apply in_seq in He.
    apply (end_step_grow n) in Hstep; [tauto|lia].
  - intros s e Hle Hen Hs Hs3.
    eapply (foldM_cached n _ _ (fun e key => exists s, s <= e - l /\ 3 <= e - s /\ key = (s, e)))
      with (b := e); [|exact Hloop| |exists s; auto].
    + intros a b st0 a' st0' Hb Hstep. apply in_seq in Hb.
      apply (end_step_grow n) in Hstep; [|lia].
      destruct Hstep as [Hg Hk]. split; [exact Hg|].
      intros key (s0 & Hs0 & Hs03 & ->). now apply Hk.
    + apply in_seq. lia.
Qed.

Lemma segment_tables_grow (n k : nat) (d : list Q) (DP : table cost * table Z)
    (st st' : caches) :
  segment_tables n k d st = Some (DP, st') ->
  caches_grow n st st' /\
  (1 <= k -> forall s e, s + 3 <= e -> e <= n -> cached (s, e) st').
Proof.
  unfold segment_tables, bind, lift.
  destruct (set2 _ 0 0 _) as [D0|]; [|discriminate]. intros Hloop. split.
  - eapply foldM_grow; [|exact Hloop].
    intros a l st0 a' st0' _ Hstep. now apply length_step_grow in Hstep.
  - intros Hk s e Hs He.
    eapply (foldM_cached n _ _
              (fun l key => l = 1 /\ fst key + 3 <= snd key /\ snd key <= n))
      with (b := 1); [|exact Hloop| |split; [reflexivity|simpl; lia]].
    + intros a l st0 a' st0' _ Hstep. apply length_step_grow in Hstep.
      destruct Hstep as [Hg Hkeys]. split; [exact Hg|].
      intros [s0 e0] (-> & Hs0 & He0). simpl in *. apply Hkeys; lia.
    + apply in_seq. lia.
Qed.

Lemma segment_final_state (n k : nat) (d : list Q) (path : list Z) (st st' : caches) :
  segment n k d st = Some (path, st') ->
  exists DP, segment_tables n k d st = Some (DP, st').
Proof.
  unfold segment, bind.
  destruct (segment_tables n k d st) as [[DP st1]|]; [|discriminate].
  unfold lift. destruct (reconstruct n k (snd DP)); [|discriminate].
  intros [= _ <-]. now exists DP.
Qed.

Lemma segment_grow (n k : nat) (d : list Q) (st : caches) :
  fits_ready parab n d st ->
  exists path st',
    segment n k d st = Some (path, st') /\
    caches_grow n st st' /\
    (1 <= k -> forall s e, s + 3 <= e -> e <= n -> cached (s, e) st').
Proof.
  intros Hfits.
  destruct (segment_run parab polyfit2 sum_sq n k d st Hfits) as (_ & _ & st' & _ & Hseg & _).
  eexists _, st'. split; [exact Hseg|].
  destruct (segment_final_state _ _ _ _ _ _ Hseg) as (DP & Htab).
  now apply segment_tables_grow in Htab.
Qed.

(** X3. A call of [segment] never removes or overwrites an entry of the
    two dictionaries, and the only keys it adds are ranges
    [(start, end)] of at least three points with [end <= n]. *)
Theorem segment_only_adds_range_keys (n k : nat) (d : list Q) (st : caches) :
  length d = n ->
  exists path st',
    segment n k d st = Some (path, st') /\
    (forall key p, parabola_cache parab st !! key = Some p ->
                   parabola_cache parab st' !! key = Some p) /\
    (forall key v, mse_cache parab st !! key = Some v ->
                   mse_cache parab st' !! key = Some v) /\
    (forall s e, parabola_cache parab st !! (s, e) = None ->
                 is_Some (parabola_cache parab st' !! (s, e)) -> s + 3 <= e /\ e <= n) /\
    (forall s e, mse_cache parab st !! (s, e) = None ->
                 is_Some (mse_cache parab st' !! (s, e)) -> s + 3 <= e /\ e <= n).
Proof.
  intros Hlen.
  destruct (segment_grow n k d st (fits_whole_signal parab n d st Hlen))
    as (path & st' & Hseg & Hgrow & _).
  exists path, st'. split; [exact Hseg|].
  destruct Hgrow as (Hp & Hv & Hkp & Hkv). repeat split; auto.
  - destruct (Hkp _ H0) as [[q Hq]|[Hr _]]; [congruence|exact Hr].
  - destruct (Hkp _ H0) as [[q Hq]|[_ Hr]]; [congruence|exact Hr].
  - destruct (Hkv _ H0) as [[q Hq]|[Hr _]]; [congruence|exact Hr].
  - destruct (Hkv _ H0) as [[q Hq]|[_ Hr]]; [congruence|exact Hr].
Qed.

(** X4. After a call of [segment] with [k >= 1], both dictionaries have
    an entry for every range [(start, end)] of at least three points
    with [end <= n]: their keys are the keys they had before and these
    ranges, and nothing else. *)
Theorem segment_caches_every_range (n k : nat) (d : list Q) (st : caches) :
  length d = n -> 1 <= k ->
  exists path st',
    segment n k d st = Some (path, st') /\
    (forall s e, is_Some (parabola_cache parab st' !! (s, e)) <->
                 is_Some (parabola_cache parab st !! (s, e)) \/ (s + 3 <= e /\ e <= n)) /\
    (forall s e, is_Some (mse_cache parab st' !! (s, e)) <->
                 is_Some (mse_cache parab st !! (s, e)) \/ (s + 3 <= e /\ e <= n)).
Proof.
  intros Hlen Hk.
  destruct (segment_grow n k d st (fits_whole_signal parab n d st Hlen))
    as (path & st' & Hseg & Hgrow & Hall).
  exists path, st'. split; [exact Hseg|].
  destruct Hgrow as (Hp & Hv & Hkp & Hkv). split; intros s e; split.
  - intros Hin. destruct (Hkp _ Hin) as [Hold|Hr]; [now left|right; exact Hr].
  - intros [[p Hold]|[Hs He]]; [eauto|]. now destruct (Hall Hk s e Hs He).
  - intros Hin. destruct (Hkv _ Hin) as [Hold|Hr]; [now left|right; exact Hr].
  - intros [[v Hold]|[Hs He]]; [eauto|]. now destruct (Hall Hk s e Hs He).
Qed.

(** When every range within [[0, n]] is in the dictionaries, its cost
    does not depend on the signal. *)
Lemma residual_cached (st : caches) (d1 d2 : list Q) (s e : nat) :
  cached (s, e) st -> residual st d1 s e = residual st d2 s e.
Proof.
  intros [_ [v Hv]]. unfold residual. now rewrite Hv.
Qed.

Lemma caches_grow_full (n : nat) (st st' : caches) :
  (forall s e, s + 3 <= e -> e <= n -> cached (s, e) st) ->
  caches_grow n st st' -> st' = st.
Proof.
  intros Hall (Hp & Hv & Hkp & Hkv).
  destruct st as [pc mc], st' as [pc' mc']. simpl in *. f_equal.
  - apply map_eq. intros [s e].
    destruct (pc !! (s, e)) as [p|] eqn:Hold; [now apply Hp|].
    destruct (pc' !! (s, e)) as [p'|] eqn:Hnew; [|reflexivity]. exfalso.
    destruct (Hkp (s, e)) as [[q Hq]|[Hs He]]; [rewrite Hnew; eauto|congruence|].
    destruct (Hall s e Hs He) as [[q Hq] _]. simpl in Hq. congruence.
  - apply map_eq. intros [s e].
    destruct (mc !! (s, e)) as [p|] eqn:Hold; [now apply Hv|].
    destruct (mc' !! (s, e)) as [p'|] eqn:Hnew; [|reflexivity]. exfalso.
    destruct (Hkv (s, e)) as [[q Hq]|[Hs He]]; [rewrite Hnew; eauto|congruence|].
    destruct (Hall s e Hs He) as [_ [q Hq]]. simpl in Hq. congruence.
Qed.

(** X5. After a call [segment(n, k, d)] with [k >= 1], a later call
    [segment(n', k', d')] with [n' <= n] in the same process computes no
    fit: it leaves the dictionaries as they are, and the path it
    returns is the same for every signal [d']. *)
Theorem later_call_ignores_its_signal
    (n k : nat) (d : list Q) (st : caches) (n' k' : nat) (d1 d2 : list Q) :
  length d = n -> 1 <= k -> n' <= n ->
  exists path0 st1 path,
    segment n k d st = Some (path0, st1) /\
    segment n' k' d1 st1 = Some (path, st1) /\
    segment n' k' d2 st1 = Some (path, st1).
Proof.
  intros Hlen Hk Hn'.
  destruct (segment_grow n k d st (fits_whole_signal parab n d st Hlen))
    as (path0 & st1 & Hseg & _ & Hall).
  specialize (Hall Hk).
  assert (Hfull : forall s e, s + 3 <= e -> e <= n' -> cached (s, e) st1)
    by (intros s e Hs He; apply Hall; lia).
  pose proof (fits_when_cached parab n' d1 st1 Hfull) as Hfits1.
  pose proof (fits_when_cached parab n' d2 st1 Hfull) as Hfits2.
  destruct (segment_grow n' k' d1 st1 Hfits1) as (path1 & st2 & Hseg1 & Hgrow1 & _).
  destruct (segment_grow n' k' d2 st1 Hfits2) as (path2 & st3 & Hseg2 & Hgrow2 & _).
  apply (caches_grow_full n' st1 st2 Hfull) in Hgrow1.
  apply (caches_grow_full n' st1 st3 Hfull) in Hgrow2. subst st2 st3.
  exists path0, st1, path1. split; [exact Hseg|]. split; [exact Hseg1|].
  rewrite Hseg2. do 2 f_equal.
  destruct (segment_run parab polyfit2 sum_sq n' k' d1 st1 Hfits1)
    as (_ & _ & st2 & _ & Hrun1 & _).
  destruct (segment_run parab polyfit2 sum_sq n' k' d2 st1 Hfits2)
    as (_ & _ & st3 & _ & Hrun2 & _).
  rewrite Hseg1 in Hrun1. rewrite Hseg2 in Hrun2.
  injection Hrun1 as -> _. injection Hrun2 as -> _.
  apply path_fun_ext_on. intros e l He. unfold dpP. f_equal.
  apply (dp_ext_on n'); [|exact He].
  intros s e' Hs He'. apply residual_cached. now apply Hfull.
Qed.

End CacheFacts.

(** ** A signal shorter than [n] *)

Section ShortSignal.

Variable parab : Type.
Variable polyfit2 : list Z -> list Q -> parab.
Variable sum_sq : list Q -> list Z -> parab -> Q.

Local Abbreviation caches := (caches parab).
Local Abbreviation residual := (residual parab polyfit2 sum_sq).
Local Abbreviation generate_parab := (generate_parab parab polyfit2).
Local Abbreviation start_step := (start_step parab polyfit2 sum_sq).
Local Abbreviation end_step := (end_step parab polyfit2 sum_sq).
Local Abbreviation length_step := (length_step parab polyfit2 sum_sq).
Local Abbreviation segment_tables := (segment_tables parab polyfit2 sum_sq).
Local Abbreviation segment := (segment parab polyfit2 sum_sq).

Lemma foldM_app {A B : Type} (f : A -> B -> M parab A) (l1 l2 : list B) :
  forall a st,
  foldM parab f a (l1 ++ l2) st
    = bind parab (foldM parab f a l1) (fun a' => foldM parab f a' l2) st.
Proof.
  induction l1 as [|b l1 IH]; intros a st; [reflexivity|].
  simpl. unfold bind. destruct (f a b st) as [[a' st']|]; [|reflexivity].
  rewrite IH. reflexivity.
Qed.

(** The first range of layer [1] that runs past the signal. *)
Lemma first_fit_raises (d : list Q) (e : nat) (st : caches) :
  length d < e ->
  parabola_cache parab st !! (0, e) = None ->
  generate_parab 0 e d st = None.
Proof.
  intros He Hnone. unfold generate_parab. rewrite Hnone. simpl.
  rewrite np_range_length. unfold slice, polyfit_raises.
  rewrite length_take, length_drop.
  destruct (Nat.eqb_spec (e - 0) 0); [reflexivity|].
  destruct (Nat.eqb_spec (e - 0) ((e - 0) `min` (length d - 0))); [lia|reflexivity].
Qed.

(** X24. In a call [segment(n, k, distances)] with [k >= 1] and
    [n >= 3] on a signal of fewer than [n] values, the first range that
    runs past the signal is [(0, e)] with [e = max(3, len + 1)]; unless
    [parabola_cache] already holds that key, [np.polyfit] raises there
    and so does [segment]. *)
Theorem segment_raises_on_short_signal (n k : nat) (d : list Q) (st : caches) :
  1 <= k -> 3 <= n -> length d < n ->
  parabola_cache parab st !! (0, Nat.max 3 (length d + 1)) = None ->
  segment n k d st = None.
Proof.
  intros Hk Hn Hlen Hnone. set (e := Nat.max 3 (length d + 1)) in *.
  assert (Hen : e <= n) by lia.
  set (r := residual st d).
  destruct (initial_tables r n k) as (D0 & Hset & Hinit).
  (* the ends before [e] *)
  destruct (end_loop_run parab polyfit2 sum_sq d r n k (e - 1) 1 (le_n 1) Hk
              (e - 1) 1 D0 (np_full (n + 1) (k + 1) (-1)%Z) st)
    as (D1 & P1 & st1 & Hprefix & _ & _); try lia.
  - exact Hinit.
  - split; [intros s e'; reflexivity|].
    intros s e' Hs He'. left. lia.
  - (* they add no key with the end [e] *)
    assert (Hgrow : caches_grow parab (e - 1) st st1).
    { eapply foldM_grow; [|exact Hprefix].
      intros a b st0 a' st0' Hb Hstep. apply in_seq in Hb.
      apply (end_step_grow parab polyfit2 sum_sq (e - 1)) in Hstep; [tauto|lia]. }
    assert (Hnone1 : parabola_cache parab st1 !! (0, e) = None).
    { destruct (parabola_cache parab st1 !! (0, e)) as [p|] eqn:Hp; [|reflexivity].
      destruct Hgrow as (_ & _ & Hkeys & _).
      destruct (Hkeys (0, e)) as [[q Hq]|[_ Hr]]; [rewrite Hp; eauto|congruence|].
      simpl in Hr. lia. }
    (* the end [e] starts with the range [(0, e)] *)
    assert (Hstep : end_step 1 d (D1, P1) e st1 = None).
    { unfold end_step, bind.
      replace (e - 1 + 1) with (S (e - 1)) by lia. cbn [seq foldM].
      unfold bind at 1. unfold start_step at 1.
      destruct (Nat.ltb_spec (e - 0) 3); [lia|].
      unfold bind at 1. rewrite first_fit_raises by (try exact Hnone1; lia). reflexivity. }
    assert (Hlayer : length_step n d (D0, np_full (n + 1) (k + 1) (-1)%Z) 1 st = None).
    { unfold length_step.
      replace (n + 1 - 1) with ((e - 1) + S (n - e)) by lia.
      rewrite seq_app, foldM_app. unfold bind at 1. rewrite Hprefix.
      replace (1 + (e - 1)) with e by lia. cbn [seq foldM].
      unfold bind at 1. now rewrite Hstep. }
    assert (Htab : segment_tables n k d st = None).
    { unfold segment_tables, bind at 1. unfold lift.
      change (Z.of_nat 0) with 0%Z in Hset. rewrite Hset.
      assert (Hseq : seq 1 k = 1 :: seq 2 (k - 1))
        by (destruct k; [lia|simpl; now rewrite Nat.sub_0_r]).
      rewrite Hseq. cbn [foldM]. unfold bind at 1. now rewrite Hlayer. }
    unfold segment, bind. now rewrite Htab.
Qed.

End ShortSignal.

(** ** Distances *)

Lemma sq_sum_nonneg (u v : Q) : (0 <= u * u + v * v)%Q.
Proof. nra. Qed.

(** X12. The distance signal of [bounding_box_3d] has one value per
    point, in the order of the points: the value at the index of a point
    is its squared distance to the mean point, and it is not negative. *)
Theorem distances_of_signal (points : list point) (i : nat) (p : point) :
  points !! i = Some p ->
  length (distances_of points) = length points /\
  exists v, distances_of points !! i = Some v /\
            v = euc_dist (px p, py p) (c_mean points) /\ (0 <= v)%Q.
Proof.
  intros Hp. unfold distances_of. split; [apply length_map|].
  eexists. rewrite list_lookup_fmap, Hp. simpl.
  split; [reflexivity|]. split; [reflexivity|].
  unfold euc_dist. simpl. apply sq_sum_nonneg.
Qed.

(** ** The height estimator: edge cases and monotonicity *)

Lemma count_inliers_le (points : list point) (z t : Q) :
  count_inliers points z t <= length points.
Proof.
  unfold count_inliers. induction points as [|p points IH]; [simpl; lia|].
  cbn [List.filter]. destruct (Qltb _ _); cbn [length]; lia.
Qed.

Lemma count_inliers_mono (points : list point) (z t1 t2 : Q) :
  (t1 <= t2)%Q -> count_inliers points z t1 <= count_inliers points z t2.
Proof.
  intros Ht. unfold count_inliers. induction points as [|p points IH]; [simpl; lia|].
  cbn [List.filter].
  destruct (Qltb (Qabs (pz p - z)) t1) eqn:H1.
  - apply Qltb_lt in H1.
    assert (H2 : Qltb (Qabs (pz p - z)) t2 = true)
      by (apply Qltb_lt; eapply Qlt_le_trans; eassumption).
    rewrite H2. cbn [length]. lia.
  - destruct (Qltb (Qabs (pz p - z)) t2); cbn [length]; lia.
Qed.

Lemma count_inliers_nonpos (points : list point) (z t : Q) :
  (t <= 0)%Q -> count_inliers points z t = 0.
Proof.
  intros Ht. unfold count_inliers. induction points as [|p points IH]; [reflexivity|].
  cbn [List.filter].
  destruct (Qltb (Qabs (pz p - z)) t) eqn:Hlt; [|exact IH].
  apply Qltb_lt in Hlt. exfalso.
  pose proof (Qabs_nonneg (pz p - z)) as Hab.
  apply (Qlt_not_le _ _ Hlt). eapply Qle_trans; eassumption.
Qed.

(** X13. With a threshold that is zero or negative no point is an
    inlier, not even the sampled one: on a non-empty array
    [ransac_z_fit] returns [(None, 0)] whatever the number of
    iterations and the draws. *)
Theorem ransac_no_estimate_without_threshold (rng : nat -> nat) (points : list point)
    (iterations : nat) (threshold : Q) :
  points <> [] -> (threshold <= 0)%Q ->
  ransac_z_fit rng points iterations threshold = Some (None, 0).
Proof.
  intros Hne Ht.
  destruct (ransac_loop_first_best rng points threshold Hne iterations)
    as (best & Hrun & _ & [Hnone|(j & _ & _ & Hpos & _)]).
  - unfold ransac_z_fit. now rewrite Hrun, Hnone.
  - exfalso. unfold inliers_at in Hpos. rewrite count_inliers_nonpos in Hpos by exact Ht. lia.
Qed.

(** X14. On an empty array the first draw raises: with at least one
    iteration [ransac_z_fit] returns nothing, not even [(None, 0)]. *)
Theorem ransac_raises_on_empty_array (rng : nat -> nat) (iterations : nat) (threshold : Q) :
  1 <= iterations -> ransac_z_fit rng [] iterations threshold = None.
Proof.
  intros Hit. destruct iterations as [|m]; [lia|]. reflexivity.
Qed.

(** X15. More iterations on the same draws never lower the count that
    [ransac_z_fit] returns, which is at most the number of points; and
    the returned height changes only when the count has grown. *)
Theorem ransac_more_iterations (rng : nat -> nat) (points : list point)
    (iterations more : nat) (threshold : Q) :
  points <> [] ->
  exists z1 c1 z2 c2,
    ransac_z_fit rng points iterations threshold = Some (z1, c1) /\
    ransac_z_fit rng points (iterations + more) threshold = Some (z2, c2) /\
    c1 <= c2 /\ c2 <= length points /\
    (c1 = c2 -> z1 = z2).
Proof.
  intros Hne.
  destruct (ransac_loop_first_best rng points threshold Hne iterations)
    as ([z1 c1] & Hrun1 & Hlow1 & Hbest1).
  destruct (ransac_loop_first_best rng points threshold Hne (iterations + more))
    as ([z2 c2] & Hrun2 & Hlow2 & Hbest2).
  exists z1, c1, z2, c2. split; [exact Hrun1|]. split; [exact Hrun2|].
  simpl in Hlow1, Hlow2.
  destruct Hbest1 as [[= -> ->]|(j1 & Hj1 & [= -> ->] & Hpos1 & Hfirst1)];
    destruct Hbest2 as [[= -> ->]|(j2 & Hj2 & [= -> ->] & Hpos2 & Hfirst2)].
  - repeat split; auto; lia.
  - split; [lia|]. split; [apply count_inliers_le|]. intros Heq. lia.
  - specialize (Hlow2 j1 ltac:(lia)). lia.
  - split; [apply Hlow2; lia|]. split; [apply count_inliers_le|].
    intros Heq. destruct (Nat.lt_trichotomy j1 j2) as [Hlt|[->|Hgt]].
    + specialize (Hfirst2 j1 Hlt). lia.
    + reflexivity.
    + specialize (Hfirst1 j2 Hgt). lia.
Qed.

(** X16. On the same draws, a larger threshold never lowers the count
    that [ransac_z_fit] returns. *)
Theorem ransac_threshold_monotone (rng : nat -> nat) (points : list point)
    (iterations : nat) (t1 t2 : Q) :
  points <> [] -> (t1 <= t2)%Q ->
  exists z1 c1 z2 c2,
    ransac_z_fit rng points iterations t1 = Some (z1, c1) /\
    ransac_z_fit rng points iterations t2 = Some (z2, c2) /\
    c1 <= c2.
Proof.
  intros Hne Ht.
  destruct (ransac_loop_first_best rng points t1 Hne iterations)
    as ([z1 c1] & Hrun1 & _ & Hbest1).
  destruct (ransac_loop_first_best rng points t2 Hne iterations)
    as ([z2 c2] & Hrun2 & Hlow2 & _).
  exists z1, c1, z2, c2. split; [exact Hrun1|]. split; [exact Hrun2|].
  simpl in Hlow2.
  destruct Hbest1 as [[= -> ->]|(j & Hj & [= -> ->] & _)]; [lia|].
  specialize (Hlow2 j Hj). unfold inliers_at in *.
  pose proof (count_inliers_mono points (sample_z_at rng points j) t1 t2 Ht). lia.
Qed.

(** ** The two heights *)

Lemma ransac_z_fit_empty (rng : nat -> nat) (m : nat) (threshold : Q) :
  ransac_z_fit rng [] (S m) threshold = None.
Proof. reflexivity. Qed.

(** On a non-empty array, with the default arguments, the estimate is
    the height of a point of the array. *)
Lemma ransac_z_fit_default (rng : nat -> nat) (points : list point) :
  points <> [] ->
  exists sample count,
    In sample points /\
    ransac_z_fit rng points 100 (1 # 2) = Some (Some (pz sample), count).
Proof.
  intros Hne.
  destruct (ransac_z_fit_run rng points 100 (1 # 2) Hne) as (j & _ & Hrun & _);
    [lia|reflexivity|].
  destruct (drawn_some rng points Hne j) as (sample & Hdrawn & Hin).
  exists sample, (inliers_at rng points (1 # 2) j). split; [exact Hin|].
  rewrite Hrun. unfold sample_z_at. now rewrite Hdrawn.
Qed.

Lemma points_below_In (m : option Q) (points : list point) (p : point) :
  In p (points_below m points) -> exists v, m = Some v /\ (pz p < v)%Q /\ In p points.
Proof.
  unfold points_below. intros Hin. apply filter_In in Hin. destruct Hin as [Hin Hlt].
  destruct m as [v|]; [|discriminate]. exists v. apply Qltb_lt in Hlt. auto.
Qed.

Lemma points_above_In (m : option Q) (points : list point) (p : point) :
  In p (points_above m points) -> exists v, m = Some v /\ (v < pz p)%Q /\ In p points.
Proof.
  unfold points_above. intros Hin. apply filter_In in Hin. destruct Hin as [Hin Hlt].
  destruct m as [v|]; [|discriminate]. exists v. apply Qltb_lt in Hlt. auto.
Qed.

Lemma estimate_heights_run (rng_floor rng_ceiling : nat -> nat) (points : list point) :
  points_below (median_z points) points <> [] ->
  points_above (median_z points) points <> [] ->
  exists m floor_z ceiling_z,
    median_z points = Some m /\
    estimate_heights rng_floor rng_ceiling points = Some (Some floor_z, Some ceiling_z) /\
    (floor_z < m)%Q /\ (m < ceiling_z)%Q.
Proof.
  intros Hbelow Habove.
  destruct (ransac_z_fit_default rng_floor _ Hbelow) as (pf & cf & Hinf & Hrunf).
  destruct (ransac_z_fit_default rng_ceiling _ Habove) as (pc & cc & Hinc & Hrunc).
  apply points_below_In in Hinf. destruct Hinf as (m & Hm & Hlt & _).
  apply points_above_In in Hinc. destruct Hinc as (m' & Hm' & Hgt & _).
  assert (m' = m) as -> by congruence.
  exists m, (pz pf), (pz pc). split; [exact Hm|].
  unfold estimate_heights. rewrite Hrunf, Hrunc. auto.
Qed.

(** X17. When some point lies strictly below the median height and some
    point strictly above it, the two estimates of [bounding_box_3d]
    exist and the median separates them: [floor_z < median < ceiling_z],
    whatever the draws. *)
Theorem estimate_heights_ordered (rng_floor rng_ceiling : nat -> nat) (points : list point) :
  points_below (median_z points) points <> [] ->
  points_above (median_z points) points <> [] ->
  exists m floor_z ceiling_z,
    median_z points = Some m /\
    estimate_heights rng_floor rng_ceiling points = Some (Some floor_z, Some ceiling_z) /\
    (floor_z < m)%Q /\ (m < ceiling_z)%Q /\ (floor_z < ceiling_z)%Q.
Proof.
  intros Hbelow Habove.
  destruct (estimate_heights_run rng_floor rng_ceiling points Hbelow Habove)
    as (m & f & c & Hm & Hrun & Hf & Hc).
  exists m, f, c. repeat split; auto. eapply Qlt_trans; eassumption.
Qed.

(** X18. The height estimation raises exactly when no point lies
    strictly below the median height or none lies strictly above it:
    [ransac_z_fit] is then called on an empty array. *)
Theorem estimate_heights_raises_iff (rng_floor rng_ceiling : nat -> nat) (points : list point) :
  estimate_heights rng_floor rng_ceiling points = None <->
  points_below (median_z points) points = [] \/
  points_above (median_z points) points = [].
Proof.
  split.
  - intros Hnone.
    destruct (points_below (median_z points) points) as [|p below] eqn:Hb; [now left|].
    destruct (points_above (median_z points) points) as [|q above] eqn:Ha; [now right|].
    exfalso.
    destruct (estimate_heights_run rng_floor rng_ceiling points)
      as (m & f & c & _ & Hrun & _); [rewrite Hb; discriminate|rewrite Ha; discriminate|].
    congruence.
  - unfold estimate_heights. intros [-> | ->].
    + now rewrite ransac_z_fit_empty.
    + rewrite ransac_z_fit_empty.
      now destruct (ransac_z_fit rng_floor _ 100 (1 # 2)) as [[fz cf]|].
Qed.

Lemma sort_by_In (key : point -> Q) (l : list point) (q : point) :
  In q (sort_by key l) <-> In q l.
Proof.
  induction l as [|p l IH]; simpl; [tauto|]. split.
  - intros Hin. apply insert_by_In in Hin. destruct Hin as [->|Hin]; [now left|].
    right. now apply IH.
  - intros Hin. assert (Hcase : q = p \/ In q (sort_by key l)) by (destruct Hin; [left|right]; [congruence|now apply IH]).
    clear Hin IH. induction (sort_by key l) as [|a s IHs]; simpl.
    + destruct Hcase as [->|[]]. now left.
    + destruct (Qle_bool (key p) (key a)).
      * destruct Hcase as [->|Hin]; [now left|now right].
      * destruct Hcase as [->|[->|Hin]].
        -- right. apply IHs. now left.
        -- now left.
        -- right. apply IHs. now right.
Qed.

Lemma lookup_sort_by_In (key : point -> Q) (l : list point) (i : nat) (q : point) :
  sort_by key l !! i = Some q -> In q l.
Proof.
  intros Hq. apply (sort_by_In key). apply list_elem_of_In.
  eapply list_elem_of_lookup_2. exact Hq.
Qed.

Lemma filter_all_false {A : Type} (f : A -> bool) (l : list A) :
  (forall x, In x l -> f x = false) -> List.filter f l = [].
Proof.
  induction l as [|x l IH]; intros Hf; [reflexivity|].
  cbn [List.filter]. rewrite (Hf x) by (now left).
  apply IH. intros y Hy. apply Hf. now right.
Qed.

Lemma median_z_flat (points : list point) (v : Q) :
  (forall p q, In p points -> In q points -> (pz p == pz q)%Q) ->
  median_z points = Some v ->
  forall p, In p points -> (v == pz p)%Q.
Proof.
  intros Hflat Hmed p Hp. unfold median_z in Hmed.
  destruct (length points =? 0); [discriminate|].
  destruct (Nat.even (length points)).
  - destruct (sort_by pz points !! (length points / 2 - 1)) as [a|] eqn:Ha; [|discriminate].
    destruct (sort_by pz points !! (length points / 2)) as [b|] eqn:Hb; [|discriminate].
    injection Hmed as <-.
    apply lookup_sort_by_In in Ha, Hb.
    pose proof (Hflat a p Ha Hp) as Hap. pose proof (Hflat b p Hb Hp) as Hbp.
    unfold avg. rewrite Hap, Hbp. field.
  - destruct (sort_by pz points !! (length points / 2)) as [a|] eqn:Ha; [|discriminate].
    injection Hmed as <-. apply lookup_sort_by_In in Ha. now apply Hflat.
Qed.

(** X19. On a flat cloud, where all the points have the same height,
    no point is strictly below the median and the height estimation
    raises. *)
Theorem estimate_heights_raises_on_flat_cloud
    (rng_floor rng_ceiling : nat -> nat) (points : list point) :
  (forall p q, In p points -> In q points -> (pz p == pz q)%Q) ->
  points_below (median_z points) points = [] /\
  points_above (median_z points) points = [] /\
  estimate_heights rng_floor rng_ceiling points = None.
Proof.
  intros Hflat.
  assert (Hbelow : points_below (median_z points) points = []).
  { apply filter_all_false. intros p Hp.
    destruct (median_z points) as [v|] eqn:Hmed; [|reflexivity].
    pose proof (median_z_flat points v Hflat Hmed p Hp) as Hv.
    destruct (Qltb (pz p) v) eqn:Hlt; [|reflexivity].
    apply Qltb_lt in Hlt. rewrite Hv in Hlt. exfalso. exact (Qlt_irrefl _ Hlt). }
  assert (Habove : points_above (median_z points) points = []).
  { apply filter_all_false. intros p Hp.
    destruct (median_z points) as [v|] eqn:Hmed; [|reflexivity].
    pose proof (median_z_flat points v Hflat Hmed p Hp) as Hv.
    destruct (Qltb v (pz p)) eqn:Hlt; [|reflexivity].
    apply Qltb_lt in Hlt. rewrite Hv in Hlt. exfalso. exact (Qlt_irrefl _ Hlt). }
  split; [exact Hbelow|]. split; [exact Habove|].
  unfold estimate_heights. rewrite Hbelow. now rewrite ransac_z_fit_empty.
Qed.

(** ** The corners *)

Lemma avg_between (a b : Q) : (a <= b)%Q -> (a <= avg a b)%Q /\ (avg a b <= b)%Q.
Proof.
  intros Hab. unfold avg, Qdiv. change (/ 2)%Q with (1 # 2)%Q. split; lra.
Qed.

(** X20. [rectangle] raises exactly on fewer than four rows; it does not
    check that there are no more than four. *)
Theorem rectangle_raises_iff (rows : list point) :
  rectangle rows = None <-> length rows < 4.
Proof.
  unfold rectangle.
  pose proof (sort_by_length px rows) as Hx. pose proof (sort_by_length py rows) as Hy.
  destruct (sort_by px rows) as [|x0 [|x1 [|x2 [|x3 sx]]]];
    destruct (sort_by py rows) as [|y0 [|y1 [|y2 [|y3 sy]]]];
    simpl in *; split; intros H; try reflexivity; try discriminate; lia.
Qed.

(** X21. For four rows, the rectangle lies within the extent of the
    rows: some rows [p_left], [p_right], [p_low], [p_up] bound every row
    in x and in y, and the sides of the rectangle are between them. *)
Theorem rectangle_within_rows (rows : list point) :
  length rows = 4 ->
  exists left right lower upper p_left p_right p_low p_up,
    rectangle rows = Some [(left, lower); (right, lower); (right, upper); (left, upper)] /\
    In p_left rows /\ In p_right rows /\ In p_low rows /\ In p_up rows /\
    (forall p, In p rows ->
       (px p_left <= px p)%Q /\ (px p <= px p_right)%Q /\
       (py p_low <= py p)%Q /\ (py p <= py p_up)%Q) /\
    (px p_left <= left)%Q /\ (left <= right)%Q /\ (right <= px p_right)%Q /\
    (py p_low <= lower)%Q /\ (lower <= upper)%Q /\ (upper <= py p_up)%Q.
Proof.
  intros Hlen.
  destruct (sort_by_four px rows Hlen) as (x0 & x1 & x2 & x3 & Hx & Hx01 & Hx12 & Hx23).
  destruct (sort_by_four py rows Hlen) as (y0 & y1 & y2 & y3 & Hy & Hy01 & Hy12 & Hy23).
  exists (avg (px x0) (px x1)), (avg (px x2) (px x3)),
         (avg (py y0) (py y1)), (avg (py y2) (py y3)), x0, x3, y0, y3.
  split; [unfold rectangle; rewrite Hx, Hy; reflexivity|].
  assert (Hinx : forall p, In p rows <-> In p [x0; x1; x2; x3])
    by (intros p; rewrite <- Hx; symmetry; apply sort_by_In).
  assert (Hiny : forall p, In p rows <-> In p [y0; y1; y2; y3])
    by (intros p; rewrite <- Hy; symmetry; apply sort_by_In).
  split; [apply Hinx; simpl; auto|]. split; [apply Hinx; simpl; auto 6|].
  split; [apply Hiny; simpl; auto|]. split; [apply Hiny; simpl; auto 6|].
  split.
  - intros p Hp. pose proof (proj1 (Hinx p) Hp) as Hpx. pose proof (proj1 (Hiny p) Hp) as Hpy.
    simpl in Hpx, Hpy.
    repeat split.
    + destruct Hpx as [<-|[<-|[<-|[<-|[]]]]]; lra.
    + destruct Hpx as [<-|[<-|[<-|[<-|[]]]]]; lra.
    + destruct Hpy as [<-|[<-|[<-|[<-|[]]]]]; lra.
    + destruct Hpy as [<-|[<-|[<-|[<-|[]]]]]; lra.
  - destruct (avg_between _ _ Hx01), (avg_between _ _ Hx23),
      (avg_between _ _ Hy01), (avg_between _ _ Hy23).
    repeat split; try assumption; now apply avg_le.
Qed.

(** ** The index shift of [import_csv] *)

Lemma take_rows_nat (points : list point) (js : list nat) :
  Forall (fun j => j < length points) js ->
  exists rows,
    take_rows points (map Z.of_nat js) = Some rows /\
    length rows = length js /\
    forall i j, js !! i = Some j -> rows !! i = points !! j.
Proof.
  induction 1 as [|j js Hj Hall (rows & Hrows & Hlen & Hlook)]; simpl.
  - exists []. repeat split; auto. intros i j Hi. discriminate.
  - rewrite (np_index_nat _ _ Hj).
    destruct (lookup_lt_is_Some_2 points j Hj) as [p Hp]. rewrite Hp, Hrows.
    exists (p :: rows). split; [reflexivity|]. split; [simpl; lia|].
    intros [|i] j' Hi; simpl in *.
    + injection Hi as <-. now rewrite Hp.
    + now apply Hlook.
Qed.

Lemma shifted_indices_nat (size start : nat) :
  0 < size ->
  shifted_indices size start =
  map Z.of_nat (map (fun i => (i + start + size - 1) mod size) (seq 0 size)).
Proof.
  intros Hsize. unfold shifted_indices. rewrite map_map. apply map_ext. intros i.
  rewrite Nat2Z.inj_mod.
  replace (Z.of_nat (i + start + size - 1))
    with (Z.of_nat i + Z.of_nat start - 1 + 1 * Z.of_nat size)%Z by lia.
  now rewrite Z_mod_plus_full.
Qed.

Lemma argmin_from_spec (v : list Q) :
  forall (pre : list Q) (best_i : nat) (best : Q),
  pre !! best_i = Some best ->
  (forall j y, pre !! j = Some y -> (best <= y)%Q) ->
  (forall j y, j < best_i -> pre !! j = Some y -> (best < y)%Q) ->
  exists x,
    (pre ++ v) !! argmin_from best_i best (length pre) v = Some x /\
    (forall j y, (pre ++ v) !! j = Some y -> (x <= y)%Q) /\
    (forall j y, j < argmin_from best_i best (length pre) v ->
                 (pre ++ v) !! j = Some y -> (x < y)%Q).
Proof.
  induction v as [|x v IH]; intros pre best_i best Hbest Hmin Hfirst.
  - simpl. rewrite app_nil_r. exists best. auto.
  - simpl argmin_from.
    replace (pre ++ x :: v) with ((pre ++ [x]) ++ v) by now rewrite <- app_assoc.
    replace (S (length pre)) with (length (pre ++ [x])) by (rewrite length_app; simpl; lia).
    assert (Hsnoc : forall j y, (pre ++ [x]) !! j = Some y ->
                      (j < length pre /\ pre !! j = Some y) \/ (j = length pre /\ y = x)).
    { intros j y Hj. destruct (Nat.lt_ge_cases j (length pre)) as [Hlt|Hge].
      - left. rewrite lookup_app_l in Hj by exact Hlt. auto.
      - right. rewrite lookup_app_r in Hj by exact Hge.
        destruct (j - length pre) as [|m] eqn:Hm; simpl in Hj; [|discriminate].
        injection Hj as <-. split; [lia|reflexivity]. }
    destruct (Qltb x best) eqn:Hcmp.
    + apply Qltb_lt in Hcmp. apply IH.
      * rewrite lookup_app_r by lia. now rewrite Nat.sub_diag.
      * intros j y Hj. destruct (Hsnoc j y Hj) as [[_ Hpre]|[_ ->]]; [|apply Qle_refl].
        apply Qlt_le_weak. eapply Qlt_le_trans; [exact Hcmp|]. eapply Hmin; exact Hpre.
      * intros j y Hlt Hj. destruct (Hsnoc j y Hj) as [[_ Hpre]|[-> _]]; [|lia].
        eapply Qlt_le_trans; [exact Hcmp|]. eapply Hmin; exact Hpre.
    + assert (Hle : (best <= x)%Q).
      { destruct (Qlt_le_dec x best) as [Hlt|Hle]; [|exact Hle].
        apply Qltb_lt in Hlt. congruence. }
      pose proof (lookup_lt_Some _ _ _ Hbest) as Hbi.
      apply IH.
      * rewrite lookup_app_l by exact Hbi. exact Hbest.
      * intros j y Hj. destruct (Hsnoc j y Hj) as [[_ Hpre]|[_ ->]]; [|exact Hle].
        eapply Hmin; exact Hpre.
      * intros j y Hlt Hj. destruct (Hsnoc j y Hj) as [[_ Hpre]|[-> _]]; [|lia].
        eapply Hfirst; [exact Hlt|exact Hpre].
Qed.

(** [np.argmin] returns the index of the first minimum. *)
Lemma argmin_spec (v : list Q) :
  v <> [] ->
  exists k x,
    argmin v = Some k /\ v !! k = Some x /\
    (forall j y, v !! j = Some y -> (x <= y)%Q) /\
    (forall j y, j < k -> v !! j = Some y -> (x < y)%Q).
Proof.
  destruct v as [|x0 v]; [congruence|]. intros _.
  destruct (argmin_from_spec v [x0] 0 x0) as (x & Hx & Hmin & Hfirst).
  - reflexivity.
  - intros [|j] y Hj; simpl in Hj; [|discriminate]. injection Hj as <-. apply Qle_refl.
  - intros j y Hj. lia.
  - exists (argmin_from 0 x0 1 v), x. simpl in *. auto.
Qed.

Lemma shift_points_run (points : list point) :
  points <> [] ->
  exists start_index res,
    argmin (map (fun p => Qabs (px p - mean (map px points))) points) = Some start_index /\
    start_index < length points /\
    shift_points points = Some res /\
    length res = length points /\
    forall i, i < length points ->
      res !! i = points !! ((i + start_index + length points - 1) mod length points).
Proof.
  intros Hne.
  assert (Hsize : 0 < length points) by (destruct points; [congruence|simpl; lia]).
  destruct (argmin_spec (map (fun p => Qabs (px p - mean (map px points))) points))
    as (k & x & Harg & Hk & _).
  { destruct points; [congruence|discriminate]. }
  apply lookup_lt_Some in Hk. rewrite length_map in Hk.
  destruct (take_rows_nat points
              (map (fun i => (i + k + length points - 1) mod length points)
                   (seq 0 (length points))))
    as (rows & Hrows & Hlen & Hlook).
  { apply List.Forall_forall. intros j Hj. apply in_map_iff in Hj.
    destruct Hj as (i & <- & _). apply Nat.mod_upper_bound. lia. }
  exists k, rows. split; [exact Harg|]. split; [exact Hk|].
  split; [|split].
  - unfold shift_points. rewrite Harg, shifted_indices_nat by exact Hsize. exact Hrows.
  - now rewrite Hlen, length_map, length_seq.
  - intros i Hi. apply Hlook. rewrite list_lookup_fmap, lookup_seq_lt by exact Hi.
    reflexivity.
Qed.

(** X22. On a non-empty array, the index shift of [import_csv] is a
    rotation: the rows from [(start_index - 1) mod n] to the end,
    followed by the rows before.  It keeps every row, as many times as
    it occurs. *)
Theorem shift_points_rotates (points : list point) :
  points <> [] ->
  exists start_index res,
    argmin (map (fun p => Qabs (px p - mean (map px points))) points) = Some start_index /\
    shift_points points = Some res /\
    res = drop ((start_index + length points - 1) mod length points) points ++
          take ((start_index + length points - 1) mod length points) points /\
    Permutation res points.
Proof.
  intros Hne.
  destruct (shift_points_run points Hne) as (k & res & Harg & Hk & Hrun & Hlen & Hlook).
  exists k, res. split; [exact Harg|]. split; [exact Hrun|].
  assert (Hrot : res = rotate (k + length points - 1) points).
  { apply list_eq. intros i.
    destruct (Nat.lt_ge_cases i (length points)) as [Hi|Hi].
    - rewrite Hlook, lookup_rotate_r by exact Hi. f_equal.
      unfold rotate_nat_add. rewrite <- Nat2Z.inj_add, <- Nat2Z.inj_mod, Nat2Z.id.
      f_equal. lia.
    - rewrite !lookup_ge_None_2; [reflexivity| |]; [rewrite length_rotate|]; lia. }
  split; [exact Hrot|].
  rewrite Hrot. unfold rotate. rewrite Permutation_app_comm. now rewrite take_drop.
Qed.

(** X23. The shift starts the array one row before the first of the
    points whose x is closest to the mean x: with at least two rows,
    that point is the second row of the result, and its predecessor in
    the array (the last row, for index [0]) is the first. *)
Theorem shift_points_closest_is_second (points : list point) :
  2 <= length points ->
  exists start_index res closest,
    shift_points points = Some res /\
    points !! start_index = Some closest /\
    res !! 1 = Some closest /\
    res !! 0 = points !! ((start_index + length points - 1) mod length points) /\
    (forall j q, points !! j = Some q ->
       (Qabs (px closest - mean (map px points)) <= Qabs (px q - mean (map px points)))%Q) /\
    (forall j q, j < start_index -> points !! j = Some q ->
       (Qabs (px closest - mean (map px points)) < Qabs (px q - mean (map px points)))%Q).
Proof.
  intros Hn.
  assert (Hne : points <> []) by (destruct points; [simpl in Hn; lia|discriminate]).
  destruct (shift_points_run points Hne) as (k & res & Harg & Hk & Hrun & Hlen & Hlook).
  destruct (argmin_spec (map (fun p => Qabs (px p - mean (map px points))) points))
    as (k' & x & Harg' & Hx & Hmin & Hfirst).
  { destruct points; [congruence|discriminate]. }
  assert (k' = k) as -> by congruence.
  rewrite list_lookup_fmap in Hx.
  destruct (points !! k) as [closest|] eqn:Hclosest; [|discriminate].
  simpl in Hx. injection Hx as <-.
  exists k, res, closest. split; [exact Hrun|]. split; [exact Hclosest|].
  split; [|split; [|split]].
  - rewrite Hlook by lia. rewrite <- Hclosest. f_equal.
    replace (1 + k + length points - 1) with (k + 1 * length points) by lia.
    rewrite Nat.Div0.mod_add. now apply Nat.mod_small.
  - rewrite Hlook by lia. reflexivity.
  - intros j q Hq. apply (Hmin j). now rewrite list_lookup_fmap, Hq.
  - intros j q Hj Hq. apply (Hfirst j); [exact Hj|]. now rewrite list_lookup_fmap, Hq.
Qed.

(** ** The theorems of this part at concrete inputs *)

Lemma segment_only_adds_range_keys_witness :
  length [0; 1; 4]%Q = 3 /\
  exists path st',
    ExactFit.segment 3 1 [0; 1; 4]%Q ExactFit.start_caches = Some (path, st') /\
    (forall key p, parabola_cache _ ExactFit.start_caches !! key = Some p ->
                   parabola_cache _ st' !! key = Some p) /\
    (forall key v, mse_cache _ ExactFit.start_caches !! key = Some v ->
                   mse_cache _ st' !! key = Some v) /\
    (forall s e, parabola_cache _ ExactFit.start_caches !! (s, e) = None ->
                 is_Some (parabola_cache _ st' !! (s, e)) -> s + 3 <= e /\ e <= 3) /\
    (forall s e, mse_cache _ ExactFit.start_caches !! (s, e) = None ->
                 is_Some (mse_cache _ st' !! (s, e)) -> s + 3 <= e /\ e <= 3).
Proof.
  split; [reflexivity|].
  apply (segment_only_adds_range_keys ExactFit.parab ExactFit.polyfit2 ExactFit.sum_sq
           3 1 [0; 1; 4]%Q ExactFit.start_caches). reflexivity.
Defined.

Lemma segment_caches_every_range_witness :
  length [0; 1; 4]%Q = 3 /\ 1 <= 1 /\
  exists path st',
    ExactFit.segment 3 1 [0; 1; 4]%Q ExactFit.start_caches = Some (path, st') /\
    (forall s e, is_Some (parabola_cache _ st' !! (s, e)) <->
                 is_Some (parabola_cache _ ExactFit.start_caches !! (s, e)) \/
                 (s + 3 <= e /\ e <= 3)) /\
    (forall s e, is_Some (mse_cache _ st' !! (s, e)) <->
                 is_Some (mse_cache _ ExactFit.start_caches !! (s, e)) \/
                 (s + 3 <= e /\ e <= 3)).
Proof.
  split; [reflexivity|]. split; [lia|].
  apply (segment_caches_every_range ExactFit.parab ExactFit.polyfit2 ExactFit.sum_sq
           3 1 [0; 1; 4]%Q ExactFit.start_caches); [reflexivity|lia].
Defined.

Lemma later_call_ignores_its_signal_witness :
  length [0; 0; 0; 0; 1; 0; 0]%Q = 7 /\ 1 <= 2 /\ 7 <= 7 /\
  exists path0 st1 path,
    ExactFit.segment 7 2 [0; 0; 0; 0; 1; 0; 0]%Q ExactFit.start_caches = Some (path0, st1) /\
    ExactFit.segment 7 2 [0; 0; 1; 0; 0; 0; 0]%Q st1 = Some (path, st1) /\
    ExactFit.segment 7 2 [5; 1; 7; 2; 8; 3; 9]%Q st1 = Some (path, st1).
Proof.
  split; [reflexivity|]. split; [lia|]. split; [lia|].
  apply (later_call_ignores_its_signal ExactFit.parab ExactFit.polyfit2 ExactFit.sum_sq
           7 2 [0; 0; 0; 0; 1; 0; 0]%Q ExactFit.start_caches 7 2
           [0; 0; 1; 0; 0; 0; 0]%Q [5; 1; 7; 2; 8; 3; 9]%Q); [reflexivity|lia|lia].
Defined.

Lemma segment_table_is_optimum_witness :
  length [0; 1; 0; 2; 0; 3]%Q = 6 /\ 2 <= 2 /\ 6 <= 6 /\
  exists D P st' c i,
    ExactFit.segment_tables 6 2 [0; 1; 0; 2; 0; 3]%Q ExactFit.start_caches
      = Some ((D, P), st') /\
    get2 D 6 2 = Some c /\
    get2 P 6 2 = Some i /\
    (forall cuts, length cuts = 2 -> last_end cuts = 6 -> admitted cuts ->
       cle c (Fin (cuts_cost (ExactFit.residual ExactFit.start_caches
                                [0; 1; 0; 2; 0; 3]%Q) cuts))) /\
    (is_fin c ->
       exists cuts, length cuts = 2 /\ last_end cuts = 6 /\ admitted cuts /\
                    c = Fin (cuts_cost (ExactFit.residual ExactFit.start_caches
                                          [0; 1; 0; 2; 0; 3]%Q) cuts) /\
                    (1 <= 2 -> i = Z.of_nat (last_end (tl cuts)))).
Proof.
  split; [reflexivity|]. split; [lia|]. split; [lia|].
  apply (segment_table_is_optimum ExactFit.parab ExactFit.polyfit2 ExactFit.sum_sq
           6 2 [0; 1; 0; 2; 0; 3]%Q ExactFit.start_caches 2 6); [reflexivity|lia|lia].
Defined.

Lemma footprint_from_two_points_witness :
  2 <= length [(0, 0, 1); (4, 2, 3)]%Q /\
  exists left right lower upper st',
    footprint ExactFit.parab ExactFit.polyfit2 ExactFit.sum_sq
      [(0, 0, 1); (4, 2, 3)]%Q ExactFit.start_caches =
      Some ([(left, lower); (right, lower); (right, upper); (left, upper)], st') /\
    (left <= right)%Q /\ (lower <= upper)%Q.
Proof.
  split; [simpl; lia|].
  apply (footprint_from_two_points ExactFit.parab ExactFit.polyfit2 ExactFit.sum_sq
           [(0, 0, 1); (4, 2, 3)]%Q ExactFit.start_caches). simpl. lia.
Defined.

Lemma footprint_raises_below_two_points_witness :
  length [(0, 0, 1)]%Q <= 1 /\
  footprint ExactFit.parab ExactFit.polyfit2 ExactFit.sum_sq
    [(0, 0, 1)]%Q ExactFit.start_caches = None.
Proof.
  split; [simpl; lia|].
  apply (footprint_raises_below_two_points ExactFit.parab ExactFit.polyfit2 ExactFit.sum_sq
           [(0, 0, 1)]%Q ExactFit.start_caches). simpl. lia.
Defined.

Lemma distances_of_signal_witness :
  let points : list point := [(0, 0, 1); (4, 2, 3)]%Q in
  points !! 1 = Some (4, 2, 3)%Q /\
  length (distances_of points) = length points /\
  exists v, distances_of points !! 1 = Some v /\
            v = euc_dist (4, 2)%Q (c_mean points) /\ (0 <= v)%Q.
Proof.
  intros points. split; [reflexivity|].
  apply (distances_of_signal points 1 (4, 2, 3)%Q). reflexivity.
Defined.

Lemma ransac_no_estimate_without_threshold_witness :
  let points : list point := [(0, 0, 1); (0, 0, 5)]%Q in
  points <> [] /\ (0 <= 0)%Q /\
  ransac_z_fit (fun j => j) points 3 0 = Some (None, 0).
Proof.
  intros points.
  assert (Hne : points <> []) by discriminate.
  assert (Ht : (0 <= 0)%Q) by (unfold Qle; simpl; lia).
  split; [exact Hne|]. split; [exact Ht|].
  apply (ransac_no_estimate_without_threshold (fun j => j) points 3 0 Hne Ht).
Defined.

Lemma ransac_raises_on_empty_array_witness :
  1 <= 3 /\ ransac_z_fit (fun j => j) [] 3 (1 # 2) = None.
Proof.
  split; [lia|]. apply (ransac_raises_on_empty_array (fun j => j) 3 (1 # 2)). lia.
Defined.

Lemma ransac_more_iterations_witness :
  let points : list point := [(0, 0, 1); (0, 0, 5); (0, 0, 5)]%Q in
  points <> [] /\
  exists z1 c1 z2 c2,
    ransac_z_fit (fun j => j) points 1 (1 # 2) = Some (z1, c1) /\
    ransac_z_fit (fun j => j) points (1 + 1) (1 # 2) = Some (z2, c2) /\
    c1 <= c2 /\ c2 <= length points /\
    (c1 = c2 -> z1 = z2).
Proof.
  intros points.
  assert (Hne : points <> []) by discriminate.
  split; [exact Hne|].
  apply (ransac_more_iterations (fun j => j) points 1 1 (1 # 2) Hne).
Defined.

Lemma ransac_threshold_monotone_witness :
  let points : list point := [(0, 0, 1); (0, 0, 2); (0, 0, 5)]%Q in
  points <> [] /\ (1 # 2 <= 3 # 2)%Q /\
  exists z1 c1 z2 c2,
    ransac_z_fit (fun j => j) points 2 (1 # 2) = Some (z1, c1) /\
    ransac_z_fit (fun j => j) points 2 (3 # 2) = Some (z2, c2) /\
    c1 <= c2.
Proof.
  intros points.
  assert (Hne : points <> []) by discriminate.
  assert (Ht : (1 # 2 <= 3 # 2)%Q) by (unfold Qle; simpl; lia).
  split; [exact Hne|]. split; [exact Ht|].
  apply (ransac_threshold_monotone (fun j => j) points 2 (1 # 2) (3 # 2) Hne Ht).
Defined.

Lemma estimate_heights_ordered_witness :
  let points : list point := [(0, 0, 1); (4, 2, 3); (1, 1, 2)]%Q in
  points_below (median_z points) points <> [] /\
  points_above (median_z points) points <> [] /\
  exists m floor_z ceiling_z,
    median_z points = Some m /\
    estimate_heights (fun j => j) (fun j => j) points = Some (Some floor_z, Some ceiling_z) /\
    (floor_z < m)%Q /\ (m < ceiling_z)%Q /\ (floor_z < ceiling_z)%Q.
Proof.
  intros points.
  assert (Hb : points_below (median_z points) points <> []) by (vm_compute; discriminate).
  assert (Ha : points_above (median_z points) points <> []) by (vm_compute; discriminate).
  split; [exact Hb|]. split; [exact Ha|].
  apply (estimate_heights_ordered (fun j => j) (fun j => j) points Hb Ha).
Defined.

Lemma estimate_heights_raises_on_flat_cloud_witness :
  let points : list point := [(0, 0, 1); (4, 2, 1)]%Q in
  (forall p q, In p points -> In q points -> (pz p == pz q)%Q) /\
  points_below (median_z points) points = [] /\
  points_above (median_z points) points = [] /\
  estimate_heights (fun j => j) (fun j => j) points = None.
Proof.
  intros points.
  assert (Hflat : forall p q, In p points -> In q points -> (pz p == pz q)%Q).
  { intros p q [<-|[<-|[]]] [<-|[<-|[]]]; reflexivity. }
  split; [exact Hflat|].
  apply (estimate_heights_raises_on_flat_cloud (fun j => j) (fun j => j) points Hflat).
Defined.

Lemma rectangle_within_rows_witness :
  let rows : list point := [(2, 2, 2); (4, 1, 2); (5, 6, 1); (1, 5, 3)]%Q in
  length rows = 4 /\
  exists left right lower upper p_left p_right p_low p_up,
    rectangle rows = Some [(left, lower); (right, lower); (right, upper); (left, upper)] /\
    In p_left rows /\ In p_right rows /\ In p_low rows /\ In p_up rows /\
    (forall p, In p rows ->
       (px p_left <= px p)%Q /\ (px p <= px p_right)%Q /\
       (py p_low <= py p)%Q /\ (py p <= py p_up)%Q) /\
    (px p_left <= left)%Q /\ (left <= right)%Q /\ (right <= px p_right)%Q /\
    (py p_low <= lower)%Q /\ (lower <= upper)%Q /\ (upper <= py p_up)%Q.
Proof.
  intros rows. split; [reflexivity|].
  apply (rectangle_within_rows rows). reflexivity.
Defined.

Lemma shift_points_rotates_witness :
  let points : list point := [(5, 0, 1); (1, 2, 3); (3, 1, 2); (9, 4, 1)]%Q in
  points <> [] /\
  exists start_index res,
    argmin (map (fun p => Qabs (px p - mean (map px points))) points) = Some start_index /\
    shift_points points = Some res /\
    res = drop ((start_index + length points - 1) mod length points) points ++
          take ((start_index + length points - 1) mod length points) points /\
    Permutation res points.
Proof.
  intros points.
  assert (Hne : points <> []) by discriminate.
  split; [exact Hne|].
  apply (shift_points_rotates points Hne).
Defined.

Lemma shift_points_closest_is_second_witness :
  let points : list point := [(5, 0, 1); (1, 2, 3); (3, 1, 2); (9, 4, 1)]%Q in
  2 <= length points /\
  exists start_index res closest,
    shift_points points = Some res /\
    points !! start_index = Some closest /\
    res !! 1 = Some closest /\
    res !! 0 = points !! ((start_index + length points - 1) mod length points) /\
    (forall j q, points !! j = Some q ->
       (Qabs (px closest - mean (map px points)) <= Qabs (px q - mean (map px points)))%Q) /\
    (forall j q, j < start_index -> points !! j = Some q ->
       (Qabs (px closest - mean (map px points)) < Qabs (px q - mean (map px points)))%Q).
Proof.
  intros points.
  assert (Hn : 2 <= length points) by (simpl; lia).
  split; [exact Hn|].
  apply (shift_points_closest_is_second points Hn).
Defined.

Lemma segment_raises_on_short_signal_witness :
  1 <= 1 /\ 3 <= 5 /\ length [0; 1; 4]%Q < 5 /\
  parabola_cache ExactFit.parab ExactFit.start_caches !! (0, Nat.max 3 (length [0; 1; 4]%Q + 1))
    = None /\
  ExactFit.segment 5 1 [0; 1; 4]%Q ExactFit.start_caches = None.
Proof.
  split; [lia|]. split; [lia|]. split; [simpl; lia|]. split; [reflexivity|].
  apply (segment_raises_on_short_signal ExactFit.parab ExactFit.polyfit2 ExactFit.sum_sq
           5 1 [0; 1; 4]%Q ExactFit.start_caches); [lia|lia|simpl; lia|reflexivity].
Defined.

(** * The code with residuals that need not be finite *)

(** ** The recurrence of [Py.segment] *)

Section PyRecurrenceFacts.

Variable r : nat -> nat -> cost.

Lemma py_dp_unwritten (l e : nat) : e < l -> PyRec.dp r l e = (Inf, (-1)%Z).
Proof.
  intros Hlt. destruct l as [|l]; [lia|]. simpl.
  destruct (Nat.ltb_spec e (S l)); [reflexivity|lia].
Qed.

(** A scan leaves [-1] in [min_index], or a start that leaves three
    points. *)
Lemma py_scan_range (prev : nat -> cost) (e : nat) (starts : list nat) (acc : cost * Z) :
  (snd acc = (-1)%Z \/ (0 <= snd acc <= Z.of_nat e - 3)%Z) ->
  snd (fold_left (PyRec.cand_step r prev e) starts acc) = (-1)%Z \/
  (0 <= snd (fold_left (PyRec.cand_step r prev e) starts acc) <= Z.of_nat e - 3)%Z.
Proof.
  revert acc. induction starts as [|s starts IH]; intros acc Hacc; [exact Hacc|].
  simpl. apply IH. unfold PyRec.cand_step.
  destruct (Nat.ltb_spec (e - s) 3) as [Hshort|Hlong]; [exact Hacc|].
  destruct (cltb _ _); [|exact Hacc].
  right. simpl. lia.
Qed.

Lemma py_dpP_range (l e : nat) :
  PyRec.dpP r l e = (-1)%Z \/ (0 <= PyRec.dpP r l e <= Z.of_nat e - 3)%Z.
Proof.
  unfold PyRec.dpP. destruct l as [|l]; [now left|]. simpl.
  destruct (e <? S l); [now left|].
  apply py_scan_range. now left.
Qed.

Lemma py_dpP_in_table (n e l : nat) :
  e <= n -> (-1 <= PyRec.dpP r l e <= Z.of_nat n)%Z.
Proof. intros He. destruct (py_dpP_range l e); lia. Qed.

(** A start whose predecessor is [inf] never replaces [min_dist]. *)
Lemma py_scan_skips (prev : nat -> cost) (e : nat) (starts : list nat) (acc : cost * Z) :
  (forall s, In s starts -> 3 <= e - s -> prev s = Inf) ->
  fold_left (PyRec.cand_step r prev e) starts acc = acc.
Proof.
  revert acc. induction starts as [|s starts IH]; intros acc Hinf; [reflexivity|].
  simpl. rewrite IH by (intros s' Hs'; apply Hinf; now right).
  unfold PyRec.cand_step.
  destruct (Nat.ltb_spec (e - s) 3) as [Hshort|Hlong]; [reflexivity|].
  rewrite (Hinf s (or_introl eq_refl) Hlong). reflexivity.
Qed.

(** Below [min_points l] points, every start that leaves three points
    has an infinite predecessor, whatever the residuals. *)
Lemma py_dp_infeasible (l : nat) :
  forall e, e < min_points l -> PyRec.dp r l e = (Inf, (-1)%Z).
Proof.
  induction l as [|l IH]; intros e He; [simpl in He; lia|].
  destruct (Nat.lt_ge_cases e (S l)) as [Hlt|Hge]; [now apply py_dp_unwritten|].
  simpl PyRec.dp. destruct (Nat.ltb_spec e (S l)); [lia|].
  unfold PyRec.scan. apply py_scan_skips.
  intros s Hs Hs3. apply in_seq in Hs. rewrite IH; [reflexivity|].
  simpl in He. lia.
Qed.

(** A scan leaves [(inf, -1)], or a finite sum with a start. *)
Lemma py_scan_found (prev : nat -> cost) (e : nat) (starts : list nat) (acc : cost * Z) :
  (acc = (Inf, (-1)%Z) \/ (is_fin (fst acc) /\ (0 <= snd acc)%Z)) ->
  fold_left (PyRec.cand_step r prev e) starts acc = (Inf, (-1)%Z) \/
  (is_fin (fst (fold_left (PyRec.cand_step r prev e) starts acc)) /\
   (0 <= snd (fold_left (PyRec.cand_step r prev e) starts acc))%Z).
Proof.
  revert acc. induction starts as [|s starts IH]; intros acc Hacc; [exact Hacc|].
  simpl. apply IH. unfold PyRec.cand_step.
  destruct (e - s <? 3); [exact Hacc|].
  destruct (cltb _ _) eqn:Hcmp; [|exact Hacc].
  right. simpl. split; [|lia].
  apply cltb_clt in Hcmp. eapply clt_fin. exact Hcmp.
Qed.

(** From layer [1] on, [D] is [inf] exactly where [P] is [-1]. *)
Lemma py_dp_inf_iff (l e : nat) :
  1 <= l -> (PyRec.dpD r l e = Inf <-> PyRec.dpP r l e = (-1)%Z).
Proof.
  intros Hl. unfold PyRec.dpD, PyRec.dpP. destruct l as [|l]; [lia|]. simpl.
  destruct (e <? S l); [simpl; tauto|].
  destruct (py_scan_found (fun s => fst (PyRec.dp r l s)) e (seq 0 (e - S l + 1)) (Inf, (-1)%Z))
    as [Hnone|[Hfin Hpos]]; [now left| |].
  - unfold PyRec.scan. rewrite Hnone. simpl. tauto.
  - unfold PyRec.scan.
    destruct (fold_left _ _ _) as [c i]. simpl in *.
    destruct c; [|destruct Hfin]. split; [discriminate|lia].
Qed.

(** One segment: the only start with a finite predecessor is [0], and it
    is recorded when its residual is finite. *)
Lemma py_dp_one (e : nat) :
  3 <= e ->
  PyRec.dp r 1 e =
    match r 0 e with
    | Fin q => (Fin (0 + q), 0%Z)
    | Inf => (Inf, (-1)%Z)
    end.
Proof.
  intros He. simpl.
  destruct (Nat.ltb_spec e 1); [lia|].
  replace (e - 1 + 1) with (S (e - 1)) by lia.
  unfold PyRec.scan. cbn [seq fold_left].
  rewrite <- seq_shift, py_scan_skips.
  - unfold PyRec.cand_step. destruct (Nat.ltb_spec (e - 0) 3); [lia|].
    simpl. destruct (r 0 e); reflexivity.
  - intros s Hs _. apply in_map_iff in Hs. destruct Hs as (s' & <- & _). reflexivity.
Qed.

End PyRecurrenceFacts.

(** ** [Py.segment] computes the recurrence *)

Section PyFacts.

Variable parab : Type.
Variable polyfit2 : list Z -> list Q -> parab.
Variable sum_sq : list Q -> list Z -> parab -> cost.

Local Abbreviation caches := (Py.caches parab).
Local Abbreviation residual := (Py.residual parab polyfit2 sum_sq).
Local Abbreviation generate_parab := (Py.generate_parab parab polyfit2).
Local Abbreviation MSE := (Py.MSE parab sum_sq).
Local Abbreviation start_step := (Py.start_step parab polyfit2 sum_sq).
Local Abbreviation end_step := (Py.end_step parab polyfit2 sum_sq).
Local Abbreviation length_step := (Py.length_step parab polyfit2 sum_sq).
Local Abbreviation segment_tables := (Py.segment_tables parab polyfit2 sum_sq).
Local Abbreviation segment := (Py.segment parab polyfit2 sum_sq).

(** On a range of the signal that is not empty, neither the fit nor its
    residual raises: the pair returns [residual], and leaves [residual]
    as it was for every key. *)
Lemma py_residual_run (st : caches) (d : list Q) (s e : nat) :
  s < e -> e <= length d ->
  exists p st1 st2,
    generate_parab s e d st = Some (p, st1) /\
    MSE s e d p st1 = Some (residual st d s e, st2) /\
    forall s' e', residual st2 d s' e' = residual st d s' e'.
Proof.
  intros Hse He.
  pose proof (polyfit_in_signal d s e Hse He) as Hfit.
  pose proof (broadcasts_in_signal d s e He) as Hsub.
  unfold Py.generate_parab, Py.MSE, Py.residual.
  destruct (Py.parabola_cache parab st !! (s, e)) as [p|] eqn:Hp;
    destruct (Py.mse_cache parab st !! (s, e)) as [v|] eqn:Hv; simpl;
    rewrite ?Hfit, ?Hsub.
  - exists p, st, st. rewrite Hv. auto.
  - eexists p, st, _. rewrite Hv. split; [reflexivity|]. split; [reflexivity|].
    intros s' e'. simpl.
    destruct (decide ((s, e) = (s', e'))) as [Heq|Hne].
    + inversion Heq; subst. rewrite lookup_insert_eq, Hv, Hp. reflexivity.
    + rewrite lookup_insert_ne by exact Hne. reflexivity.
  - eexists _, _, _. split; [reflexivity|]. simpl. rewrite Hv.
    split; [reflexivity|].
    intros s' e'. simpl.
    destruct (decide ((s, e) = (s', e'))) as [Heq|Hne].
    + inversion Heq; subst. now rewrite Hv.
    + rewrite lookup_insert_ne by exact Hne. reflexivity.
  - eexists _, _, _. split; [reflexivity|]. simpl. rewrite Hv.
    split; [reflexivity|].
    intros s' e'. simpl.
    destruct (decide ((s, e) = (s', e'))) as [Heq|Hne].
    + inversion Heq; subst. rewrite lookup_insert_eq, Hv, Hp. reflexivity.
    + rewrite !lookup_insert_ne by exact Hne. reflexivity.
Qed.

Section PyRun.

Variable d : list Q.
Variable r : nat -> nat -> cost.

Local Abbreviation agrees := (Py.agrees parab polyfit2 sum_sq d r).

Lemma py_start_step_run (l e : nat) (D : table cost) (prev : nat -> cost)
    (acc : cost * Z) (s : nat) (st : caches) :
  e <= length d ->
  get2 D (Z.of_nat s) (Z.of_nat l - 1) = Some (prev s) ->
  agrees st ->
  exists st', start_step l e d D acc s st = Some (PyRec.cand_step r prev e acc s, st') /\
              agrees st'.
Proof.
  intros He Hget Hst. unfold Py.start_step, PyRec.cand_step.
  destruct (Nat.ltb_spec (e - s) 3) as [Hshort|Hlong];
    [exists st; split; [reflexivity|exact Hst]|].
  destruct (py_residual_run st d s e) as (p & st1 & st2 & Hgp & Hmse & Hres); [lia|exact He|].
  unfold Py.bind. rewrite Hgp, Hmse. unfold Py.lift. rewrite Hget.
  rewrite (Hst s e).
  exists st2. split.
  - destruct (cltb _ _); reflexivity.
  - intros s' e'. rewrite Hres. apply Hst.
Qed.

Lemma py_start_loop_run (l e : nat) (D : table cost) (prev : nat -> cost)
    (starts : list nat) :
  e <= length d ->
  (forall s, In s starts -> get2 D (Z.of_nat s) (Z.of_nat l - 1) = Some (prev s)) ->
  forall (acc : cost * Z) (st : caches),
  agrees st ->
  exists st', Py.foldM parab (start_step l e d D) acc starts st
                = Some (fold_left (PyRec.cand_step r prev e) starts acc, st') /\
              agrees st'.
Proof.
  intros He. induction starts as [|s starts IH]; intros Hget acc st Hst.
  - exists st. split; [reflexivity|exact Hst].
  - destruct (py_start_step_run l e D prev acc s st) as (st1 & Hrun & Hst1);
      [exact He | apply Hget; now left | exact Hst |].
    destruct (IH (fun s' Hs' => Hget s' (or_intror Hs')) (PyRec.cand_step r prev e acc s) st1 Hst1)
      as (st2 & Hrun2 & Hst2).
    exists st2. split; [|exact Hst2].
    simpl. unfold Py.bind at 1. rewrite Hrun. exact Hrun2.
Qed.

Local Abbreviation tables_at := (PyRec.tables_at r).

Ltac cases :=
  repeat match goal with
  | |- context [?a <? ?b] => destruct (Nat.ltb_spec a b)
  | |- context [?a =? ?b] => destruct (Nat.eqb_spec a b)
  end; simpl; try reflexivity; try lia.

Lemma py_dp_step (l e : nat) :
  1 <= l -> l <= e ->
  PyRec.dp r l e = PyRec.scan r (fun s => fst (PyRec.dp r (l - 1) s)) e (seq 0 (e - l + 1)).
Proof.
  intros Hl Hle. destruct l as [|l]; [lia|]. simpl.
  destruct (Nat.ltb_spec e (S l)); [lia|].
  now rewrite Nat.sub_0_r.
Qed.

Lemma py_progress_next (l e e' l' : nat) :
  upd (PyRec.progress r l e) e l (PyRec.dp r l e) e' l' = PyRec.progress r l (e + 1) e' l'.
Proof.
  unfold upd, PyRec.progress, filled.
  destruct (Nat.eqb_spec e' e) as [->|Hne]; simpl.
  - destruct (Nat.eqb_spec l' l) as [->|Hnl]; simpl.
    + cases.
    + cases.
  - cases.
Qed.

Lemma py_end_step_run (n k l e : nat) (D : table cost) (P : table Z) (st : caches) :
  n <= length d ->
  1 <= l -> l <= k -> l <= e -> e <= n ->
  tables_at n k l e D P -> agrees st ->
  exists D' P' st',
    end_step l d (D, P) e st = Some ((D', P'), st') /\
    tables_at n k l (e + 1) D' P' /\ agrees st'.
Proof.
  intros Hd Hl Hlk Hle Hen [HD HP] Hst.
  destruct (py_start_loop_run l e D (fun s => fst (PyRec.dp r (l - 1) s)) (seq 0 (e - l + 1)))
    with (acc := (Inf, (-1)%Z)) (st := st) as (st1 & Hloop & Hst1).
  - lia.
  - intros s Hs. apply in_seq in Hs.
    replace (Z.of_nat l - 1)%Z with (Z.of_nat (l - 1)) by lia.
    rewrite (tab_is_get _ _ _ _ s (l - 1) HD) by lia.
    unfold PyRec.progress, filled.
    destruct (Nat.ltb_spec (l - 1) l); [reflexivity|lia].
  - exact Hst.
  - fold (PyRec.scan r (fun s => fst (PyRec.dp r (l - 1) s)) e (seq 0 (e - l + 1))) in Hloop.
    rewrite <- py_dp_step in Hloop by lia.
    destruct (tab_is_set _ _ _ _ e l (fst (PyRec.dp r l e)) HD) as (D' & HsetD & HD'); [lia|lia|].
    destruct (tab_is_set _ _ _ _ e l (snd (PyRec.dp r l e)) HP) as (P' & HsetP & HP'); [lia|lia|].
    exists D', P', st1. split; [|split; [split|exact Hst1]].
    + unfold Py.end_step, Py.bind. simpl fst. simpl snd. rewrite Hloop.
      unfold Py.lift. rewrite HsetD, HsetP. reflexivity.
    + eapply tab_is_ext; [exact HD'|]. intros i j _ _.
      rewrite <- py_progress_next. unfold upd. now destruct (_ && _).
    + eapply tab_is_ext; [exact HP'|]. intros i j _ _.
      rewrite <- py_progress_next. unfold upd. now destruct (_ && _).
Qed.

Lemma py_end_loop_run (n k l : nat) :
  n <= length d ->
  1 <= l -> l <= k ->
  forall (m e : nat) (D : table cost) (P : table Z) (st : caches),
  l <= e -> e + m <= n + 1 ->
  tables_at n k l e D P -> agrees st ->
  exists D' P' st',
    Py.foldM parab (end_step l d) (D, P) (seq e m) st = Some ((D', P'), st') /\
    tables_at n k l (e + m) D' P' /\ agrees st'.
Proof.
  intros Hd Hl Hlk. induction m as [|m IH]; intros e D P st Hle Hem Hinv Hst.
  - exists D, P, st. rewrite Nat.add_0_r. auto.
  - destruct (py_end_step_run n k l e D P st) as (D1 & P1 & st1 & Hrun & Hinv1 & Hst1);
      try assumption; try lia.
    destruct (IH (S e) D1 P1 st1) as (D2 & P2 & st2 & Hrun2 & Hinv2 & Hst2);
      try assumption; try lia.
    { now replace (S e) with (e + 1) by lia. }
    exists D2, P2, st2. split; [|split; [|exact Hst2]].
    + simpl. unfold Py.bind at 1. rewrite Hrun. exact Hrun2.
    + now replace (e + S m) with (S e + m) by lia.
Qed.

Lemma py_progress_layer (n l e e' l' : nat) :
  n + 1 <= e -> e' <= n ->
  PyRec.progress r l e e' l' = PyRec.progress r (l + 1) (l + 1) e' l'.
Proof.
  intros He He'. unfold PyRec.progress, filled.
  destruct (Nat.lt_total l' l) as [Hlt|[->|Hgt]].
  - cases.
  - cases.
  - destruct (Nat.eq_dec l' (l + 1)) as [->|Hne].
    + destruct (Nat.ltb_spec e' (l + 1)).
      * rewrite py_dp_unwritten by lia. cases.
      * cases.
    + cases.
Qed.

Lemma py_length_step_run (n k l : nat) (D : table cost) (P : table Z) (st : caches) :
  n <= length d ->
  1 <= l -> l <= k ->
  tables_at n k l l D P -> agrees st ->
  exists D' P' st',
    length_step n d (D, P) l st = Some ((D', P'), st') /\
    tables_at n k (l + 1) (l + 1) D' P' /\ agrees st'.
Proof.
  intros Hd Hl Hlk Hinv Hst.
  destruct (Nat.le_gt_cases l (n + 1)) as [Hin|Hout].
  - destruct (py_end_loop_run n k l Hd Hl Hlk (n + 1 - l) l D P st)
      as (D' & P' & st' & Hrun & [HD HP] & Hst'); try assumption; try lia.
    exists D', P', st'. split; [exact Hrun|]. split; [|exact Hst'].
    split; (eapply tab_is_ext; [eassumption|]); intros i j Hi Hj; simpl;
      now rewrite (py_progress_layer n l) by lia.
  - exists D, P, st. split; [|split; [|exact Hst]].
    + unfold Py.length_step. replace (n + 1 - l) with 0 by lia. reflexivity.
    + destruct Hinv as [HD HP].
      split; (eapply tab_is_ext; [eassumption|]); intros i j Hi Hj; simpl;
        now rewrite (py_progress_layer n l) by lia.
Qed.

Lemma py_length_loop_run (n k : nat) :
  n <= length d ->
  forall (m l : nat) (D : table cost) (P : table Z) (st : caches),
  1 <= l -> l + m <= k + 1 ->
  tables_at n k l l D P -> agrees st ->
  exists D' P' st',
    Py.foldM parab (length_step n d) (D, P) (seq l m) st = Some ((D', P'), st') /\
    tables_at n k (l + m) (l + m) D' P' /\ agrees st'.
Proof.
  intros Hd. induction m as [|m IH]; intros l D P st Hl Hlm Hinv Hst.
  - exists D, P, st. rewrite Nat.add_0_r. auto.
  - destruct (py_length_step_run n k l D P st) as (D1 & P1 & st1 & Hrun & Hinv1 & Hst1);
      try assumption; try lia.
    destruct (IH (l + 1) D1 P1 st1) as (D2 & P2 & st2 & Hrun2 & Hinv2 & Hst2);
      try assumption; try lia.
    exists D2, P2, st2. split; [|split; [|exact Hst2]].
    + simpl. unfold Py.bind at 1. rewrite Hrun.
      now replace (S l) with (l + 1) by lia.
    + now replace (l + S m) with (l + 1 + m) by lia.
Qed.

End PyRun.

(** On a signal of at least [n] values the loops of [Py.segment] do not
    raise, and fill [D] and [P] with the recurrence over the costs
    [residual st d]; the walk then returns [k] entries. *)
Lemma py_segment_run (n k : nat) (d : list Q) (st : caches) :
  n <= length d ->
  exists D P st',
    segment_tables n k d st = Some ((D, P), st') /\
    segment n k d st = Some (path_fun (fun e l => PyRec.dpP (residual st d) l e) n k, st') /\
    tab_is (n + 1) (k + 1) D (fun e l => PyRec.dpD (residual st d) l e) /\
    tab_is (n + 1) (k + 1) P (fun e l => PyRec.dpP (residual st d) l e).
Proof.
  intros Hd. set (r := residual st d).
  destruct (tab_is_set (n + 1) (k + 1) _ _ 0 0 (Fin 0) (tab_is_full (n + 1) (k + 1) Inf))
    as (D0 & Hset & HD0); [lia|lia|].
  destruct (py_length_loop_run d r n k Hd k 1 D0 (np_full (n + 1) (k + 1) (-1)%Z) st)
    as (D & P & st' & Hrun & [HD HP] & Hst'); try lia.
  - split.
    + eapply tab_is_ext; [exact HD0|]. intros i j Hi Hj.
      unfold upd, PyRec.progress, filled.
      destruct j as [|[|j]]; destruct i as [|i]; reflexivity.
    + eapply tab_is_ext; [apply tab_is_full|]. intros i j Hi Hj.
      unfold PyRec.progress, filled.
      destruct j as [|[|j]]; destruct i as [|i]; reflexivity.
  - intros s e. reflexivity.
  - assert (HD' : tab_is (n + 1) (k + 1) D (fun e l => PyRec.dpD r l e)).
    { eapply tab_is_ext; [exact HD|]. intros i j Hi Hj.
      unfold PyRec.progress, filled, PyRec.dpD.
      destruct (Nat.ltb_spec j (1 + k)); [reflexivity|lia]. }
    assert (HP' : tab_is (n + 1) (k + 1) P (fun e l => PyRec.dpP r l e)).
    { eapply tab_is_ext; [exact HP|]. intros i j Hi Hj.
      unfold PyRec.progress, filled, PyRec.dpP.
      destruct (Nat.ltb_spec j (1 + k)); [reflexivity|lia]. }
    assert (Htab : segment_tables n k d st = Some ((D, P), st')).
    { unfold Py.segment_tables, Py.bind, Py.lift.
      change (Z.of_nat 0) with 0%Z in Hset. rewrite Hset. exact Hrun. }
    exists D, P, st'. split; [exact Htab|]. split; [|split; [exact HD'|exact HP']].
    unfold Py.segment, Py.bind. rewrite Htab. simpl. unfold Py.lift.
    rewrite (reconstruct_run n k P _ HP'); [reflexivity|].
    intros e l He _. now apply py_dpP_in_table.
Qed.

(** C10 (amended). For every signal of length [n >= 3] and [k = 1]:
    when the residual of the whole range [[0, n)] is a finite float,
    [P[n][1] = 0] and [segment] returns the one-entry path [[-1]], which
    is not an index of the signal (it is not in [[0, n)]); when that
    residual is [inf] or [nan], the test [0 + mse < inf] fails,
    [D[n][1]] stays [+inf], [P[n][1]] stays [-1] and [segment] returns
    [[-2]]. *)
Theorem segment_one_segment_path_finite_residual (n : nat) (d : list Q) (st : caches) :
  length d = n -> 3 <= n ->
  exists D P st',
    segment_tables n 1 d st = Some ((D, P), st') /\
    (is_fin (residual st d 0 n) ->
       get2 P (Z.of_nat n) 1 = Some 0%Z /\
       segment n 1 d st = Some ([(-1)%Z], st') /\
       Forall (fun x => ~ (0 <= x < Z.of_nat n)%Z) [(-1)%Z]) /\
    (~ is_fin (residual st d 0 n) ->
       get2 D (Z.of_nat n) 1 = Some Inf /\
       get2 P (Z.of_nat n) 1 = Some (-1)%Z /\
       segment n 1 d st = Some ([(-2)%Z], st')).
Proof.
  intros Hlen Hn.
  destruct (py_segment_run n 1 d st) as (D & P & st' & Hrun & Hseg & HD & HP); [lia|].
  exists D, P, st'. split; [exact Hrun|].
  pose proof (py_dp_one (residual st d) n Hn) as Hdp.
  change 1%Z with (Z.of_nat 1).
  rewrite (tab_is_get _ _ _ _ n 1 HP), (tab_is_get _ _ _ _ n 1 HD) by lia.
  rewrite Hseg.
  change (path_fun (fun e l => PyRec.dpP (residual st d) l e) n 1)
    with [(PyRec.dpP (residual st d) 1 n - 1)%Z].
  unfold PyRec.dpD, PyRec.dpP. rewrite Hdp.
  destruct (residual st d 0 n) as [q|]; cbn [fst snd is_fin].
  - split; [|tauto]. intros _. split; [reflexivity|]. split; [reflexivity|].
    constructor; [lia|constructor].
  - split; [tauto|]. intros _. auto.
Qed.

(** X6. For a layer [l >= 1], [D[e][l]] is [+inf] whenever
    [e < min_points l], that is below [3, 6, 9, 13, 18, ...] points for
    [1, 2, 3, 4, 5, ...] segments, whatever the signal and whether its
    residuals are finite or not; and in every cell of these layers
    [P[e][l]] is [-1] exactly when [D[e][l]] is [+inf]. *)
Theorem segment_infeasible_below_min_points
    (n k : nat) (d : list Q) (st : caches) (l e : nat) :
  length d = n -> 1 <= l -> l <= k -> e <= n ->
  exists D P st' c i,
    segment_tables n k d st = Some ((D, P), st') /\
    get2 D (Z.of_nat e) (Z.of_nat l) = Some c /\
    get2 P (Z.of_nat e) (Z.of_nat l) = Some i /\
    (e < min_points l -> c = Inf) /\
    (c = Inf <-> i = (-1)%Z).
Proof.
  intros Hlen Hl Hlk He.
  destruct (py_segment_run n k d st) as (D & P & st' & Hrun & _ & HD & HP); [lia|].
  exists D, P, st', (PyRec.dpD (residual st d) l e), (PyRec.dpP (residual st d) l e).
  split; [exact Hrun|].
  split; [apply (tab_is_get _ _ _ _ e l HD); lia|].
  split; [apply (tab_is_get _ _ _ _ e l HP); lia|].
  split; [|now apply py_dp_inf_iff].
  intros Hlt. unfold PyRec.dpD. now rewrite py_dp_infeasible.
Qed.

(** X8. The cells of the tables do not depend on [n] and [k]: two calls
    from the same dictionaries on the same signal, of at least [n1] and
    [n2] values, fill every cell that both tables have with the same
    values. *)
Theorem segment_tables_cells_independent_of_size
    (n1 k1 n2 k2 : nat) (d : list Q) (st : caches) (l e : nat) :
  n1 <= length d -> n2 <= length d ->
  l <= k1 -> l <= k2 -> e <= n1 -> e <= n2 ->
  exists D1 P1 st1 D2 P2 st2 c i,
    segment_tables n1 k1 d st = Some ((D1, P1), st1) /\
    segment_tables n2 k2 d st = Some ((D2, P2), st2) /\
    get2 D1 (Z.of_nat e) (Z.of_nat l) = Some c /\
    get2 D2 (Z.of_nat e) (Z.of_nat l) = Some c /\
    get2 P1 (Z.of_nat e) (Z.of_nat l) = Some i /\
    get2 P2 (Z.of_nat e) (Z.of_nat l) = Some i.
Proof.
  intros Hd1 Hd2 Hl1 Hl2 He1 He2.
  destruct (py_segment_run n1 k1 d st Hd1) as (D1 & P1 & st1 & Hrun1 & _ & HD1 & HP1).
  destruct (py_segment_run n2 k2 d st Hd2) as (D2 & P2 & st2 & Hrun2 & _ & HD2 & HP2).
  exists D1, P1, st1, D2, P2, st2,
    (PyRec.dpD (residual st d) l e), (PyRec.dpP (residual st d) l e).
  split; [exact Hrun1|]. split; [exact Hrun2|].
  split; [apply (tab_is_get _ _ _ _ e l HD1); lia|].
  split; [apply (tab_is_get _ _ _ _ e l HD2); lia|].
  split; [apply (tab_is_get _ _ _ _ e l HP1); lia|].
  apply (tab_is_get _ _ _ _ e l HP2); lia.
Qed.

End PyFacts.

(** ** [segment] is [Py.segment] at finite residuals *)

Section FiniteResiduals.

Variable parab : Type.
Variable polyfit2 : list Z -> list Q -> parab.
Variable sum_sq : list Q -> list Z -> parab -> Q.

Local Abbreviation fin_sum_sq := (fun y x p => Fin (sum_sq y x p)).

Lemma generate_parab_lift (s e : nat) (d : list Q) (st : caches parab) :
  Py.generate_parab parab polyfit2 s e d (lift_caches st)
    = lift_run (generate_parab parab polyfit2 s e d st).
Proof.
  unfold Py.generate_parab, generate_parab. simpl.
  destruct (parabola_cache parab st !! (s, e)); [reflexivity|].
  destruct (polyfit_raises _ _); reflexivity.
Qed.

Lemma MSE_lift (s e : nat) (d : list Q) (p : parab) (st : caches parab) :
  Py.MSE parab fin_sum_sq s e d p (lift_caches st)
    = match MSE parab sum_sq s e d p st with
      | Some (v, st') => Some (Fin v, lift_caches st')
      | None => None
      end.
Proof.
  unfold Py.MSE, MSE. simpl. rewrite lookup_fmap.
  destruct (mse_cache parab st !! (s, e)); [reflexivity|]. simpl.
  destruct (broadcasts _ _); [|reflexivity].
  unfold lift_caches. simpl. now rewrite fmap_insert.
Qed.

Lemma foldM_lift {A B : Type} (F : A -> B -> Py.M parab A) (f : A -> B -> M parab A)
    (l : list B) :
  (forall a b st, In b l -> F a b (lift_caches st) = lift_run (f a b st)) ->
  forall a st, Py.foldM parab F a l (lift_caches st) = lift_run (foldM parab f a l st).
Proof.
  induction l as [|b l IH]; intros Hstep a st; [reflexivity|].
  simpl. unfold Py.bind, bind. rewrite Hstep by now left.
  destruct (f a b st) as [[a' st']|]; [|reflexivity]. simpl.
  apply IH. intros a0 b0 st0 Hb0. apply Hstep. now right.
Qed.

Lemma start_step_lift (l e : nat) (d : list Q) (D : table cost) (acc : cost * Z) (s : nat)
    (st : caches parab) :
  Py.start_step parab polyfit2 fin_sum_sq l e d D acc s (lift_caches st)
    = lift_run (start_step parab polyfit2 sum_sq l e d D acc s st).
Proof.
  unfold Py.start_step, start_step. destruct (e - s <? 3); [reflexivity|].
  unfold Py.bind, bind. rewrite generate_parab_lift.
  destruct (generate_parab parab polyfit2 s e d st) as [[p st1]|]; [|reflexivity]. simpl.
  rewrite MSE_lift.
  destruct (MSE parab sum_sq s e d p st1) as [[v st2]|]; [|reflexivity].
  unfold Py.lift, lift. destruct (get2 D _ _); [|reflexivity].
  destruct (cltb _ _); reflexivity.
Qed.

Lemma end_step_lift (l : nat) (d : list Q) (DP : table cost * table Z) (e : nat)
    (st : caches parab) :
  Py.end_step parab polyfit2 fin_sum_sq l d DP e (lift_caches st)
    = lift_run (end_step parab polyfit2 sum_sq l d DP e st).
Proof.
  unfold Py.end_step, end_step, Py.bind, bind.
  rewrite (foldM_lift _ (start_step parab polyfit2 sum_sq l e d (fst DP)))
    by (intros; apply start_step_lift).
  destruct (foldM parab _ _ _ st) as [[best st1]|]; [|reflexivity]. simpl.
  unfold Py.lift, lift. destruct (set2 (fst DP) _ _ _); [|reflexivity].
  destruct (set2 (snd DP) _ _ _); reflexivity.
Qed.

Lemma segment_tables_lift (n k : nat) (d : list Q) (st : caches parab) :
  Py.segment_tables parab polyfit2 fin_sum_sq n k d (lift_caches st)
    = lift_run (segment_tables parab polyfit2 sum_sq n k d st).
Proof.
  unfold Py.segment_tables, segment_tables, Py.bind, bind, Py.lift, lift.
  destruct (set2 _ 0 0 _); [|reflexivity].
  apply foldM_lift. intros DP len st0 _.
  unfold Py.length_step, length_step.
  apply foldM_lift. intros DP0 e st1 _. apply end_step_lift.
Qed.

(** With finite sums of squares, [Py.segment] is [segment]: the two
    run alike, on dictionaries that hold the same entries. *)
Lemma segment_lift (n k : nat) (d : list Q) (st : caches parab) :
  Py.segment parab polyfit2 fin_sum_sq n k d (lift_caches st)
    = lift_run (segment parab polyfit2 sum_sq n k d st).
Proof.
  unfold Py.segment, segment, Py.bind, bind. rewrite segment_tables_lift.
  destruct (segment_tables parab polyfit2 sum_sq n k d st) as [[DP st1]|]; [|reflexivity].
  simpl. unfold Py.lift, lift. destruct (reconstruct n k (snd DP)); reflexivity.
Qed.

End FiniteResiduals.

(** C10 (counterexample). The four points [1e200, 0, 0, 0] with [k = 1]:
    the residual of the least-squares parabola is [5e398], beyond the
    largest double, so that the sum of squares is [inf]; nothing is
    recorded in [P[4][1]] and the call returns [[-2]], not [[-1]]. *)
Lemma overflowing_signal_returns_minus_two :
  3 <= length [10 ^ 200; 0; 0; 0]%Q /\
  ExactFit.sum_sq [10 ^ 200; 0; 0; 0]%Q [0; 1; 2; 3]%Z
    (ExactFit.polyfit2 [0; 1; 2; 3]%Z [10 ^ 200; 0; 0; 0]%Q) == 5 * 10 ^ 398 /\
  OverflowFit.residual OverflowFit.start_caches [10 ^ 200; 0; 0; 0]%Q 0 4 = Inf /\
  OverflowFit.one_call 4 1 [10 ^ 200; 0; 0; 0]%Q = Some [(-2)%Z] /\
  OverflowFit.one_call 4 1 [10 ^ 200; 0; 0; 0]%Q <> Some [(-1)%Z].
Proof.
  split; [simpl; lia|]. split; [vm_compute; reflexivity|].
  split; [vm_compute; reflexivity|].
  assert (H : OverflowFit.one_call 4 1 [10 ^ 200; 0; 0; 0]%Q = Some [(-2)%Z])
    by (vm_compute; reflexivity).
  split; [exact H|]. rewrite H. discriminate.
Qed.

Lemma segment_one_segment_path_finite_residual_witness :
  length [0; 1; 4]%Q = 3 /\ 3 <= 3 /\
  is_fin (OverflowFit.residual OverflowFit.start_caches [0; 1; 4]%Q 0 3) /\
  exists D P st',
    OverflowFit.segment_tables 3 1 [0; 1; 4]%Q OverflowFit.start_caches = Some ((D, P), st') /\
    get2 P 3 1 = Some 0%Z /\
    OverflowFit.segment 3 1 [0; 1; 4]%Q OverflowFit.start_caches = Some ([(-1)%Z], st') /\
    Forall (fun x => ~ (0 <= x < 3)%Z) [(-1)%Z].
Proof.
  assert (Hfin : is_fin (OverflowFit.residual OverflowFit.start_caches [0; 1; 4]%Q 0 3))
    by (vm_compute; exact I).
  split; [reflexivity|]. split; [lia|]. split; [exact Hfin|].
  destruct (segment_one_segment_path_finite_residual
              OverflowFit.parab OverflowFit.polyfit2 OverflowFit.sum_sq
              3 [0; 1; 4]%Q OverflowFit.start_caches eq_refl (le_n 3))
    as (D & P & st' & Hrun & Hfinite & _).
  exists D, P, st'. split; [exact Hrun|]. exact (Hfinite Hfin).
Defined.

Lemma segment_infeasible_below_min_points_witness :
  length [0; 1; 0; 2; 0; 3; 0; 4; 0; 5; 0; 6]%Q = 12 /\ 1 <= 4 /\ 4 <= 4 /\ 12 <= 12 /\
  exists D P st' c i,
    OverflowFit.segment_tables 12 4 [0; 1; 0; 2; 0; 3; 0; 4; 0; 5; 0; 6]%Q
      OverflowFit.start_caches = Some ((D, P), st') /\
    get2 D 12 4 = Some c /\
    get2 P 12 4 = Some i /\
    12 < min_points 4 /\ c = Inf /\ i = (-1)%Z.
Proof.
  split; [reflexivity|]. split; [lia|]. split; [lia|]. split; [lia|].
  destruct (segment_infeasible_below_min_points
              OverflowFit.parab OverflowFit.polyfit2 OverflowFit.sum_sq
              12 4 [0; 1; 0; 2; 0; 3; 0; 4; 0; 5; 0; 6]%Q OverflowFit.start_caches 4 12
              eq_refl ltac:(lia) ltac:(lia) ltac:(lia))
    as (D & P & st' & c & i & Hrun & HD & HP & Hinf & Hiff).
  assert (Hlt : 12 < min_points 4) by (simpl; lia).
  exists D, P, st', c, i. split; [exact Hrun|]. split; [exact HD|]. split; [exact HP|].
  split; [exact Hlt|]. split; [exact (Hinf Hlt)|]. apply Hiff. exact (Hinf Hlt).
Defined.

Lemma segment_tables_cells_independent_of_size_witness :
  6 <= length [0; 1; 0; 2; 0; 3]%Q /\ 3 <= length [0; 1; 0; 2; 0; 3]%Q /\
  1 <= 2 /\ 1 <= 1 /\ 3 <= 6 /\ 3 <= 3 /\
  exists D1 P1 st1 D2 P2 st2 c i,
    OverflowFit.segment_tables 6 2 [0; 1; 0; 2; 0; 3]%Q OverflowFit.start_caches
      = Some ((D1, P1), st1) /\
    OverflowFit.segment_tables 3 1 [0; 1; 0; 2; 0; 3]%Q OverflowFit.start_caches
      = Some ((D2, P2), st2) /\
    get2 D1 3 1 = Some c /\ get2 D2 3 1 = Some c /\
    get2 P1 3 1 = Some i /\ get2 P2 3 1 = Some i.
Proof.
  split; [simpl; lia|]. split; [simpl; lia|].
  split; [lia|]. split; [lia|]. split; [lia|]. split; [lia|].
  apply (segment_tables_cells_independent_of_size
           OverflowFit.parab OverflowFit.polyfit2 OverflowFit.sum_sq
           6 2 3 1 [0; 1; 0; 2; 0; 3]%Q OverflowFit.start_caches 1 3);
    simpl; lia.
Defined.
